(** * Bomb detonation: a shallow embedding of [bombs.py], [terrain.py]
      and [position.py], and the properties of the detonation engine.

    Conventions of the embedding.
    - Python integers are unbounded: coordinates, widths and masks are [Z].
    - A [Token] is compared by its [value] (the source's [__eq__]); the
      value is the UTF-8 text of the display character.
    - A [dict] keeps its insertion order, and [Terrain.update] walks the
      change-set in that order: [Dict.t] is an association list with unique
      keys, where a write to a present key keeps the key's place.
    - Exceptions are the [Raise] outcome.  The mutual recursion
      [_detonate] / [_propagate] is driven by a fuel counter that bounds the
      nesting depth of [_detonate]; [OutOfFuel] is the only outcome that is
      not a behaviour of the program.
    - The terrain holds tokens only: a cell that [Token.from_str] could not
      decode ([None]) is outside the model. *)

From Stdlib Require Import ZArith List Bool Lia String Ascii.
Import ListNotations.
Local Open Scope Z_scope.

(* ================================================================= *)
(** ** Outcomes: values, exceptions, exhausted fuel *)

Inductive exn : Type :=
| TerrainError
| IndexError
| KeyError
| InvalidDirectionError.

Inductive outcome (A : Type) : Type :=
| Ok (a : A)
| Raise (e : exn)
| OutOfFuel.

Arguments Ok {A} a.
Arguments Raise {A} e.
Arguments OutOfFuel {A}.

Definition bind {A B : Type} (m : outcome A) (k : A -> outcome B) : outcome B :=
  match m with
  | Ok a => k a
  | Raise e => Raise e
  | OutOfFuel => OutOfFuel
  end.

Declare Scope outcome_scope.
Delimit Scope outcome_scope with outcome.
Notation "x <- m ;; k" := (bind m (fun x => k))
  (at level 100, m at next level, right associativity) : outcome_scope.
Local Open Scope outcome_scope.

(* ================================================================= *)
(** ** position.py *)

Inductive Direction : Type := NONE | UP | RIGHT | DOWN | LEFT.

Definition Direction_eqb (a b : Direction) : bool :=
  match a, b with
  | NONE, NONE | UP, UP | RIGHT, RIGHT | DOWN, DOWN | LEFT, LEFT => true
  | _, _ => false
  end.

(** [Direction.opposite] *)
Definition opposite (self : Direction) : Direction :=
  match self with
  | UP => DOWN
  | DOWN => UP
  | RIGHT => LEFT
  | LEFT => RIGHT
  | NONE => NONE
  end.

Record Position : Type := mkPosition { _x : Z; _y : Z }.

(** [Position.__eq__] *)
Definition Position_eqb (p q : Position) : bool :=
  (_x p =? _x q) && (_y p =? _y q).

(** [Position.get_new_position_from] *)
Definition get_new_position_from (self : Position) (direction : Direction)
  : outcome Position :=
  match direction with
  | UP => Ok (mkPosition (_x self) (_y self - 1))
  | RIGHT => Ok (mkPosition (_x self + 1) (_y self))
  | DOWN => Ok (mkPosition (_x self) (_y self + 1))
  | LEFT => Ok (mkPosition (_x self - 1) (_y self))
  | NONE => Raise InvalidDirectionError
  end.

(* ================================================================= *)
(** ** terrain.py *)

Record Token : Type := mkToken { value : string }.

(** [Token.__eq__] *)
Definition Token_eqb (a b : Token) : bool := String.eqb (value a) (value b).

Definition EMPTY : Token := mkToken " ".
Definition WALL : Token := mkToken "#".
Definition BOMB : Token := mkToken "ό".

(** [Token.FLAMES] *)
Definition FLAMES : list Token :=
  [ mkToken "╴"; mkToken "╶"; mkToken "─"; mkToken "╵"; mkToken "┘";
    mkToken "└"; mkToken "┴"; mkToken "╷"; mkToken "┐"; mkToken "┌";
    mkToken "┬"; mkToken "│"; mkToken "┤"; mkToken "├"; mkToken "┼" ].

(** [token in Token.FLAMES] *)
Definition in_FLAMES (token : Token) : bool := existsb (Token_eqb token) FLAMES.

Record Terrain : Type := mkTerrain {
  _width : Z;
  _height : Z;
  _terrain : list Token
}.

(** [Terrain.is_valid_position] *)
Definition is_valid_position (self : Terrain) (pos : Position) : bool :=
  if (_x pos <? 0) || (_x pos >=? _width self)
     || (_y pos <? 0) || (_y pos >=? _height self)
  then false else true.

(** [Terrain._loc_to_index] *)
Definition _loc_to_index (self : Terrain) (pos : Position) : outcome Z :=
  if negb (is_valid_position self pos) then Raise TerrainError
  else Ok (_y pos * _width self + _x pos).

(** Python's [list[i]] for an index that is not negative. *)
Definition list_getitem {A : Type} (l : list A) (i : Z) : outcome A :=
  match nth_error l (Z.to_nat i) with
  | Some a => Ok a
  | None => Raise IndexError
  end.

(** Python's [list[i] = v] for an index that is not negative. *)
Fixpoint list_set_nat {A : Type} (l : list A) (i : nat) (v : A) : option (list A) :=
  match l, i with
  | [], _ => None
  | _ :: l', O => Some (v :: l')
  | a :: l', S i' =>
      match list_set_nat l' i' v with
      | Some r => Some (a :: r)
      | None => None
      end
  end.

Definition list_setitem {A : Type} (l : list A) (i : Z) (v : A) : outcome (list A) :=
  match list_set_nat l (Z.to_nat i) v with
  | Some r => Ok r
  | None => Raise IndexError
  end.

(** [Terrain.get_token] *)
Definition get_token (self : Terrain) (pos : Position) : outcome Token :=
  i <- _loc_to_index self pos ;;
  list_getitem (_terrain self) i.

(** [Terrain.__init__] without a file: a blank terrain. *)
Definition blank (width height : Z) : Terrain :=
  mkTerrain width height (repeat EMPTY (Z.to_nat (width * height))).

(* ================================================================= *)
(** ** The change-set: a [dict] keyed by [Position] *)

Module Dict.

Definition t : Type := list (Position * Token).

Definition empty : t := [].

(** [d.get(k)]: the value, if the key is present. *)
Fixpoint get (d : t) (k : Position) : option Token :=
  match d with
  | [] => None
  | (k', v) :: d' => if Position_eqb k k' then Some v else get d' k
  end.

(** [k in d] *)
Definition mem (d : t) (k : Position) : bool :=
  match get d k with Some _ => true | None => false end.

(** [d[k] = v]: an existing key keeps its place, a new key goes last. *)
Fixpoint set (d : t) (k : Position) (v : Token) : t :=
  match d with
  | [] => [(k, v)]
  | (k', v') :: d' =>
      if Position_eqb k k' then (k', v) :: d' else (k', v') :: set d' k v
  end.

Definition keys (d : t) : list Position := map fst d.

End Dict.

(** [Terrain.update]: the writes happen in the dict's order; the first
    invalid key raises (the model drops the writes done before it, which the
    source leaves in place). *)
Fixpoint update_cells (width height : Z) (cells : list Token) (changes : Dict.t)
  : outcome (list Token) :=
  match changes with
  | [] => Ok cells
  | (pos, token) :: rest =>
      i <- _loc_to_index (mkTerrain width height cells) pos ;;
      cells' <- list_setitem cells i token ;;
      update_cells width height cells' rest
  end.

Definition update (self : Terrain) (changes : Dict.t) : outcome Terrain :=
  cells <- update_cells (_width self) (_height self) (_terrain self) changes ;;
  Ok (mkTerrain (_width self) (_height self) cells).

(* ================================================================= *)
(** ** bombs.py *)

Definition BOMB_SIZE : nat := 3.

(** [DIRECTION_TO_BIT], in the order of the source. *)
Definition DIRECTION_TO_BIT : list (Direction * Z) :=
  [ (DOWN, Z.shiftl 1 3);
    (UP, Z.shiftl 1 2);
    (RIGHT, Z.shiftl 1 1);
    (LEFT, Z.shiftl 1 0) ].

(** [DIRECTION_TO_BIT[direction]] *)
Definition direction_bit (direction : Direction) : outcome Z :=
  match find (fun e => Direction_eqb direction (fst e)) DIRECTION_TO_BIT with
  | Some (_, b) => Ok b
  | None => Raise KeyError
  end.

(** [flame_tokens], in the order of the source. *)
Definition flame_tokens : list (Z * Token) :=
  [ (0,  mkToken " ");
    (1,  mkToken "╴");
    (2,  mkToken "╶");
    (3,  mkToken "─");
    (4,  mkToken "╵");
    (5,  mkToken "┘");
    (6,  mkToken "└");
    (7,  mkToken "┴");
    (8,  mkToken "╷");
    (9,  mkToken "┐");
    (10, mkToken "┌");
    (11, mkToken "┬");
    (12, mkToken "│");
    (13, mkToken "┤");
    (14, mkToken "├");
    (15, mkToken "┼") ].

(** [flame_tokens[mask]] *)
Definition flame_token (mask : Z) : outcome Token :=
  match find (fun e => fst e =? mask) flame_tokens with
  | Some (_, tk) => Ok tk
  | None => Raise KeyError
  end.

(** The scan of [add_flame]: the mask of the first entry of [flame_tokens]
    whose token equals [tok], and 0 when the scan finds none. *)
Definition mask_of_token (tok : Token) : Z :=
  match find (fun e => Token_eqb tok (snd e)) flame_tokens with
  | Some (mask, _) => mask
  | None => 0
  end.

(** The loop [for direction in directions: existing_mask |= ...]. *)
Fixpoint merge_directions (existing_mask : Z) (directions : list Direction)
  : outcome Z :=
  match directions with
  | [] => Ok existing_mask
  | direction :: rest =>
      b <- direction_bit direction ;;
      merge_directions (Z.lor existing_mask b) rest
  end.

(** [add_flame], with the closure's [terrain] and [changes] made explicit.
    A Python set of directions is given as the list of its elements. *)
Definition add_flame (terrain : Terrain) (changes : Dict.t)
  (position : Position) (directions : list Direction) : outcome Dict.t :=
  if negb (is_valid_position terrain position) then Ok changes
  else
    let existing_mask :=
      match Dict.get changes position with
      | Some tok => mask_of_token tok
      | None => 0
      end in
    mask <- merge_directions existing_mask directions ;;
    tok <- flame_token mask ;;
    Ok (Dict.set changes position tok).

(** The directions marked at a cell: only the opposite of [incoming] at the
    last step, both otherwise. *)
Definition marked_directions (incoming : Direction) (remaining_steps : nat)
  : list Direction :=
  match remaining_steps with
  | 1%nat => [opposite incoming]
  | _ => [incoming; opposite incoming]
  end.

Section Engine.

Variable terrain : Terrain.

(** [_propagate]; [rec] stands for the recursive call of [_detonate].
    [remaining_steps] starts at [BOMB_SIZE] and only counts down. *)
Fixpoint _propagate (rec : Dict.t -> Position -> outcome Dict.t)
  (changes : Dict.t) (current : Position) (incoming : Direction)
  (remaining_steps : nat) {struct remaining_steps} : outcome Dict.t :=
  match remaining_steps with
  | O => Ok changes
  | S steps' =>
      token <- get_token terrain current ;;
      if Token_eqb token WALL then Ok (Dict.set changes current EMPTY)
      else if Token_eqb token BOMB && negb (Dict.mem changes current)
      then rec changes current
      else
        changes <- add_flame terrain changes current
                     (marked_directions incoming remaining_steps) ;;
        next_pos <- get_new_position_from current incoming ;;
        if is_valid_position terrain next_pos
        then _propagate rec changes next_pos incoming steps'
        else Ok changes
  end.

(** The loop of [_detonate] over the four directions. *)
Fixpoint spread (rec : Dict.t -> Position -> outcome Dict.t)
  (changes : Dict.t) (center : Position) (directions : list Direction)
  : outcome Dict.t :=
  match directions with
  | [] => Ok changes
  | direction :: rest =>
      next_pos <- get_new_position_from center direction ;;
      changes <- (if is_valid_position terrain next_pos
                  then _propagate rec changes next_pos direction BOMB_SIZE
                  else Ok changes) ;;
      spread rec changes center rest
  end.

Definition _detonate_body (rec : Dict.t -> Position -> outcome Dict.t)
  (changes : Dict.t) (center : Position) : outcome Dict.t :=
  changes <- add_flame terrain changes center [UP; DOWN; LEFT; RIGHT] ;;
  spread rec changes center [UP; DOWN; LEFT; RIGHT].

(** [_detonate]: [fuel] bounds how deeply detonations nest. *)
Fixpoint _detonate (fuel : nat) (changes : Dict.t) (center : Position)
  : outcome Dict.t :=
  match fuel with
  | O => OutOfFuel
  | S fuel' => _detonate_body (_detonate fuel') changes center
  end.

End Engine.

(** [detonate] *)
Definition detonate (fuel : nat) (pos : Position) (terrain : Terrain)
  : outcome Dict.t :=
  token <- get_token terrain pos ;;
  if Token_eqb token BOMB then _detonate terrain fuel Dict.empty pos
  else Ok Dict.empty.


(* ================================================================= *)
(** ** position.py, the rest *)


(** [Position.get_direction_to] *)
Definition get_direction_to (self position : Position) : Direction :=
  if _x self >? _x position then LEFT
  else if _x self <? _x position then RIGHT
  else if _y self >? _y position then UP
  else if _y self <? _y position then DOWN
  else NONE.

(** Python's [range(lo, hi)]. *)
Definition py_range (lo hi : Z) : list Z :=
  map (fun i => lo + Z.of_nat i) (seq 0 (Z.to_nat (hi - lo))).

(** [Position.positions]: the generator, as the list of what it yields. *)
Definition positions (min_x max_x min_y max_y : Z) : list Position :=
  flat_map (fun x => map (fun y => mkPosition x y) (py_range min_y (max_y + 1)))
           (py_range min_x (max_x + 1)).

(* ================================================================= *)
(** ** terrain.py, the rest *)

Definition START : Token := mkToken "@".
Definition GOAL : Token := mkToken "X".
Definition WATER : Token := mkToken "~".
Definition CURRENT_LOCATION : Token := mkToken "O".
Definition VERTICAL : Token := mkToken "│".
Definition HORIZONTAL : Token := mkToken "─".
Definition DOWN_AND_RIGHT : Token := mkToken "┌".
Definition DOWN_AND_LEFT : Token := mkToken "┐".
Definition UP_AND_RIGHT : Token := mkToken "└".
Definition UP_AND_LEFT : Token := mkToken "┘".
Definition GREY_TOKEN : Token := mkToken "░".
Definition BLACK_TOKEN : Token := mkToken "▒".
Definition VISITED_TOKEN : Token := mkToken ".".
Definition SEEN_TOKEN : Token := mkToken "*".
Definition BORDER_HORIZONTAL : Token := mkToken "═".
Definition BORDER_VERTICAL : Token := mkToken "║".
Definition BORDER_UP_AND_RIGHT : Token := mkToken "╚".
Definition BORDER_UP_AND_LEFT : Token := mkToken "╝".
Definition BORDER_DOWN_AND_RIGHT : Token := mkToken "╔".
Definition BORDER_DOWN_AND_LEFT : Token := mkToken "╗".
Definition PATH : Token := mkToken "*".
Definition UNKNOWN : Token := mkToken "?".

(** [Token.instances] once terrain.py is loaded: every [Token(...)] call
    appends, in the order of the module. *)
Definition instances : list Token :=
  [ EMPTY; START; GOAL; WALL; WATER; CURRENT_LOCATION; VERTICAL; HORIZONTAL;
    DOWN_AND_RIGHT; DOWN_AND_LEFT; UP_AND_RIGHT; UP_AND_LEFT; GREY_TOKEN;
    BLACK_TOKEN; VISITED_TOKEN; SEEN_TOKEN; BORDER_HORIZONTAL; BORDER_VERTICAL;
    BORDER_UP_AND_RIGHT; BORDER_UP_AND_LEFT; BORDER_DOWN_AND_RIGHT;
    BORDER_DOWN_AND_LEFT; PATH; UNKNOWN; BOMB ] ++ FLAMES.

(** [Token.from_str] over a registry: the first instance with that value,
    [None] when there is none. *)
Definition from_str_in (registry : list Token) (c : string) : option Token :=
  find (fun t => String.eqb (value t) c) registry.

Definition from_str (c : string) : option Token := from_str_in instances c.

(** Python's [list[i]], negative indices included. *)
Definition py_getitem {A : Type} (l : list A) (i : Z) : outcome A :=
  if i <? 0
  then (if i + Z.of_nat (List.length l) <? 0 then Raise IndexError
        else list_getitem l (i + Z.of_nat (List.length l)))
  else list_getitem l i.

(** The cursor that [Terrain.__iter__] resets and [__next__] advances. *)
Record Cursor : Type := mkCursor { _cursor_x : Z; _cursor_y : Z }.

(** [Terrain.__iter__] *)
Definition __iter__ : Cursor := mkCursor 0 0.

(** What [__next__] does: it ends the iteration ([StopIteration]) or yields
    an item and moves the cursor. *)
Inductive next_result : Type :=
| StopIteration
| Yield (item : Position * Token) (cursor : Cursor).

(** [Terrain.__next__] *)
Definition __next__ (self : Terrain) (c : Cursor) : outcome next_result :=
  if _cursor_y c >=? _height self then Ok StopIteration
  else
    let pos := mkPosition (_cursor_x c) (_cursor_y c) in
    let loc := _cursor_y c * _width self + _cursor_x c in
    token <- py_getitem (_terrain self) loc ;;
    Ok (Yield (pos, token)
          (if _cursor_x c <? _width self - 1
           then mkCursor (_cursor_x c + 1) (_cursor_y c)
           else mkCursor 0 (_cursor_y c + 1))).

(** A [for] loop over the terrain from a cursor, as the list of the items;
    [fuel] bounds the number of calls of [__next__]. *)
Fixpoint iterate (fuel : nat) (self : Terrain) (c : Cursor)
  : outcome (list (Position * Token)) :=
  match fuel with
  | O => OutOfFuel
  | S fuel' =>
      r <- __next__ self c ;;
      match r with
      | StopIteration => Ok []
      | Yield item c' =>
          rest <- iterate fuel' self c' ;;
          Ok (item :: rest)
      end
  end.

(** The loop of [Terrain.apply_visited] over the copy's cells. *)
Fixpoint apply_visited_cells (self : Terrain) (copy : list Token)
  (positions : list Position) (token : Token) : outcome (list Token) :=
  match positions with
  | [] => Ok copy
  | position :: rest =>
      if (_x position <? 0) || (_x position >=? _width self)
         || (_y position <? 0) || (_y position >=? _height self)
      then apply_visited_cells self copy rest token
      else
        tok <- get_token self position ;;
        if Token_eqb tok WALL then apply_visited_cells self copy rest token
        else
          i <- _loc_to_index self position ;;
          cell <- list_getitem copy i ;;
          if Token_eqb cell EMPTY
          then
            i' <- _loc_to_index self position ;;
            copy' <- list_setitem copy i' token ;;
            apply_visited_cells self copy' rest token
          else apply_visited_cells self copy rest token
  end.

(** [Terrain.apply_visited] *)
Definition apply_visited (self : Terrain) (positions : list Position) (token : Token)
  : outcome Terrain :=
  cells <- apply_visited_cells self (_terrain self) positions token ;;
  Ok (mkTerrain (_width self) (_height self) cells).

(* ================================================================= *)
(** ** graphics.py: the integer helpers and the flame sprites *)

(** [delta] *)
Definition delta (p1 p2 : Position) : Z * Z := (_x p2 - _x p1, _y p2 - _y p1).

(** [distance_city_block] *)
Definition distance_city_block (p1 p2 : Position) : Z :=
  Z.abs (_x p2 - _x p1) + Z.abs (_y p2 - _y p1).

(** [scale] *)
Definition scale (pos : Position) (amount : Z) : Position :=
  mkPosition (_x pos * amount) (_y pos * amount).

(** [midpoint], with Python's floor division. *)
Definition midpoint (p1 p2 : Position) : Position :=
  mkPosition ((_x p2 + _x p1) / 2) ((_y p2 + _y p1) / 2).

(** [Flame._token_to_sprite], in the order of the source. *)
Definition _token_to_sprite : list (Token * (Z * Z)) :=
  [ (mkToken "╴", (3, 2)); (mkToken "╶", (1, 3)); (mkToken "─", (1, 2));
    (mkToken "╵", (2, 3)); (mkToken "┘", (3, 1)); (mkToken "└", (0, 2));
    (mkToken "┴", (3, 0)); (mkToken "╷", (0, 3)); (mkToken "┐", (2, 1));
    (mkToken "┌", (1, 1)); (mkToken "┬", (1, 0)); (mkToken "│", (2, 2));
    (mkToken "┤", (2, 0)); (mkToken "├", (0, 1)); (mkToken "┼", (0, 0)) ].

(** [Flame._token_to_sprite[token]], the lookup of [Flame.__init__]. *)
Definition sheet_coord (token : Token) : outcome (Z * Z) :=
  match find (fun e => Token_eqb token (fst e)) _token_to_sprite with
  | Some (_, xy) => Ok xy
  | None => Raise KeyError
  end.

(* ================================================================= *)
(** ** bombs.py: the click handler of [draw] removes the old flames *)

(** The dict comprehension [{pos: Token.EMPTY for pos, _ in filter(lambda
    t: t[1] in Token.FLAMES, terrain)}] over the items of an iteration. *)
Definition flames_to_empty (items : list (Position * Token)) : Dict.t :=
  fold_left (fun d item => Dict.set d (fst item) EMPTY)
            (filter (fun item => in_FLAMES (snd item)) items) Dict.empty.

(** [terrain.update({...})] with that comprehension. *)
Definition remove_flames (fuel : nat) (terrain : Terrain) : outcome Terrain :=
  items <- iterate fuel terrain __iter__ ;;
  update terrain (flames_to_empty items).
(* ================================================================= *)
(** ** Small terrains to run the model on *)

Definition xy (x y : Z) : Position := mkPosition x y.

(** A blank terrain with the given cells overwritten through [update]. *)
Definition terrain_with (width height : Z) (cells : Dict.t) : Terrain :=
  match update (blank width height) cells with
  | Ok t => t
  | _ => blank width height
  end.

(** The glyph of a mask; [EMPTY] stands in for a mask outside the table. *)
Definition glyph (mask : Z) : Token :=
  match flame_token mask with Ok tk => tk | _ => EMPTY end.


(** A 7 by 7 terrain with a bomb in the middle and flames left over from an
    earlier blast, three of them on the arms of the bomb. *)
Definition scorched_7x7 : Terrain :=
  terrain_with 7 7
    [ (xy 3 3, BOMB); (xy 3 2, mkToken "─"); (xy 4 3, mkToken "┼");
      (xy 3 6, mkToken "╷"); (xy 0 0, mkToken "└") ].

(** A row of four cells with bombs on the first and the third. *)
Definition two_bombs_4x1 : Terrain :=
  terrain_with 4 1 [(xy 0 0, BOMB); (xy 2 0, BOMB)].
(* ================================================================= *)
(** ** Vocabulary of the statements *)

(** What [Terrain.__init__] establishes and [update] keeps: one token per
    cell. *)
Definition Terrain_wf (t : Terrain) : Prop :=
  List.length (_terrain t) = Z.to_nat (_width t * _height t).

Definition is_wall (t : Terrain) (p : Position) : bool :=
  match get_token t p with Ok tok => Token_eqb tok WALL | _ => false end.

Definition is_bomb (t : Terrain) (p : Position) : bool :=
  match get_token t p with Ok tok => Token_eqb tok BOMB | _ => false end.

Definition cardinal (d : Direction) : Prop := d <> NONE.

(** The cell [j] steps away from [p] in direction [d]. *)
Definition shift (p : Position) (d : Direction) (j : Z) : Position :=
  match d with
  | UP => mkPosition (_x p) (_y p - j)
  | RIGHT => mkPosition (_x p + j) (_y p)
  | DOWN => mkPosition (_x p) (_y p + j)
  | LEFT => mkPosition (_x p - j) (_y p)
  | NONE => p
  end.

(** The bit of a direction, as [DIRECTION_TO_BIT] gives it. *)
Definition bit_of (d : Direction) : Z :=
  match direction_bit d with Ok b => b | _ => 0 end.

Definition dirs_mask (ds : list Direction) : Z :=
  fold_left (fun m d => Z.lor m (bit_of d)) ds 0.

(** The mask a change-set holds for a cell, as [add_flame] reads it. *)
Definition mask_at (ch : Dict.t) (p : Position) : Z :=
  match Dict.get ch p with
  | Some tok => mask_of_token tok
  | None => 0
  end.

(** The masks of the table. *)
Definition in_mask_range (m : Z) : Prop := 0 <= m < 16.

(** One write of the engine into the change-set: a wall is recorded as
    [EMPTY]; a valid cell that is no wall gets the glyph of its mask OR-ed
    with some bits. *)
Inductive step (t : Terrain) : Dict.t -> Dict.t -> Prop :=
| step_wall (ch : Dict.t) (cur : Position) :
    is_wall t cur = true ->
    step t ch (Dict.set ch cur EMPTY)
| step_flame (ch : Dict.t) (cur : Position) (m : Z) :
    is_valid_position t cur = true ->
    is_wall t cur = false ->
    in_mask_range m ->
    step t ch (Dict.set ch cur (glyph (Z.lor (mask_at ch cur) m))).

Inductive steps (t : Terrain) : Dict.t -> Dict.t -> Prop :=
| steps_refl (ch : Dict.t) : steps t ch ch
| steps_snoc (ch1 ch2 ch3 : Dict.t) :
    steps t ch1 ch2 -> step t ch2 ch3 -> steps t ch1 ch3.

(** Every value is a glyph of the table, and a wall holds [EMPTY]. *)
Definition canonical (t : Terrain) (ch : Dict.t) : Prop :=
  forall k tok, Dict.get ch k = Some tok ->
    exists m, in_mask_range m /\ tok = glyph m /\ (is_wall t k = true -> m = 0).

(** The cells of the terrain, row by row as [Terrain.__iter__] yields them. *)
Definition all_positions (t : Terrain) : list Position :=
  flat_map
    (fun y => map (fun x => mkPosition (Z.of_nat x) (Z.of_nat y))
                  (seq 0 (Z.to_nat (_width t))))
    (seq 0 (Z.to_nat (_height t))).

(** The bombs of the terrain, and those a change-set has not recorded. *)
Definition bombs (t : Terrain) : list Position :=
  filter (is_bomb t) (all_positions t).

Definition unrecorded (t : Terrain) (ch : Dict.t) : list Position :=
  filter (fun p => is_bomb t p && negb (Dict.mem ch p)) (all_positions t).

(** What the soundness lemmas ask of the recursive call of [_detonate]. *)
Definition rec_sound (t : Terrain) (rec : Dict.t -> Position -> outcome Dict.t) : Prop :=
  forall ch c ch', is_bomb t c = true -> rec ch c = Ok ch' ->
                   steps t ch ch' /\ In c (Dict.keys ch').

(** The recursive call ends when it is given a bomb the change-set has not
    recorded and few enough such bombs are left. *)
Definition rec_halts (t : Terrain) (f : nat)
  (rec : Dict.t -> Position -> outcome Dict.t) : Prop :=
  forall ch c, is_bomb t c = true -> Dict.mem ch c = false ->
               (List.length (unrecorded t ch) <= f)%nat -> rec ch c <> OutOfFuel.

(** The recursive call raises nothing on a bomb. *)
Definition rec_safe (t : Terrain) (rec : Dict.t -> Position -> outcome Dict.t) : Prop :=
  forall ch c e, is_bomb t c = true -> rec ch c <> Raise e.

(** The terrain with its flames removed, as the click handler of [draw]
    does before a detonation: every cell of [Token.FLAMES] becomes [EMPTY]. *)
Definition extinguish (t : Terrain) : Terrain :=
  mkTerrain (_width t) (_height t)
    (map (fun tok => if in_FLAMES tok then EMPTY else tok) (_terrain t)).

(** Two tokens the engine cannot tell apart: it only asks whether a token
    is the wall and whether it is the bomb. *)
Definition same_kind (a b : Token) : Prop :=
  Token_eqb a WALL = Token_eqb b WALL /\ Token_eqb a BOMB = Token_eqb b BOMB.

Definition alike (t t' : Terrain) : Prop :=
  _width t = _width t' /\ _height t = _height t' /\
  Forall2 same_kind (_terrain t) (_terrain t').

(** No [NONE] among the directions: the lookups in [DIRECTION_TO_BIT] succeed. *)
Definition all_cardinal (ds : list Direction) : bool :=
  forallb (fun d => negb (Direction_eqb d NONE)) ds.

(** [rec'] agrees with [rec] wherever [rec] has enough fuel. *)
Definition rec_extends (rec rec' : Dict.t -> Position -> outcome Dict.t) : Prop :=
  forall ch c, rec ch c <> OutOfFuel -> rec' ch c = rec ch c.

(** A write of the engine, named: a wall recorded as [EMPTY], or bits
    OR-ed into the mask of a cell. *)
Inductive write : Type :=
| Clear
| Flame (m : Z).

Definition apply_write (ch : Dict.t) (w : Position * write) : Dict.t :=
  match snd w with
  | Clear => Dict.set ch (fst w) EMPTY
  | Flame m => Dict.set ch (fst w) (glyph (Z.lor (mask_at ch (fst w)) m))
  end.

Definition apply_writes (ch : Dict.t) (ws : list (Position * write)) : Dict.t :=
  fold_left apply_write ws ch.

(** The writes of one propagation that meets no bomb to detonate: it stops
    at the first wall, after the last valid cell, or when the steps are
    used up. *)
Fixpoint ray (t : Terrain) (cur : Position) (d : Direction) (n : nat)
  : list (Position * write) :=
  match n with
  | O => []
  | S n' =>
      if is_wall t cur then [(cur, Clear)]
      else (cur, Flame (dirs_mask (marked_directions d n)))
           :: (if is_valid_position t (shift cur d 1)
               then ray t (shift cur d 1) d n' else [])
  end.

(** The propagation from [c] in direction [d]. *)
Definition arm (t : Terrain) (c : Position) (d : Direction) : list (Position * write) :=
  if is_valid_position t (shift c d 1) then ray t (shift c d 1) d BOMB_SIZE else [].

(** The writes of one bomb that chains no other. *)
Definition blast (t : Terrain) (c : Position) : list (Position * write) :=
  (c, Flame (dirs_mask [UP; DOWN; LEFT; RIGHT]))
  :: arm t c UP ++ arm t c DOWN ++ arm t c LEFT ++ arm t c RIGHT.

(** The bits a cell between the bomb and the tip carries, and those of the
    tip, for a flame that travels in direction [d]. *)
Definition line_mask (d : Direction) : Z := Z.lor (bit_of d) (bit_of (opposite d)).
Definition tip_mask (d : Direction) : Z := bit_of (opposite d).

(** The entry a write leaves in a change-set that had none for the cell. *)
Definition render (w : Position * write) : Position * Token :=
  match snd w with
  | Clear => (fst w, EMPTY)
  | Flame m => (fst w, glyph m)
  end.

(** The three entries of an unobstructed arm of a blast: two cells of the
    line and the tip. *)
Definition flame_arm (c : Position) (d : Direction) : Dict.t :=
  [ (shift c d 1, glyph (line_mask d));
    (shift c d 2, glyph (line_mask d));
    (shift c d 3, glyph (tip_mask d)) ].

(** The writes of an arm that meets a wall [k] steps from the bomb, the
    cells before it being open. *)
Definition arm_until_wall (c : Position) (d : Direction) (k : nat)
  : list (Position * write) :=
  map (fun j => (shift c d (Z.of_nat j), Flame (line_mask d))) (seq 1 (k - 1))
  ++ [(shift c d (Z.of_nat k), Clear)].

(** A bomb the change-set has recorded holds the glyph of all four
    directions. *)
Definition bombs_crossed (t : Terrain) (ch : Dict.t) : Prop :=
  forall p, is_bomb t p = true -> Dict.mem ch p = true ->
            Dict.get ch p = Some (glyph 15).

(** A recorded wall holds [EMPTY]; any other recorded cell holds the glyph
    of a mask that is not zero. *)
Definition well_marked (t : Terrain) (ch : Dict.t) : Prop :=
  forall k tok, Dict.get ch k = Some tok ->
    if is_wall t k then tok = EMPTY
    else exists m, 1 <= m < 16 /\ tok = glyph m.

(** The recursive call keeps a property of the change-set. *)
Definition rec_keeps (t : Terrain) (Inv : Dict.t -> Prop)
  (rec : Dict.t -> Position -> outcome Dict.t) : Prop :=
  forall ch c ch', is_bomb t c = true -> Inv ch -> rec ch c = Ok ch' -> Inv ch'.

(** Masks that may be absent, and their union. *)
Definition omerge (a b : option Z) : option Z :=
  match a, b with
  | None, _ => b
  | _, None => a
  | Some m, Some n => Some (Z.lor m n)
  end.

(** The mask a change-set shows for a cell, if it has an entry. *)
Definition view (ch : Dict.t) (p : Position) : option Z :=
  match Dict.get ch p with
  | Some tok => Some (mask_of_token tok)
  | None => None
  end.

Definition write_mask (w : write) : Z :=
  match w with Clear => 0 | Flame m => m end.

(** The union of the masks that a list of writes sends to a cell. *)
Fixpoint contrib (ws : list (Position * write)) (p : Position) : option Z :=
  match ws with
  | [] => None
  | (q, w) :: rest =>
      if Position_eqb p q then omerge (Some (write_mask w)) (contrib rest p)
      else contrib rest p
  end.

(** Writes as the engine makes them on terrain [t]: [Clear] on walls only,
    [Flame] with a mask of the table on valid cells that are no walls. *)
Definition write_fits (t : Terrain) (w : Position * write) : Prop :=
  match snd w with
  | Clear => is_wall t (fst w) = true
  | Flame m => is_wall t (fst w) = false /\ in_mask_range m
  end.

(** Union of two entries of change-sets: the glyph of the union of their
    masks. *)
Definition merge_entries (a b : option Token) : option Token :=
  match a, b with
  | None, _ => b
  | _, None => a
  | Some x, Some y => Some (glyph (Z.lor (mask_of_token x) (mask_of_token y)))
  end.

(** A change-set whose walls hold the mask 0 and whose values are glyphs. *)
Definition tidy (t : Terrain) (ch : Dict.t) : Prop :=
  forall k tok, Dict.get ch k = Some tok ->
    tok = glyph (mask_of_token tok) /\ (is_wall t k = true -> mask_of_token tok = 0).

(** The writes of the first [j] steps of a propagation over open cells. *)
Fixpoint open_run (cur : Position) (d : Direction) (n j : nat)
  : list (Position * write) :=
  match j with
  | O => []
  | S j' =>
      (cur, Flame (dirs_mask (marked_directions d n)))
      :: open_run (shift cur d 1) d (Nat.pred n) j'
  end.

(** The writes of a detonation at [A] that chains the bomb [k] steps away
    in direction [d]: the arm towards that bomb writes its open cells and then
    the whole blast of the chained bomb; the other arms are as usual. *)
Definition chain_arm (t : Terrain) (A : Position) (d : Direction) (k : nat)
  (d0 : Direction) : list (Position * write) :=
  if Direction_eqb d0 d
  then open_run (shift A d 1) d BOMB_SIZE (k - 1) ++ blast t (shift A d (Z.of_nat k))
  else arm t A d0.

Definition chain_writes (t : Terrain) (A : Position) (d : Direction) (k : nat)
  : list (Position * write) :=
  (A, Flame (dirs_mask [UP; DOWN; LEFT; RIGHT]))
  :: flat_map (chain_arm t A d k) [UP; DOWN; LEFT; RIGHT].

(** [a] adds nothing to [b]. *)
Definition within (a b : option Z) : Prop := omerge a b = b.

(** The position of the [n]-th cell in row-major order. *)
Definition position_of_index (t : Terrain) (n : nat) : Position :=
  mkPosition (Z.of_nat n mod _width t) (Z.of_nat n / _width t).

(** What [apply_visited] leaves in a cell that held [tok]: the marking
    token when the cell was [EMPTY] and is among the visited positions. *)
Definition visited_token (token : Token) (visited : list Position)
  (p : Position) (tok : Token) : Token :=
  if Token_eqb tok EMPTY && existsb (Position_eqb p) visited then token else tok.

(* ================================================================= *)
(** * Properties *)

(** ** Positions, tokens and the two tables *)

Lemma Position_eqb_eq (p q : Position) : Position_eqb p q = true <-> p = q.
Proof.
  destruct p as [px py], q as [qx qy]; unfold Position_eqb; simpl.
  rewrite andb_true_iff, !Z.eqb_eq. split.
  - intros [-> ->]; reflexivity.
  - intros H; inversion H; auto.
Qed.

Lemma Position_eqb_refl (p : Position) : Position_eqb p p = true.
Proof. apply Position_eqb_eq; reflexivity. Qed.

Lemma Position_eqb_neq (p q : Position) : Position_eqb p q = false <-> p <> q.
Proof.
  rewrite <- Position_eqb_eq. destruct (Position_eqb p q); split; congruence.
Qed.

Lemma Position_eqb_sym (p q : Position) : Position_eqb p q = Position_eqb q p.
Proof.
  destruct (Position_eqb q p) eqn:E.
  - apply Position_eqb_eq in E; subst; apply Position_eqb_refl.
  - apply Position_eqb_neq; apply Position_eqb_neq in E; congruence.
Qed.

Lemma Position_eq_dec (p q : Position) : {p = q} + {p <> q}.
Proof.
  destruct (Position_eqb p q) eqn:E.
  - left; apply Position_eqb_eq; exact E.
  - right; apply Position_eqb_neq; exact E.
Qed.

Lemma Token_eqb_eq (a b : Token) : Token_eqb a b = true <-> a = b.
Proof.
  destruct a as [va], b as [vb]; unfold Token_eqb; simpl.
  rewrite String.eqb_eq. split; [intros ->; reflexivity | intros H; inversion H; auto].
Qed.

Lemma Token_eqb_refl (a : Token) : Token_eqb a a = true.
Proof. apply Token_eqb_eq; reflexivity. Qed.

Lemma bomb_is_not_wall (tok : Token) :
  Token_eqb tok BOMB = true -> Token_eqb tok WALL = false.
Proof. intros H; apply Token_eqb_eq in H; subst; reflexivity. Qed.

Lemma mask_cases (m : Z) :
  in_mask_range m ->
  m = 0 \/ m = 1 \/ m = 2 \/ m = 3 \/ m = 4 \/ m = 5 \/ m = 6 \/ m = 7 \/
  m = 8 \/ m = 9 \/ m = 10 \/ m = 11 \/ m = 12 \/ m = 13 \/ m = 14 \/ m = 15.
Proof. unfold in_mask_range; lia. Qed.

Ltac each_mask H :=
  apply mask_cases in H;
  repeat (destruct H as [H | H]); subst.

Lemma flame_token_glyph (m : Z) : in_mask_range m -> flame_token m = Ok (glyph m).
Proof. intros H; each_mask H; reflexivity. Qed.

Lemma mask_of_token_glyph (m : Z) : in_mask_range m -> mask_of_token (glyph m) = m.
Proof. intros H; each_mask H; reflexivity. Qed.

Lemma glyph_inj (m n : Z) :
  in_mask_range m -> in_mask_range n -> glyph m = glyph n -> m = n.
Proof.
  intros Hm Hn E. rewrite <- (mask_of_token_glyph m Hm), <- (mask_of_token_glyph n Hn).
  rewrite E; reflexivity.
Qed.

Lemma glyph_0 : glyph 0 = EMPTY.
Proof. reflexivity. Qed.

Lemma mask_of_token_range (tok : Token) : in_mask_range (mask_of_token tok).
Proof.
  unfold mask_of_token, flame_tokens, find, in_mask_range; simpl snd.
  repeat match goal with
         | |- context [if Token_eqb ?a ?b then _ else _] =>
             destruct (Token_eqb a b); [simpl; lia |]
         end.
  lia.
Qed.

Lemma mask_at_range (ch : Dict.t) (p : Position) : in_mask_range (mask_at ch p).
Proof.
  unfold mask_at. destruct (Dict.get ch p).
  - apply mask_of_token_range.
  - unfold in_mask_range; lia.
Qed.

Lemma lor_mask_range (m n : Z) :
  in_mask_range m -> in_mask_range n -> in_mask_range (Z.lor m n).
Proof.
  unfold in_mask_range; intros Hm Hn. split.
  - apply Z.lor_nonneg; lia.
  - destruct (Z.eq_dec (Z.lor m n) 0) as [E | E]; [lia |].
    apply (Z.log2_lt_pow2 (Z.lor m n) 4).
    + assert (0 <= Z.lor m n) by (apply Z.lor_nonneg; lia). lia.
    + rewrite Z.log2_lor by lia.
      assert (Z.log2 m < 4).
      { destruct (Z.eq_dec m 0) as [-> | ?]; [simpl; lia |].
        apply Z.log2_lt_pow2; lia. }
      assert (Z.log2 n < 4).
      { destruct (Z.eq_dec n 0) as [-> | ?]; [simpl; lia |].
        apply Z.log2_lt_pow2; lia. }
      lia.
Qed.

Lemma bit_of_range (d : Direction) : in_mask_range (bit_of d).
Proof. destruct d; unfold in_mask_range; vm_compute; split; congruence. Qed.

Lemma direction_bit_cardinal (d : Direction) :
  cardinal d -> direction_bit d = Ok (bit_of d).
Proof. destruct d; intros H; try reflexivity. exfalso; apply H; reflexivity. Qed.

Lemma direction_bit_NONE : direction_bit NONE = Raise KeyError.
Proof. reflexivity. Qed.

Lemma opposite_cardinal (d : Direction) : cardinal d -> cardinal (opposite d).
Proof. destruct d; unfold cardinal; simpl; congruence. Qed.

Lemma opposite_involutive (d : Direction) : opposite (opposite d) = d.
Proof. destruct d; reflexivity. Qed.

(* ================================================================= *)
(** ** The change-set dictionary *)

Module DictFacts.

Lemma get_set_same (d : Dict.t) (k : Position) (v : Token) :
  Dict.get (Dict.set d k v) k = Some v.
Proof.
  induction d as [| [k' v'] d IH]; simpl.
  - rewrite Position_eqb_refl; reflexivity.
  - destruct (Position_eqb k k') eqn:E; simpl; rewrite E; auto.
Qed.

Lemma get_set_other (d : Dict.t) (k k' : Position) (v : Token) :
  k' <> k -> Dict.get (Dict.set d k v) k' = Dict.get d k'.
Proof.
  intros Hne. induction d as [| [k0 v0] d IH]; simpl.
  - apply Position_eqb_neq in Hne; rewrite Hne; reflexivity.
  - destruct (Position_eqb k k0) eqn:E; simpl.
    + apply Position_eqb_eq in E; subst k0.
      apply Position_eqb_neq in Hne; rewrite Hne; reflexivity.
    + rewrite IH; reflexivity.
Qed.

Lemma get_set (d : Dict.t) (k k' : Position) (v : Token) :
  Dict.get (Dict.set d k v) k' =
  if Position_eqb k' k then Some v else Dict.get d k'.
Proof.
  destruct (Position_eqb k' k) eqn:E.
  - apply Position_eqb_eq in E; subst; apply get_set_same.
  - apply get_set_other; apply Position_eqb_neq; exact E.
Qed.

Lemma mem_set (d : Dict.t) (k k' : Position) (v : Token) :
  Dict.mem (Dict.set d k v) k' = Position_eqb k' k || Dict.mem d k'.
Proof.
  unfold Dict.mem; rewrite get_set. destruct (Position_eqb k' k); reflexivity.
Qed.

Lemma mem_keys (d : Dict.t) (k : Position) :
  Dict.mem d k = true <-> In k (Dict.keys d).
Proof.
  unfold Dict.mem, Dict.keys. induction d as [| [k' v'] d IH]; simpl.
  - split; [discriminate | tauto].
  - destruct (Position_eqb k k') eqn:E.
    + apply Position_eqb_eq in E; subst. split; auto.
    + rewrite IH. apply Position_eqb_neq in E. split; [auto | intros [? | ?]; congruence].
Qed.

Lemma get_none_keys (d : Dict.t) (k : Position) :
  Dict.get d k = None <-> ~ In k (Dict.keys d).
Proof.
  rewrite <- mem_keys; unfold Dict.mem.
  destruct (Dict.get d k); split; congruence.
Qed.

Lemma keys_set (d : Dict.t) (k k' : Position) (v : Token) :
  In k' (Dict.keys (Dict.set d k v)) <-> k' = k \/ In k' (Dict.keys d).
Proof.
  rewrite <- !mem_keys, mem_set, orb_true_iff, Position_eqb_eq; tauto.
Qed.

(** A write to a fresh key goes last. *)
Lemma set_fresh (d : Dict.t) (k : Position) (v : Token) :
  Dict.get d k = None -> Dict.set d k v = d ++ [(k, v)].
Proof.
  induction d as [| [k' v'] d IH]; simpl; auto.
  destruct (Position_eqb k k'); [discriminate |].
  intros H; rewrite IH; auto.
Qed.

(** The keys of a dict built by [Dict.set] never repeat. *)
Lemma NoDup_keys_set (d : Dict.t) (k : Position) (v : Token) :
  NoDup (Dict.keys d) -> NoDup (Dict.keys (Dict.set d k v)).
Proof.
  unfold Dict.keys. induction d as [| [k' v'] d IH]; simpl; intros H.
  - constructor; [simpl; tauto | constructor].
  - inversion H as [| ? ? Hnin Hnd]; subst.
    destruct (Position_eqb k k') eqn:E; simpl.
    + constructor; assumption.
    + constructor; [| apply IH; assumption].
      intros Hin. apply (keys_set d k k' v) in Hin. destruct Hin as [-> | Hin].
      * rewrite Position_eqb_refl in E; discriminate.
      * apply Hnin; exact Hin.
Qed.

Lemma set_set_same (d : Dict.t) (k : Position) (v w : Token) :
  Dict.set (Dict.set d k v) k w = Dict.set d k w.
Proof.
  induction d as [| [k' v'] d IH]; simpl.
  - rewrite Position_eqb_refl; reflexivity.
  - destruct (Position_eqb k k') eqn:E; simpl; rewrite E; [reflexivity |].
    rewrite IH; reflexivity.
Qed.

Lemma length_set_le (d : Dict.t) (k : Position) (v : Token) :
  (List.length d <= List.length (Dict.set d k v))%nat.
Proof.
  induction d as [| [k' v'] d IH]; simpl; [lia |].
  destruct (Position_eqb k k'); simpl; lia.
Qed.

End DictFacts.

(* ================================================================= *)
(** ** [add_flame] in closed form *)

Lemma merge_directions_cardinal (ds : list Direction) (m : Z) :
  Forall cardinal ds ->
  merge_directions m ds = Ok (fold_left (fun a d => Z.lor a (bit_of d)) ds m).
Proof.
  intros H; revert m; induction H as [| d ds Hd _ IH]; intros m; simpl.
  - reflexivity.
  - rewrite (direction_bit_cardinal d Hd); simpl. apply IH.
Qed.

Lemma fold_lor_shift (ds : list Direction) (m : Z) :
  fold_left (fun a d => Z.lor a (bit_of d)) ds m = Z.lor m (dirs_mask ds).
Proof.
  unfold dirs_mask. revert m; induction ds as [| d ds IH]; intros m; simpl.
  - rewrite Z.lor_0_r; reflexivity.
  - rewrite IH, (IH (bit_of d)), Z.lor_assoc; reflexivity.
Qed.

Lemma dirs_mask_range (ds : list Direction) : in_mask_range (dirs_mask ds).
Proof.
  unfold dirs_mask.
  assert (G : forall m, in_mask_range m ->
                        in_mask_range (fold_left (fun a d => Z.lor a (bit_of d)) ds m)).
  { induction ds as [| d ds IH]; intros m Hm; simpl; auto.
    apply IH, lor_mask_range; [exact Hm | apply bit_of_range]. }
  apply G; unfold in_mask_range; lia.
Qed.

(** On a valid cell and for directions other than [NONE], [add_flame] ORs
    the bits into the mask the change-set holds and stores its glyph. *)
Lemma add_flame_valid (t : Terrain) (ch : Dict.t) (p : Position) (ds : list Direction) :
  is_valid_position t p = true ->
  Forall cardinal ds ->
  add_flame t ch p ds =
  Ok (Dict.set ch p (glyph (Z.lor (mask_at ch p) (dirs_mask ds)))).
Proof.
  intros Hv Hds. unfold add_flame. rewrite Hv; simpl.
  fold (mask_at ch p).
  rewrite (merge_directions_cardinal ds _ Hds), fold_lor_shift; simpl.
  rewrite flame_token_glyph; [reflexivity |].
  apply lor_mask_range; [apply mask_at_range | apply dirs_mask_range].
Qed.

Lemma add_flame_invalid (t : Terrain) (ch : Dict.t) (p : Position) (ds : list Direction) :
  is_valid_position t p = false -> add_flame t ch p ds = Ok ch.
Proof. intros Hv; unfold add_flame; rewrite Hv; reflexivity. Qed.

Lemma marked_directions_cardinal (d : Direction) (n : nat) :
  cardinal d -> Forall cardinal (marked_directions d n).
Proof.
  intros Hd. pose proof (opposite_cardinal d Hd).
  destruct n as [| [| n]]; simpl; repeat constructor; assumption.
Qed.

Lemma mask_at_set (ch : Dict.t) (p q : Position) (m : Z) :
  in_mask_range m ->
  mask_at (Dict.set ch p (glyph m)) q = if Position_eqb q p then m else mask_at ch q.
Proof.
  intros Hm. unfold mask_at. rewrite DictFacts.get_set.
  destruct (Position_eqb q p); [apply mask_of_token_glyph; exact Hm | reflexivity].
Qed.

(* ================================================================= *)
(** ** Two merges into one cell *)

Lemma all_cardinal_Forall (ds : list Direction) :
  all_cardinal ds = true <-> Forall cardinal ds.
Proof.
  unfold all_cardinal. rewrite forallb_forall, Forall_forall.
  split; intros H d Hd; specialize (H d Hd); destruct d; unfold cardinal in *;
    simpl in *; congruence.
Qed.

Lemma merge_directions_NONE (ds : list Direction) (m : Z) :
  all_cardinal ds = false -> merge_directions m ds = Raise KeyError.
Proof.
  revert m; induction ds as [| d ds IH]; intros m; simpl; [discriminate |].
  destruct d; simpl; auto.
Qed.

(** [add_flame] in every case. *)
Lemma add_flame_cases (t : Terrain) (ch : Dict.t) (p : Position) (ds : list Direction) :
  add_flame t ch p ds =
  if negb (is_valid_position t p) then Ok ch
  else if all_cardinal ds
       then Ok (Dict.set ch p (glyph (Z.lor (mask_at ch p) (dirs_mask ds))))
       else Raise KeyError.
Proof.
  destruct (is_valid_position t p) eqn:Hv; simpl.
  - destruct (all_cardinal ds) eqn:Hc.
    + apply add_flame_valid; [exact Hv | apply all_cardinal_Forall; exact Hc].
    + unfold add_flame. rewrite Hv; simpl.
      rewrite merge_directions_NONE by exact Hc. reflexivity.
  - apply add_flame_invalid; exact Hv.
Qed.

Lemma dirs_mask_app (d1 d2 : list Direction) :
  dirs_mask (d1 ++ d2) = Z.lor (dirs_mask d1) (dirs_mask d2).
Proof.
  unfold dirs_mask at 1. rewrite fold_left_app, fold_lor_shift. reflexivity.
Qed.

Lemma all_cardinal_app (d1 d2 : list Direction) :
  all_cardinal (d1 ++ d2) = all_cardinal d1 && all_cardinal d2.
Proof. apply forallb_app. Qed.

(** Merging [d1] and then [d2] into a cell is merging them at once. *)
Lemma add_flame_twice (t : Terrain) (ch : Dict.t) (p : Position) (d1 d2 : list Direction) :
  (ch' <- add_flame t ch p d1 ;; add_flame t ch' p d2) = add_flame t ch p (d1 ++ d2).
Proof.
  rewrite (add_flame_cases t ch p d1), (add_flame_cases t ch p (d1 ++ d2)).
  destruct (is_valid_position t p) eqn:Hv; simpl.
  - rewrite all_cardinal_app. destruct (all_cardinal d1); simpl; [| reflexivity].
    rewrite add_flame_cases, Hv; simpl.
    destruct (all_cardinal d2); [| reflexivity].
    rewrite mask_at_set, Position_eqb_refl
      by (apply lor_mask_range; [apply mask_at_range | apply dirs_mask_range]).
    rewrite DictFacts.set_set_same, dirs_mask_app, Z.lor_assoc. reflexivity.
  - rewrite add_flame_cases, Hv; reflexivity.
Qed.

(** [add_flame] depends on the directions through their mask only. *)
Lemma add_flame_same_mask (t : Terrain) (ch : Dict.t) (p : Position)
  (ds ds' : list Direction) :
  all_cardinal ds = all_cardinal ds' -> dirs_mask ds = dirs_mask ds' ->
  add_flame t ch p ds = add_flame t ch p ds'.
Proof. intros Hc Hm. rewrite !add_flame_cases, Hc, Hm. reflexivity. Qed.

(* ================================================================= *)
(** ** The terrain store *)

Lemma is_valid_position_iff (t : Terrain) (p : Position) :
  is_valid_position t p = true <->
  0 <= _x p < _width t /\ 0 <= _y p < _height t.
Proof.
  unfold is_valid_position.
  destruct (_x p <? 0) eqn:E1, (_x p >=? _width t) eqn:E2,
           (_y p <? 0) eqn:E3, (_y p >=? _height t) eqn:E4; simpl;
    rewrite ?Z.ltb_lt, ?Z.ltb_ge, ?Z.geb_leb, ?Z.leb_le, ?Z.leb_gt in *;
    split; intros; try discriminate; try reflexivity; lia.
Qed.

Lemma is_valid_position_false_iff (t : Terrain) (p : Position) :
  is_valid_position t p = false <->
  ~ (0 <= _x p < _width t /\ 0 <= _y p < _height t).
Proof.
  rewrite <- is_valid_position_iff. destruct (is_valid_position t p); split; congruence.
Qed.

Lemma get_token_invalid (t : Terrain) (p : Position) :
  is_valid_position t p = false -> get_token t p = Raise TerrainError.
Proof. intros H; unfold get_token, _loc_to_index; rewrite H; reflexivity. Qed.

Lemma get_token_Ok_valid (t : Terrain) (p : Position) (tok : Token) :
  get_token t p = Ok tok -> is_valid_position t p = true.
Proof.
  destruct (is_valid_position t p) eqn:E; auto.
  rewrite (get_token_invalid t p E); discriminate.
Qed.

Lemma index_in_range (t : Terrain) (p : Position) :
  is_valid_position t p = true ->
  0 <= _y p * _width t + _x p < _width t * _height t.
Proof. rewrite is_valid_position_iff; nia. Qed.

Lemma index_inj (t : Terrain) (p q : Position) :
  is_valid_position t p = true -> is_valid_position t q = true ->
  _y p * _width t + _x p = _y q * _width t + _x q -> p = q.
Proof.
  rewrite !is_valid_position_iff. destruct p as [px py], q as [qx qy]; simpl.
  intros Hp Hq E.
  assert (py = qy) by nia. subst. assert (px = qx) by lia. subst; reflexivity.
Qed.

Lemma get_token_valid (t : Terrain) (p : Position) :
  Terrain_wf t -> is_valid_position t p = true ->
  exists tok, get_token t p = Ok tok.
Proof.
  intros Hwf Hv. unfold get_token, _loc_to_index, list_getitem. rewrite Hv; simpl.
  pose proof (index_in_range t p Hv) as Hr.
  destruct (nth_error (_terrain t) (Z.to_nat (_y p * _width t + _x p))) as [tok |] eqn:E.
  - exists tok; reflexivity.
  - apply nth_error_None in E. unfold Terrain_wf in Hwf. lia.
Qed.

Lemma get_token_total (t : Terrain) (p : Position) :
  Terrain_wf t ->
  (exists tok, get_token t p = Ok tok) \/ get_token t p = Raise TerrainError.
Proof.
  intros Hwf. destruct (is_valid_position t p) eqn:E.
  - left; apply get_token_valid; assumption.
  - right; apply get_token_invalid; assumption.
Qed.

Lemma is_bomb_valid (t : Terrain) (p : Position) :
  is_bomb t p = true -> is_valid_position t p = true.
Proof.
  unfold is_bomb. destruct (get_token t p) eqn:E; try discriminate.
  intros _; eapply get_token_Ok_valid; eassumption.
Qed.

Lemma is_wall_valid (t : Terrain) (p : Position) :
  is_wall t p = true -> is_valid_position t p = true.
Proof.
  unfold is_wall. destruct (get_token t p) eqn:E; try discriminate.
  intros _; eapply get_token_Ok_valid; eassumption.
Qed.

Lemma is_bomb_not_wall (t : Terrain) (p : Position) :
  is_bomb t p = true -> is_wall t p = false.
Proof.
  unfold is_bomb, is_wall. destruct (get_token t p); auto. apply bomb_is_not_wall.
Qed.

Lemma blank_wf (width height : Z) : Terrain_wf (blank width height).
Proof. unfold Terrain_wf, blank; simpl. apply repeat_length. Qed.

(** *** Writing one cell *)

Lemma list_set_nat_Some {A : Type} (l : list A) (i : nat) (v : A) :
  (i < List.length l)%nat ->
  exists r, list_set_nat l i v = Some r /\ List.length r = List.length l /\
            nth_error r i = Some v /\
            forall j, j <> i -> nth_error r j = nth_error l j.
Proof.
  revert i; induction l as [| a l IH]; intros i Hi; simpl in *; [lia |].
  destruct i as [| i].
  - exists (v :: l); repeat split; auto. intros [| j] Hj; [congruence | reflexivity].
  - destruct (IH i) as (r & -> & Hlen & Hnth & Hother); [lia |].
    exists (a :: r); simpl; repeat split; auto.
    intros [| j] Hj; simpl; auto.
Qed.

(** *** [update] followed by [get_token] *)

Lemma update_cells_spec (w h : Z) (d : Dict.t) :
  NoDup (Dict.keys d) ->
  (forall k, In k (Dict.keys d) -> is_valid_position (mkTerrain w h []) k = true) ->
  forall cells, List.length cells = Z.to_nat (w * h) ->
  exists cells', update_cells w h cells d = Ok cells' /\
    List.length cells' = List.length cells /\
    forall p, is_valid_position (mkTerrain w h []) p = true ->
      nth_error cells' (Z.to_nat (_y p * w + _x p)) =
      match Dict.get d p with
      | Some tok => Some tok
      | None => nth_error cells (Z.to_nat (_y p * w + _x p))
      end.
Proof.
  induction d as [| [k v] d IH]; intros Hnd Hval cells Hlen; simpl.
  - exists cells; auto.
  - inversion Hnd as [| ? ? Hnin Hnd']; subst.
    assert (Hk : is_valid_position (mkTerrain w h []) k = true)
      by (apply Hval; left; reflexivity).
    unfold _loc_to_index.
    replace (is_valid_position (mkTerrain w h cells) k) with true by (symmetry; exact Hk).
    simpl. unfold list_setitem.
    pose proof (index_in_range _ k Hk) as Hr; simpl in Hr.
    destruct (list_set_nat_Some cells (Z.to_nat (_y k * w + _x k)) v)
      as (cells1 & -> & Hlen1 & Hnth1 & Hother1); [lia |].
    simpl.
    destruct (IH Hnd' (fun k' Hk' => Hval k' (or_intror Hk')) cells1)
      as (cells' & -> & Hlen' & Hget'); [congruence |].
    exists cells'; split; [reflexivity | split; [congruence |]].
    intros p Hp. rewrite (Hget' p Hp).
    destruct (Position_eqb p k) eqn:E.
    + apply Position_eqb_eq in E; subst p.
      assert (Dict.get d k = None) as -> by (apply DictFacts.get_none_keys; exact Hnin).
      exact Hnth1.
    + destruct (Dict.get d p); [reflexivity |].
      apply Hother1. apply Position_eqb_neq in E.
      pose proof (index_in_range _ p Hp) as Hrp; simpl in Hrp.
      intros Heq. apply E. apply (index_inj (mkTerrain w h []) p k Hp Hk); simpl. lia.
Qed.

Lemma is_valid_position_cells (w h : Z) (c1 c2 : list Token) (p : Position) :
  is_valid_position (mkTerrain w h c1) p = is_valid_position (mkTerrain w h c2) p.
Proof. reflexivity. Qed.

(** [update] with valid, distinct keys succeeds; afterwards a changed cell
    reads as the change-set says and every other cell reads as before. *)
Lemma update_spec (t : Terrain) (d : Dict.t) :
  Terrain_wf t ->
  NoDup (Dict.keys d) ->
  (forall k, In k (Dict.keys d) -> is_valid_position t k = true) ->
  exists t', update t d = Ok t' /\ Terrain_wf t' /\
    _width t' = _width t /\ _height t' = _height t /\
    forall p, is_valid_position t p = true ->
      get_token t' p =
      match Dict.get d p with
      | Some tok => Ok tok
      | None => get_token t p
      end.
Proof.
  intros Hwf Hnd Hval. destruct t as [w h cells]; unfold Terrain_wf in Hwf; simpl in *.
  destruct (update_cells_spec w h d Hnd Hval cells Hwf) as (cells' & Hup & Hlen & Hget).
  unfold update; simpl. rewrite Hup; simpl.
  eexists; split; [reflexivity |].
  unfold Terrain_wf; simpl. repeat split; try congruence.
  intros p Hp. unfold get_token, _loc_to_index.
  rewrite (is_valid_position_cells w h cells' cells), Hp; simpl.
  unfold list_getitem. rewrite (Hget p Hp).
  destruct (Dict.get d p); reflexivity.
Qed.

(* ================================================================= *)
(** ** The writes of the engine *)

Section Steps.

Variable t : Terrain.

Lemma steps_trans (a b c : Dict.t) : steps t a b -> steps t b c -> steps t a c.
Proof.
  intros Hab Hbc; induction Hbc as [| b c e _ IH Hs]; [assumption |].
  apply (steps_snoc t a c e); [apply IH; exact Hab | exact Hs].
Qed.

Lemma steps_one (a b : Dict.t) : step t a b -> steps t a b.
Proof. intros H; eapply steps_snoc; [apply steps_refl | exact H]. Qed.

Lemma step_keys (a b : Dict.t) (k : Position) :
  step t a b ->
  (In k (Dict.keys b) <->
   In k (Dict.keys a) \/ (In k (Dict.keys b) /\ is_valid_position t k = true)).
Proof.
  intros H; inversion H; subst; rewrite DictFacts.keys_set; split.
  - intros [-> | Hin]; [right | left; assumption].
    split; [left; reflexivity | apply is_wall_valid; assumption].
  - intros [Hin | [Hin _]]; tauto.
  - intros [-> | Hin]; [right | left; assumption].
    split; [left; reflexivity | assumption].
  - intros [Hin | [Hin _]]; tauto.
Qed.

Lemma steps_keys_mono (a b : Dict.t) (k : Position) :
  steps t a b -> In k (Dict.keys a) -> In k (Dict.keys b).
Proof.
  induction 1 as [| a b c _ IH Hs]; auto.
  intros Hin. apply (step_keys b c k Hs). left; auto.
Qed.

Lemma steps_mem_mono (a b : Dict.t) (k : Position) :
  steps t a b -> Dict.mem a k = true -> Dict.mem b k = true.
Proof. rewrite !DictFacts.mem_keys; apply steps_keys_mono. Qed.

Lemma steps_keys_valid (a b : Dict.t) (k : Position) :
  steps t a b -> In k (Dict.keys b) ->
  In k (Dict.keys a) \/ is_valid_position t k = true.
Proof.
  induction 1 as [| a b c _ IH Hs]; auto.
  intros Hin. apply (step_keys b c k Hs) in Hin. destruct Hin as [Hin | [_ Hv]]; auto.
Qed.

Lemma steps_NoDup (a b : Dict.t) :
  steps t a b -> NoDup (Dict.keys a) -> NoDup (Dict.keys b).
Proof.
  induction 1 as [| a b c _ IH Hs]; auto.
  intros Hnd. inversion Hs; subst; apply DictFacts.NoDup_keys_set; auto.
Qed.

Lemma step_canonical (a b : Dict.t) : step t a b -> canonical t a -> canonical t b.
Proof.
  intros Hs Hc k tok. inversion Hs as [ch cur Hw | ch cur m Hv Hw Hm]; subst;
    rewrite DictFacts.get_set; destruct (Position_eqb k cur) eqn:E;
    try (apply Hc).
  - intros [= <-]. exists 0; unfold in_mask_range; repeat split; lia.
  - apply Position_eqb_eq in E; subst k. intros [= <-].
    exists (Z.lor (mask_at a cur) m). split; [| split; [reflexivity | congruence]].
    apply lor_mask_range; [apply mask_at_range | assumption].
Qed.

Lemma steps_canonical (a b : Dict.t) : steps t a b -> canonical t a -> canonical t b.
Proof.
  induction 1 as [| a b c _ IH Hs]; auto.
  intros Hc; eapply step_canonical; eauto.
Qed.

Lemma canonical_empty : canonical t Dict.empty.
Proof. intros k tok; simpl; discriminate. Qed.

(** A recorded wall holds [EMPTY] and keeps it. *)
Lemma canonical_wall (ch : Dict.t) (k : Position) :
  canonical t ch -> is_wall t k = true -> In k (Dict.keys ch) ->
  Dict.get ch k = Some EMPTY.
Proof.
  intros Hc Hw Hin. apply DictFacts.mem_keys in Hin. unfold Dict.mem in Hin.
  destruct (Dict.get ch k) as [tok |] eqn:E; [| discriminate].
  destruct (Hc k tok E) as (m & _ & -> & Hm). rewrite (Hm Hw); reflexivity.
Qed.

End Steps.

(* ================================================================= *)
(** ** The engine only performs such writes *)

Lemma merge_directions_Ok (ds : list Direction) (m m' : Z) :
  merge_directions m ds = Ok m' -> Forall cardinal ds.
Proof.
  revert m; induction ds as [| d ds IH]; intros m; simpl; [constructor |].
  destruct d; simpl; try discriminate; intros H; constructor;
    try (unfold cardinal; discriminate); eapply IH; eassumption.
Qed.

Lemma add_flame_Ok (t : Terrain) (ch ch' : Dict.t) (p : Position) (ds : list Direction) :
  is_valid_position t p = true ->
  add_flame t ch p ds = Ok ch' ->
  Forall cardinal ds /\
  ch' = Dict.set ch p (glyph (Z.lor (mask_at ch p) (dirs_mask ds))).
Proof.
  intros Hv H.
  assert (Hc : Forall cardinal ds).
  { unfold add_flame in H. rewrite Hv in H; simpl in H.
    destruct (merge_directions _ ds) eqn:E; try discriminate.
    eapply merge_directions_Ok; eassumption. }
  split; [assumption |].
  rewrite (add_flame_valid t ch p ds Hv Hc) in H. congruence.
Qed.

Lemma get_new_position_from_shift (p : Position) (d : Direction) :
  cardinal d -> get_new_position_from p d = Ok (shift p d 1).
Proof. destruct d; intros H; try reflexivity. exfalso; apply H; reflexivity. Qed.

Lemma bind_Ok {A B : Type} (m : outcome A) (k : A -> outcome B) (b : B) :
  bind m k = Ok b -> exists a, m = Ok a /\ k a = Ok b.
Proof. destruct m; simpl; try discriminate. intros H; eauto. Qed.

Section Soundness.

Variable t : Terrain.

Lemma add_flame_step (ch ch' : Dict.t) (p : Position) (ds : list Direction) :
  is_valid_position t p = true -> is_wall t p = false ->
  add_flame t ch p ds = Ok ch' ->
  step t ch ch' /\ In p (Dict.keys ch').
Proof.
  intros Hv Hw H. destruct (add_flame_Ok t ch ch' p ds Hv H) as [_ ->].
  split.
  - apply step_flame; auto. apply dirs_mask_range.
  - apply DictFacts.keys_set; left; reflexivity.
Qed.

Lemma _propagate_sound (rec : Dict.t -> Position -> outcome Dict.t) :
  rec_sound t rec ->
  forall n ch cur d ch',
    _propagate t rec ch cur d n = Ok ch' -> steps t ch ch'.
Proof.
  intros Hrec. induction n as [| n IH]; intros ch cur d ch' H.
  - simpl in H. injection H as <-. apply steps_refl.
  - cbn [_propagate] in H.
    apply bind_Ok in H. destruct H as (tok & Htok & H).
    pose proof (get_token_Ok_valid t cur tok Htok) as Hv.
    destruct (Token_eqb tok WALL) eqn:Ew.
    + injection H as <-. apply steps_one, step_wall.
      unfold is_wall; rewrite Htok; exact Ew.
    + destruct (Token_eqb tok BOMB && negb (Dict.mem ch cur)) eqn:Eb.
      * apply andb_true_iff in Eb. destruct Eb as [Eb _].
        apply (Hrec ch cur ch'); auto. unfold is_bomb; rewrite Htok; exact Eb.
      * apply bind_Ok in H. destruct H as (ch1 & H1 & H).
        apply bind_Ok in H. destruct H as (nxt & Hn & H).
        assert (Hs : steps t ch ch1).
        { apply steps_one. eapply add_flame_step; eauto.
          unfold is_wall; rewrite Htok; exact Ew. }
        destruct (is_valid_position t nxt).
        -- eapply steps_trans; [exact Hs | eapply IH; eassumption].
        -- injection H as <-. exact Hs.
Qed.

Lemma spread_sound (rec : Dict.t -> Position -> outcome Dict.t) :
  rec_sound t rec ->
  forall ds ch c ch', spread t rec ch c ds = Ok ch' -> steps t ch ch'.
Proof.
  intros Hrec. induction ds as [| d ds IH]; intros ch c ch' H; cbn [spread] in H.
  - injection H as <-; apply steps_refl.
  - apply bind_Ok in H. destruct H as (nxt & Hn & H).
    apply bind_Ok in H. destruct H as (ch1 & H1 & H).
    eapply steps_trans; [| eapply IH; eassumption].
    destruct (is_valid_position t nxt).
    + exact (_propagate_sound rec Hrec _ _ _ _ _ H1).
    + injection H1 as <-; apply steps_refl.
Qed.

Lemma _detonate_body_sound (rec : Dict.t -> Position -> outcome Dict.t) :
  rec_sound t rec -> rec_sound t (_detonate_body t rec).
Proof.
  intros Hrec ch c ch' Hb H. unfold _detonate_body in H.
  apply bind_Ok in H. destruct H as (ch1 & H1 & H).
  destruct (add_flame_step ch ch1 c _ (is_bomb_valid t c Hb) (is_bomb_not_wall t c Hb) H1)
    as [Hs Hin].
  pose proof (spread_sound rec Hrec _ _ _ _ H) as Hs'.
  split.
  - eapply steps_trans; [apply steps_one; exact Hs | exact Hs'].
  - eapply steps_keys_mono; eassumption.
Qed.

Lemma _detonate_sound (fuel : nat) : rec_sound t (_detonate t fuel).
Proof.
  induction fuel as [| fuel IH].
  - intros ch c ch' _ H; discriminate.
  - apply _detonate_body_sound; exact IH.
Qed.

End Soundness.

(** The change-set [detonate] returns is built from [Dict.empty] by writes
    of the engine. *)
Lemma detonate_steps (fuel : nat) (pos : Position) (t : Terrain) (ch : Dict.t) :
  detonate fuel pos t = Ok ch -> steps t Dict.empty ch.
Proof.
  unfold detonate. intros H. apply bind_Ok in H. destruct H as (tok & Htok & H).
  destruct (Token_eqb tok BOMB) eqn:E.
  - eapply _detonate_sound; [| exact H]. unfold is_bomb; rewrite Htok; exact E.
  - injection H as <-. apply steps_refl.
Qed.

(* ================================================================= *)
(** ** Counting the bombs that are left *)

Lemma In_all_positions (t : Terrain) (p : Position) :
  is_valid_position t p = true -> In p (all_positions t).
Proof.
  rewrite is_valid_position_iff. intros [Hx Hy].
  unfold all_positions. apply in_flat_map.
  exists (Z.to_nat (_y p)). split.
  - apply in_seq; lia.
  - apply in_map_iff. exists (Z.to_nat (_x p)). split.
    + destruct p as [px py]; simpl in *. f_equal; lia.
    + apply in_seq; lia.
Qed.

Lemma length_all_positions (t : Terrain) :
  List.length (all_positions t) = (Z.to_nat (_width t) * Z.to_nat (_height t))%nat.
Proof.
  unfold all_positions.
  assert (G : forall (w : nat) (ys : list nat),
             List.length (flat_map
               (fun y => map (fun x => mkPosition (Z.of_nat x) (Z.of_nat y)) (seq 0 w)) ys)
             = (w * List.length ys)%nat).
  { intros w ys; induction ys as [| y ys IH]; simpl; [lia |].
    rewrite length_app, length_map, length_seq, IH. lia. }
  rewrite G, length_seq; reflexivity.
Qed.

Lemma filter_length_le {A : Type} (f g : A -> bool) (l : list A) :
  (forall a, In a l -> f a = true -> g a = true) ->
  (List.length (filter f l) <= List.length (filter g l))%nat.
Proof.
  induction l as [| a l IH]; intros H; simpl; [lia |].
  assert (IH' := IH (fun b Hb => H b (or_intror Hb))).
  destruct (f a) eqn:Ef.
  - rewrite (H a (or_introl eq_refl) Ef); simpl; lia.
  - destruct (g a); simpl; lia.
Qed.

Lemma filter_length_lt {A : Type} (f g : A -> bool) (l : list A) (c : A) :
  (forall a, In a l -> f a = true -> g a = true) ->
  In c l -> f c = false -> g c = true ->
  (List.length (filter f l) < List.length (filter g l))%nat.
Proof.
  induction l as [| a l IH]; intros H Hin Hf Hg; simpl; [destruct Hin |].
  assert (Hle := filter_length_le f g l (fun b Hb => H b (or_intror Hb))).
  destruct Hin as [-> | Hin].
  - rewrite Hf, Hg; simpl; lia.
  - assert (IH' := IH (fun b Hb => H b (or_intror Hb)) Hin Hf Hg).
    destruct (f a) eqn:Ef.
    + rewrite (H a (or_introl eq_refl) Ef); simpl; lia.
    + destruct (g a); simpl; lia.
Qed.

Lemma filter_length_le_all {A : Type} (f : A -> bool) (l : list A) :
  (List.length (filter f l) <= List.length l)%nat.
Proof. induction l as [| a l IH]; simpl; [lia |]. destruct (f a); simpl; lia. Qed.

Lemma unrecorded_le_bombs (t : Terrain) (ch : Dict.t) :
  (List.length (unrecorded t ch) <= List.length (bombs t))%nat.
Proof.
  apply filter_length_le. intros a _ H. apply andb_true_iff in H; tauto.
Qed.

Lemma bombs_le_cells (t : Terrain) :
  (List.length (bombs t) <= Z.to_nat (_width t) * Z.to_nat (_height t))%nat.
Proof. rewrite <- length_all_positions. apply filter_length_le_all. Qed.

Lemma unrecorded_mono (t : Terrain) (a b : Dict.t) :
  (forall k, Dict.mem a k = true -> Dict.mem b k = true) ->
  (List.length (unrecorded t b) <= List.length (unrecorded t a))%nat.
Proof.
  intros H. apply filter_length_le. intros p _ Hp.
  apply andb_true_iff in Hp. destruct Hp as [Hb Hm]. rewrite Hb; simpl.
  destruct (Dict.mem a p) eqn:E; [| reflexivity].
  rewrite (H p E) in Hm; discriminate.
Qed.

Lemma unrecorded_lt (t : Terrain) (a b : Dict.t) (c : Position) :
  (forall k, Dict.mem a k = true -> Dict.mem b k = true) ->
  is_bomb t c = true -> Dict.mem a c = false -> Dict.mem b c = true ->
  (List.length (unrecorded t b) < List.length (unrecorded t a))%nat.
Proof.
  intros H Hb Ha Hbm. apply (filter_length_lt _ _ _ c).
  - intros p _ Hp. apply andb_true_iff in Hp. destruct Hp as [Hbp Hm]. rewrite Hbp; simpl.
    destruct (Dict.mem a p) eqn:E; [| reflexivity].
    rewrite (H p E) in Hm; discriminate.
  - apply In_all_positions, is_bomb_valid; exact Hb.
  - rewrite Hb, Hbm; reflexivity.
  - rewrite Hb, Ha; reflexivity.
Qed.

Lemma unrecorded_steps (t : Terrain) (a b : Dict.t) :
  steps t a b -> (List.length (unrecorded t b) <= List.length (unrecorded t a))%nat.
Proof. intros H; apply unrecorded_mono; intros k; apply (steps_mem_mono t); exact H. Qed.

(* ================================================================= *)
(** ** Termination: fuel for as many bombs as the terrain holds *)

Lemma bind_OutOfFuel {A B : Type} (m : outcome A) (k : A -> outcome B) :
  bind m k = OutOfFuel -> m = OutOfFuel \/ exists a, m = Ok a /\ k a = OutOfFuel.
Proof. destruct m; simpl; try discriminate; eauto. Qed.

Lemma get_token_halts (t : Terrain) (p : Position) : get_token t p <> OutOfFuel.
Proof.
  unfold get_token, _loc_to_index, list_getitem.
  destruct (is_valid_position t p); simpl; [| discriminate].
  destruct (nth_error _ _); discriminate.
Qed.

Lemma merge_directions_halts (ds : list Direction) (m : Z) :
  merge_directions m ds <> OutOfFuel.
Proof.
  revert m; induction ds as [| d ds IH]; intros m; simpl; [discriminate |].
  destruct d; simpl; try discriminate; apply IH.
Qed.

Lemma add_flame_halts (t : Terrain) (ch : Dict.t) (p : Position) (ds : list Direction) :
  add_flame t ch p ds <> OutOfFuel.
Proof.
  unfold add_flame. destruct (is_valid_position t p); simpl; [| discriminate].
  intros H. apply bind_OutOfFuel in H. destruct H as [H | (m & _ & H)].
  - exact (merge_directions_halts _ _ H).
  - unfold flame_token in H. destruct (find _ flame_tokens) as [[? ?] |]; discriminate.
Qed.

Lemma get_new_position_from_halts (p : Position) (d : Direction) :
  get_new_position_from p d <> OutOfFuel.
Proof. destruct d; discriminate. Qed.

Section Halting.

Variable t : Terrain.

Lemma _propagate_halts (rec : Dict.t -> Position -> outcome Dict.t) (f : nat) :
  rec_halts t f rec ->
  forall n ch cur d,
    (List.length (unrecorded t ch) <= f)%nat ->
    _propagate t rec ch cur d n <> OutOfFuel.
Proof.
  intros Hrec. induction n as [| n IH]; intros ch cur d Hf H; [discriminate |].
  cbn [_propagate] in H.
  apply bind_OutOfFuel in H. destruct H as [H | (tok & Htok & H)];
    [exact (get_token_halts _ _ H) |].
  pose proof (get_token_Ok_valid t cur tok Htok) as Hv.
  destruct (Token_eqb tok WALL) eqn:Ew; [discriminate |].
  destruct (Token_eqb tok BOMB && negb (Dict.mem ch cur)) eqn:Eb.
  - apply andb_true_iff in Eb. destruct Eb as [Eb Em].
    apply negb_true_iff in Em.
    apply (Hrec ch cur); auto. unfold is_bomb; rewrite Htok; exact Eb.
  - apply bind_OutOfFuel in H. destruct H as [H | (ch1 & H1 & H)];
      [exact (add_flame_halts _ _ _ _ H) |].
    apply bind_OutOfFuel in H. destruct H as [H | (nxt & Hn & H)];
      [exact (get_new_position_from_halts _ _ H) |].
    destruct (is_valid_position t nxt); [| discriminate].
    apply (IH ch1 nxt d); [| exact H].
    assert (Hs : step t ch ch1).
    { eapply add_flame_step; eauto. unfold is_wall; rewrite Htok; exact Ew. }
    pose proof (unrecorded_steps t ch ch1 (steps_one t _ _ Hs)). lia.
Qed.

Lemma spread_halts (rec : Dict.t -> Position -> outcome Dict.t) (f : nat) :
  rec_sound t rec -> rec_halts t f rec ->
  forall ds ch c,
    (List.length (unrecorded t ch) <= f)%nat ->
    spread t rec ch c ds <> OutOfFuel.
Proof.
  intros Hsound Hrec. induction ds as [| d ds IH]; intros ch c Hf H;
    cbn [spread] in H; [discriminate |].
  apply bind_OutOfFuel in H. destruct H as [H | (nxt & Hn & H)];
    [exact (get_new_position_from_halts _ _ H) |].
  apply bind_OutOfFuel in H. destruct H as [H | (ch1 & H1 & H)].
  - destruct (is_valid_position t nxt); [| discriminate].
    exact (_propagate_halts rec f Hrec _ _ _ _ Hf H).
  - apply (IH ch1 c); [| exact H].
    assert (Hs : steps t ch ch1).
    { destruct (is_valid_position t nxt).
      - exact (_propagate_sound t rec Hsound _ _ _ _ _ H1).
      - injection H1 as <-; apply steps_refl. }
    pose proof (unrecorded_steps t ch ch1 Hs). lia.
Qed.

Lemma _detonate_halts (fuel : nat) : rec_halts t fuel (_detonate t fuel).
Proof.
  induction fuel as [| fuel IH]; intros ch c Hb Hm Hf.
  - exfalso.
    assert (Hlt : (List.length (unrecorded t (Dict.set ch c EMPTY))
                   < List.length (unrecorded t ch))%nat).
    { apply (unrecorded_lt t _ _ c); auto.
      - intros k Hk. rewrite DictFacts.mem_set, Hk. apply orb_true_r.
      - rewrite DictFacts.mem_set, Position_eqb_refl; reflexivity. }
    lia.
  - cbn [_detonate]. unfold _detonate_body. intros H.
    apply bind_OutOfFuel in H. destruct H as [H | (ch1 & H1 & H)];
      [exact (add_flame_halts _ _ _ _ H) |].
    destruct (add_flame_step t ch ch1 c _ (is_bomb_valid t c Hb)
                (is_bomb_not_wall t c Hb) H1) as [Hs Hin].
    refine (spread_halts (_detonate t fuel) fuel (_detonate_sound t fuel) IH
              _ ch1 c _ H).
    assert (Hlt : (List.length (unrecorded t ch1) < List.length (unrecorded t ch))%nat).
    { apply (unrecorded_lt t _ _ c); auto.
      - intros k; apply (steps_mem_mono t), steps_one; exact Hs.
      - apply DictFacts.mem_keys; exact Hin. }
    lia.
Qed.

End Halting.

(* ================================================================= *)
(** ** No exception past the entry read *)

Lemma bind_Raise {A B : Type} (m : outcome A) (k : A -> outcome B) (e : exn) :
  bind m k = Raise e -> m = Raise e \/ exists a, m = Ok a /\ k a = Raise e.
Proof. destruct m; simpl; try discriminate; eauto. intros [= ->]; auto. Qed.

Section Safety.

Variable t : Terrain.
Hypothesis t_wf : Terrain_wf t.

Lemma _propagate_safe (rec : Dict.t -> Position -> outcome Dict.t) :
  rec_safe t rec ->
  forall n ch cur d e,
    is_valid_position t cur = true -> cardinal d ->
    _propagate t rec ch cur d n <> Raise e.
Proof.
  intros Hrec. induction n as [| n IH]; intros ch cur d e Hv Hd H; [discriminate |].
  cbn [_propagate] in H.
  destruct (get_token_valid t cur t_wf Hv) as (tok & Htok).
  rewrite Htok in H; cbn [bind] in H.
  destruct (Token_eqb tok WALL) eqn:Ew; [discriminate |].
  destruct (Token_eqb tok BOMB && negb (Dict.mem ch cur)) eqn:Eb.
  - apply andb_true_iff in Eb. destruct Eb as [Eb _].
    apply (Hrec ch cur e); auto. unfold is_bomb; rewrite Htok; exact Eb.
  - rewrite (add_flame_valid t ch cur _ Hv (marked_directions_cardinal d (S n) Hd)) in H.
    rewrite (get_new_position_from_shift cur d Hd) in H. cbn [bind] in H.
    destruct (is_valid_position t (shift cur d 1)) eqn:Hn; [| discriminate].
    exact (IH _ _ _ _ Hn Hd H).
Qed.

Lemma spread_safe (rec : Dict.t -> Position -> outcome Dict.t) :
  rec_safe t rec ->
  forall ds ch c e, Forall cardinal ds -> spread t rec ch c ds <> Raise e.
Proof.
  intros Hrec. induction ds as [| d ds IH]; intros ch c e Hds H;
    cbn [spread] in H; [discriminate |].
  inversion Hds as [| ? ? Hd Hds']; subst.
  rewrite (get_new_position_from_shift c d Hd) in H. cbn [bind] in H.
  apply bind_Raise in H. destruct H as [H | (ch1 & _ & H)].
  - destruct (is_valid_position t (shift c d 1)) eqn:Hn; [| discriminate].
    exact (_propagate_safe rec Hrec _ _ _ _ _ Hn Hd H).
  - exact (IH _ _ _ Hds' H).
Qed.

Lemma four_directions_cardinal : Forall cardinal [UP; DOWN; LEFT; RIGHT].
Proof. repeat constructor; unfold cardinal; discriminate. Qed.

Lemma _detonate_safe (fuel : nat) : rec_safe t (_detonate t fuel).
Proof.
  induction fuel as [| fuel IH]; intros ch c e Hb H; [discriminate |].
  cbn [_detonate] in H. unfold _detonate_body in H.
  rewrite (add_flame_valid t ch c _ (is_bomb_valid t c Hb) four_directions_cardinal) in H.
  cbn [bind] in H.
  exact (spread_safe _ IH _ _ _ _ four_directions_cardinal H).
Qed.

End Safety.

(* ================================================================= *)
(** ** More fuel does not change a result *)

Lemma bind_halts_inv {A B : Type} (m : outcome A) (k : A -> outcome B) :
  bind m k <> OutOfFuel -> m <> OutOfFuel.
Proof. intros H E; apply H; rewrite E; reflexivity. Qed.

Section Fuel.

Variable t : Terrain.

Lemma _propagate_extends (rec rec' : Dict.t -> Position -> outcome Dict.t) :
  rec_extends rec rec' ->
  forall n ch cur d,
    _propagate t rec ch cur d n <> OutOfFuel ->
    _propagate t rec' ch cur d n = _propagate t rec ch cur d n.
Proof.
  intros Hrec. induction n as [| n IH]; intros ch cur d H; [reflexivity |].
  cbn [_propagate] in *.
  destruct (get_token t cur) as [tok | e0 |]; cbn [bind] in *; [| reflexivity | reflexivity].
  destruct (Token_eqb tok WALL); [reflexivity |].
  destruct (Token_eqb tok BOMB && negb (Dict.mem ch cur)); [apply Hrec; exact H |].
  destruct (add_flame t ch cur _) as [ch1 | e0 |]; cbn [bind] in *; [| reflexivity | reflexivity].
  destruct (get_new_position_from cur d) as [nxt | e0 |]; cbn [bind] in *; [| reflexivity | reflexivity].
  destruct (is_valid_position t nxt); [apply IH; exact H | reflexivity].
Qed.

Lemma spread_extends (rec rec' : Dict.t -> Position -> outcome Dict.t) :
  rec_extends rec rec' ->
  forall ds ch c,
    spread t rec ch c ds <> OutOfFuel ->
    spread t rec' ch c ds = spread t rec ch c ds.
Proof.
  intros Hrec. induction ds as [| d ds IH]; intros ch c H; [reflexivity |].
  cbn [spread] in *.
  destruct (get_new_position_from c d) as [nxt | e0 |]; cbn [bind] in *; [| reflexivity | reflexivity].
  pose proof (bind_halts_inv _ _ H) as H1.
  assert (E : (if is_valid_position t nxt
               then _propagate t rec' ch nxt d BOMB_SIZE else Ok ch) =
              (if is_valid_position t nxt
               then _propagate t rec ch nxt d BOMB_SIZE else Ok ch)).
  { destruct (is_valid_position t nxt); [| reflexivity].
    apply (_propagate_extends rec rec' Hrec); exact H1. }
  rewrite E.
  destruct (if is_valid_position t nxt then _ else _) as [ch1 | e0 |];
    cbn [bind] in *; [| reflexivity | reflexivity].
  apply IH; exact H.
Qed.

Lemma _detonate_more_fuel (fuel : nat) :
  rec_extends (_detonate t fuel) (_detonate t (S fuel)).
Proof.
  induction fuel as [| fuel IH]; intros ch c H; [exfalso; apply H; reflexivity |].
  change (_detonate_body t (_detonate t (S fuel)) ch c =
          _detonate_body t (_detonate t fuel) ch c).
  change (_detonate_body t (_detonate t fuel) ch c <> OutOfFuel) in H.
  unfold _detonate_body in *.
  destruct (add_flame t ch c _) as [ch1 | e0 |]; cbn [bind] in *; [| reflexivity | reflexivity].
  apply (spread_extends _ _ IH); exact H.
Qed.

Lemma _detonate_fuel_le (fuel fuel' : nat) (ch : Dict.t) (c : Position) :
  (fuel <= fuel')%nat -> _detonate t fuel ch c <> OutOfFuel ->
  _detonate t fuel' ch c = _detonate t fuel ch c.
Proof.
  induction 1 as [| fuel' _ IH]; intros H; [reflexivity |].
  rewrite <- (IH H). apply _detonate_more_fuel. rewrite (IH H); exact H.
Qed.

End Fuel.

Lemma detonate_fuel_le (fuel fuel' : nat) (pos : Position) (t : Terrain) :
  (fuel <= fuel')%nat -> detonate fuel pos t <> OutOfFuel ->
  detonate fuel' pos t = detonate fuel pos t.
Proof.
  unfold detonate. intros Hle H.
  destruct (get_token t pos) as [tok | e0 |]; cbn [bind] in *; [| reflexivity | reflexivity].
  destruct (Token_eqb tok BOMB); [| reflexivity].
  apply _detonate_fuel_le; assumption.
Qed.

(** Fuel for every bomb of the terrain is enough. *)
Lemma detonate_halts (fuel : nat) (pos : Position) (t : Terrain) :
  (List.length (bombs t) <= fuel)%nat -> detonate fuel pos t <> OutOfFuel.
Proof.
  intros Hf. unfold detonate. intros H.
  apply bind_OutOfFuel in H. destruct H as [H | (tok & Htok & H)];
    [exact (get_token_halts _ _ H) |].
  destruct (Token_eqb tok BOMB) eqn:E; [| discriminate].
  apply (_detonate_halts t fuel Dict.empty pos); auto.
  - unfold is_bomb; rewrite Htok; exact E.
  - pose proof (unrecorded_le_bombs t Dict.empty). lia.
Qed.

Lemma detonate_safe (fuel : nat) (pos : Position) (t : Terrain) (e : exn) :
  Terrain_wf t -> is_valid_position t pos = true -> detonate fuel pos t <> Raise e.
Proof.
  intros Hwf Hv. unfold detonate.
  destruct (get_token_valid t pos Hwf Hv) as (tok & Htok). rewrite Htok; cbn [bind].
  destruct (Token_eqb tok BOMB) eqn:E; [| discriminate].
  apply _detonate_safe; auto. unfold is_bomb; rewrite Htok; exact E.
Qed.

Lemma detonate_returns (fuel : nat) (pos : Position) (t : Terrain) :
  Terrain_wf t -> is_valid_position t pos = true ->
  (List.length (bombs t) <= fuel)%nat ->
  exists ch, detonate fuel pos t = Ok ch.
Proof.
  intros Hwf Hv Hf.
  pose proof (detonate_halts fuel pos t Hf) as Hh.
  destruct (detonate fuel pos t) as [ch | e |] eqn:E.
  - exists ch; reflexivity.
  - exfalso; exact (detonate_safe fuel pos t e Hwf Hv E).
  - exfalso; apply Hh; reflexivity.
Qed.

Lemma detonate_keys (fuel : nat) (pos : Position) (t : Terrain) (ch : Dict.t) :
  detonate fuel pos t = Ok ch ->
  NoDup (Dict.keys ch) /\
  forall k, In k (Dict.keys ch) -> is_valid_position t k = true.
Proof.
  intros H. pose proof (detonate_steps fuel pos t ch H) as Hs. split.
  - apply (steps_NoDup t Dict.empty ch Hs). constructor.
  - intros k Hk. destruct (steps_keys_valid t _ _ k Hs Hk) as [[] | Hv]; exact Hv.
Qed.

Lemma get_of_In (d : Dict.t) (k : Position) (v : Token) :
  NoDup (Dict.keys d) -> In (k, v) d -> Dict.get d k = Some v.
Proof.
  unfold Dict.keys. induction d as [| [k' v'] d IH]; simpl; intros Hnd Hin; [tauto |].
  inversion Hnd as [| ? ? Hnin Hnd']; subst.
  destruct Hin as [[= -> ->] | Hin].
  - rewrite Position_eqb_refl; reflexivity.
  - destruct (Position_eqb k k') eqn:E.
    + apply Position_eqb_eq in E; subst k'. exfalso; apply Hnin.
      apply in_map_iff. exists (k, v); auto.
    + apply IH; assumption.
Qed.

(* ================================================================= *)
(** ** The engine reads a cell only as wall, bomb or neither *)

Lemma Forall2_nth_error {A B : Type} (R : A -> B -> Prop) (l : list A) (l' : list B) :
  Forall2 R l l' ->
  forall i, match nth_error l i, nth_error l' i with
            | Some a, Some b => R a b
            | None, None => True
            | _, _ => False
            end.
Proof.
  induction 1 as [| a b l l' Hab _ IH]; intros [| i]; simpl; auto. apply IH.
Qed.

Section Alike.

Variables t t' : Terrain.
Hypothesis Hal : alike t t'.

Lemma alike_valid (p : Position) : is_valid_position t p = is_valid_position t' p.
Proof.
  destruct Hal as (Hw & Hh & _). unfold is_valid_position. rewrite Hw, Hh; reflexivity.
Qed.

Lemma alike_get_token (p : Position) :
  match get_token t p, get_token t' p with
  | Ok a, Ok b => same_kind a b
  | Raise e, Raise e' => e = e'
  | _, _ => False
  end.
Proof.
  unfold get_token, _loc_to_index. rewrite <- alike_valid.
  destruct Hal as (Hw & Hh & Hc).
  destruct (is_valid_position t p); simpl; [| reflexivity].
  unfold list_getitem. rewrite <- Hw.
  pose proof (Forall2_nth_error _ _ _ Hc (Z.to_nat (_y p * _width t + _x p))) as H.
  destruct (nth_error (_terrain t) _), (nth_error (_terrain t') _); simpl; tauto.
Qed.

Lemma alike_add_flame (ch : Dict.t) (p : Position) (ds : list Direction) :
  add_flame t ch p ds = add_flame t' ch p ds.
Proof. unfold add_flame. rewrite alike_valid; reflexivity. Qed.

Lemma alike_propagate (rec rec' : Dict.t -> Position -> outcome Dict.t) :
  (forall ch c, rec ch c = rec' ch c) ->
  forall n ch cur d, _propagate t rec ch cur d n = _propagate t' rec' ch cur d n.
Proof.
  intros Hrec. induction n as [| n IH]; intros ch cur d; [reflexivity |].
  cbn [_propagate].
  pose proof (alike_get_token cur) as Hg.
  destruct (get_token t cur) as [a | e |], (get_token t' cur) as [b | e' |];
    try contradiction; cbn [bind]; [| congruence].
  destruct Hg as [Hw Hb]. rewrite <- Hw, <- Hb.
  destruct (Token_eqb a WALL); [reflexivity |].
  destruct (Token_eqb a BOMB && negb (Dict.mem ch cur)); [apply Hrec |].
  rewrite <- alike_add_flame.
  destruct (add_flame t ch cur _) as [ch1 | e0 |]; cbn [bind]; [| reflexivity | reflexivity].
  destruct (get_new_position_from cur d) as [nxt | e0 |]; cbn [bind]; [| reflexivity | reflexivity].
  rewrite <- alike_valid. destruct (is_valid_position t nxt); [apply IH | reflexivity].
Qed.

Lemma alike_spread (rec rec' : Dict.t -> Position -> outcome Dict.t) :
  (forall ch c, rec ch c = rec' ch c) ->
  forall ds ch c, spread t rec ch c ds = spread t' rec' ch c ds.
Proof.
  intros Hrec. induction ds as [| d ds IH]; intros ch c; [reflexivity |].
  cbn [spread].
  destruct (get_new_position_from c d) as [nxt | e0 |]; cbn [bind]; [| reflexivity | reflexivity].
  rewrite <- alike_valid, <- (alike_propagate rec rec' Hrec).
  destruct (if is_valid_position t nxt then _ else _) as [ch1 | e0 |]; cbn [bind];
    [apply IH | reflexivity | reflexivity].
Qed.

Lemma alike_detonate_rec (fuel : nat) (ch : Dict.t) (c : Position) :
  _detonate t fuel ch c = _detonate t' fuel ch c.
Proof.
  revert ch c; induction fuel as [| fuel IH]; intros ch c; [reflexivity |].
  cbn [_detonate]. unfold _detonate_body.
  rewrite <- alike_add_flame.
  destruct (add_flame t ch c _) as [ch1 | e0 |]; cbn [bind]; [| reflexivity | reflexivity].
  apply alike_spread; exact IH.
Qed.

Lemma alike_detonate (fuel : nat) (pos : Position) :
  detonate fuel pos t = detonate fuel pos t'.
Proof.
  unfold detonate. pose proof (alike_get_token pos) as Hg.
  destruct (get_token t pos) as [a | e |], (get_token t' pos) as [b | e' |];
    try contradiction; cbn [bind]; [| congruence].
  destruct Hg as [_ Hb]. rewrite <- Hb.
  destruct (Token_eqb a BOMB); [apply alike_detonate_rec | reflexivity].
Qed.

End Alike.

Lemma flame_is_open (tok : Token) :
  in_FLAMES tok = true -> same_kind EMPTY tok.
Proof.
  unfold in_FLAMES, FLAMES, existsb. intros H.
  repeat (apply orb_true_iff in H; destruct H as [H | H];
          [apply Token_eqb_eq in H; subst; split; reflexivity |]).
  discriminate.
Qed.

Lemma extinguish_alike (t : Terrain) : alike (extinguish t) t.
Proof.
  unfold alike, extinguish; simpl. repeat split.
  induction (_terrain t) as [| tok l IH]; simpl; constructor; auto.
  destruct (in_FLAMES tok) eqn:E.
  - apply flame_is_open; exact E.
  - split; reflexivity.
Qed.

(* ================================================================= *)
(** ** A propagation that chains no bomb, as a list of writes *)

Lemma shift_shift (p : Position) (d : Direction) (i j : Z) :
  shift (shift p d i) d j = shift p d (i + j).
Proof. destruct p, d; simpl; f_equal; lia. Qed.

Lemma shift_0 (p : Position) (d : Direction) : shift p d 0 = p.
Proof. destruct p, d; simpl; f_equal; lia. Qed.

Lemma apply_writes_app (ch : Dict.t) (ws ws' : list (Position * write)) :
  apply_writes ch (ws ++ ws') = apply_writes (apply_writes ch ws) ws'.
Proof. apply fold_left_app. Qed.

Lemma apply_write_mem (ch : Dict.t) (w : Position * write) (q : Position) :
  Dict.mem (apply_write ch w) q = Position_eqb q (fst w) || Dict.mem ch q.
Proof. destruct w as [p [| m]]; unfold apply_write; simpl; apply DictFacts.mem_set. Qed.

Lemma apply_writes_mem (ws : list (Position * write)) (ch : Dict.t) (q : Position) :
  Dict.mem (apply_writes ch ws) q = existsb (fun w => Position_eqb q (fst w)) ws || Dict.mem ch q.
Proof.
  revert ch; induction ws as [| w ws IH]; intros ch; simpl; [reflexivity |].
  unfold apply_writes in *; simpl. rewrite IH, apply_write_mem.
  destruct (Position_eqb q (fst w)), (existsb _ ws), (Dict.mem ch q); reflexivity.
Qed.

Lemma apply_writes_mem_mono (ws : list (Position * write)) (ch : Dict.t) (q : Position) :
  Dict.mem ch q = true -> Dict.mem (apply_writes ch ws) q = true.
Proof. intros H; rewrite apply_writes_mem, H; apply orb_true_r. Qed.

Lemma apply_writes_keys (ws : list (Position * write)) (ch : Dict.t) (q : Position) :
  In q (Dict.keys (apply_writes ch ws)) <-> In q (map fst ws) \/ In q (Dict.keys ch).
Proof.
  rewrite <- !DictFacts.mem_keys, apply_writes_mem, orb_true_iff, existsb_exists.
  split; intros [H | H]; auto; left.
  - destruct H as (w & Hin & E). apply Position_eqb_eq in E; subst.
    apply in_map; exact Hin.
  - apply in_map_iff in H. destruct H as (w & <- & Hin).
    exists w; split; [exact Hin | apply Position_eqb_refl].
Qed.

Lemma apply_writes_get_other (ws : list (Position * write)) (ch : Dict.t) (q : Position) :
  ~ In q (map fst ws) -> Dict.get (apply_writes ch ws) q = Dict.get ch q.
Proof.
  revert ch; induction ws as [| [p w] ws IH]; intros ch Hnin; [reflexivity |].
  simpl in Hnin. unfold apply_writes in *; simpl. rewrite IH by tauto.
  destruct w; unfold apply_write; simpl; apply DictFacts.get_set_other;
    intros ->; tauto.
Qed.

Section Rays.

Variable t : Terrain.
Hypothesis t_wf : Terrain_wf t.

Lemma is_wall_get_token (p : Position) (tok : Token) :
  get_token t p = Ok tok -> is_wall t p = Token_eqb tok WALL.
Proof. intros H; unfold is_wall; rewrite H; reflexivity. Qed.

Lemma is_bomb_get_token (p : Position) (tok : Token) :
  get_token t p = Ok tok -> is_bomb t p = Token_eqb tok BOMB.
Proof. intros H; unfold is_bomb; rewrite H; reflexivity. Qed.

(** A propagation all of whose bombs are recorded performs the writes of
    [ray]. *)
Lemma _propagate_ray (rec : Dict.t -> Position -> outcome Dict.t) (d : Direction) :
  cardinal d ->
  forall n ch cur,
    is_valid_position t cur = true ->
    (forall q, In q (map fst (ray t cur d n)) -> is_bomb t q = true ->
               Dict.mem ch q = true) ->
    _propagate t rec ch cur d n = Ok (apply_writes ch (ray t cur d n)).
Proof.
  intros Hd. induction n as [| n IH]; intros ch cur Hv Hb; [reflexivity |].
  cbn [_propagate ray] in *.
  destruct (get_token_valid t cur t_wf Hv) as (tok & Htok).
  rewrite Htok; cbn [bind].
  rewrite (is_wall_get_token cur tok Htok) in *.
  destruct (Token_eqb tok WALL) eqn:Ew; [reflexivity |].
  assert (Hg : Token_eqb tok BOMB && negb (Dict.mem ch cur) = false).
  { destruct (Token_eqb tok BOMB) eqn:Eb; [| reflexivity].
    rewrite Hb; [reflexivity | left; reflexivity |].
    rewrite (is_bomb_get_token cur tok Htok); exact Eb. }
  rewrite Hg.
  rewrite (add_flame_valid t ch cur _ Hv (marked_directions_cardinal d (S n) Hd)).
  rewrite (get_new_position_from_shift cur d Hd). cbn [bind].
  destruct (is_valid_position t (shift cur d 1)) eqn:Hn; [| reflexivity].
  rewrite IH; [reflexivity | exact Hn |].
  intros q Hq Hbq. rewrite DictFacts.mem_set.
  rewrite (Hb q (or_intror Hq) Hbq). apply orb_true_r.
Qed.

Lemma arm_spec (rec : Dict.t -> Position -> outcome Dict.t)
  (d : Direction) (ch : Dict.t) (c : Position) :
  cardinal d ->
  (forall q, In q (map fst (arm t c d)) -> is_bomb t q = true ->
             Dict.mem ch q = true) ->
  (if is_valid_position t (shift c d 1)
   then _propagate t rec ch (shift c d 1) d BOMB_SIZE else Ok ch) =
  Ok (apply_writes ch (arm t c d)).
Proof.
  intros Hd Hb. unfold arm in *.
  destruct (is_valid_position t (shift c d 1)) eqn:Hv; [| reflexivity].
  apply _propagate_ray; assumption.
Qed.

(** The loop of [_detonate] when every arm chains no bomb. *)
Lemma spread_arms (rec : Dict.t -> Position -> outcome Dict.t) (c : Position) :
  forall ds ch,
    Forall cardinal ds ->
    (forall d q, In d ds -> In q (map fst (arm t c d)) -> is_bomb t q = true ->
                 Dict.mem ch q = true) ->
    spread t rec ch c ds = Ok (apply_writes ch (flat_map (arm t c) ds)).
Proof.
  induction ds as [| d ds IH]; intros ch Hds Hb; [reflexivity |].
  inversion Hds as [| ? ? Hd Hds']; subst.
  cbn [spread flat_map].
  rewrite (get_new_position_from_shift c d Hd); cbn [bind].
  rewrite (arm_spec rec d ch c Hd) by (intros q; apply Hb; left; reflexivity).
  cbn [bind]. rewrite apply_writes_app. apply IH; [exact Hds' |].
  intros d' q Hd' Hq Hbq. apply apply_writes_mem_mono.
  apply (Hb d' q); auto. right; exact Hd'.
Qed.

Lemma blast_arms (c : Position) :
  blast t c =
  (c, Flame (dirs_mask [UP; DOWN; LEFT; RIGHT]))
  :: flat_map (arm t c) [UP; DOWN; LEFT; RIGHT].
Proof. unfold blast; simpl. rewrite app_nil_r; reflexivity. Qed.

(** One detonation that chains no bomb performs the writes of [blast]. *)
Lemma _detonate_body_blast (rec : Dict.t -> Position -> outcome Dict.t)
  (ch : Dict.t) (c : Position) :
  is_valid_position t c = true ->
  (forall q, In q (map fst (blast t c)) -> is_bomb t q = true ->
             q = c \/ Dict.mem ch q = true) ->
  _detonate_body t rec ch c = Ok (apply_writes ch (blast t c)).
Proof.
  intros Hv Hb. unfold _detonate_body.
  rewrite (add_flame_valid t ch c _ Hv four_directions_cardinal). cbn [bind].
  rewrite (spread_arms rec c _ _ four_directions_cardinal).
  - rewrite blast_arms. reflexivity.
  - intros d q Hd Hq Hbq. rewrite DictFacts.mem_set.
    destruct (Hb q) as [-> | Hm]; auto.
    + rewrite blast_arms. right. apply in_map_iff in Hq.
      destruct Hq as (w & <- & Hw). apply in_map.
      apply in_flat_map. exists d; auto.
    + rewrite Position_eqb_refl; reflexivity.
    + rewrite Hm; apply orb_true_r.
Qed.

End Rays.

(* ================================================================= *)
(** ** Writes to fresh cells, and an unobstructed arm *)

Lemma apply_writes_fresh (ws : list (Position * write)) (ch : Dict.t) :
  NoDup (map fst ws) ->
  (forall q, In q (map fst ws) -> Dict.get ch q = None) ->
  apply_writes ch ws = ch ++ map render ws.
Proof.
  revert ch; induction ws as [| [p w] ws IH]; intros ch Hnd Hfresh; simpl.
  - rewrite app_nil_r; reflexivity.
  - inversion Hnd as [| ? ? Hnin Hnd']; subst.
    assert (Hp : Dict.get ch p = None) by (apply Hfresh; left; reflexivity).
    assert (E : apply_write ch (p, w) = ch ++ [render (p, w)]).
    { unfold apply_write, render, mask_at; simpl. rewrite Hp.
      destruct w; simpl; apply DictFacts.set_fresh; exact Hp. }
    unfold apply_writes in *; simpl. rewrite E, IH; auto.
    + rewrite <- app_assoc; reflexivity.
    + intros q Hq. apply DictFacts.get_none_keys. unfold Dict.keys.
      rewrite map_app, in_app_iff.
      assert (Ep : fst (render (p, w)) = p) by (destruct w; reflexivity).
      simpl. rewrite Ep. intros [Hin | [<- | []]].
      * apply (DictFacts.get_none_keys ch q); [| exact Hin].
        apply Hfresh; right; exact Hq.
      * exact (Hnin Hq).
Qed.

Lemma dirs_mask_line (d : Direction) : dirs_mask [d; opposite d] = line_mask d.
Proof. destruct d; reflexivity. Qed.

Lemma dirs_mask_tip (d : Direction) : dirs_mask [opposite d] = tip_mask d.
Proof. destruct d; reflexivity. Qed.

Lemma arm_open (t : Terrain) (c : Position) (d : Direction) :
  is_valid_position t (shift c d 1) = true ->
  is_valid_position t (shift c d 2) = true ->
  is_valid_position t (shift c d 3) = true ->
  is_wall t (shift c d 1) = false ->
  is_wall t (shift c d 2) = false ->
  is_wall t (shift c d 3) = false ->
  arm t c d = [ (shift c d 1, Flame (line_mask d));
                (shift c d 2, Flame (line_mask d));
                (shift c d 3, Flame (tip_mask d)) ].
Proof.
  intros V1 V2 V3 W1 W2 W3. unfold arm, BOMB_SIZE. rewrite V1.
  cbn [ray]. rewrite W1, !shift_shift. simpl Z.add.
  rewrite V2, W2, V3, W3.
  cbn [marked_directions]. rewrite dirs_mask_line, dirs_mask_tip.
  destruct (is_valid_position t (shift c d 4)); reflexivity.
Qed.

Lemma shift_valid (t : Terrain) (c : Position) (d : Direction) (j : Z) :
  j <= _x c < _width t - j -> j <= _y c < _height t - j -> 0 <= j ->
  is_valid_position t (shift c d j) = true.
Proof.
  intros Hx Hy Hj. apply is_valid_position_iff. destruct c, d; simpl in *; lia.
Qed.

Lemma shift_neq (c : Position) (d : Direction) (j : Z) :
  cardinal d -> j <> 0 -> shift c d j <> c.
Proof.
  intros Hd Hj. destruct c as [cx cy], d; simpl; intros H; inversion H; try lia.
  apply Hd; reflexivity.
Qed.

(** The thirteen cells of an unobstructed blast are distinct. *)
Lemma cross_NoDup (c : Position) :
  NoDup (c :: map fst (flame_arm c UP ++ flame_arm c DOWN
                       ++ flame_arm c LEFT ++ flame_arm c RIGHT)).
Proof.
  destruct c as [cx cy]. simpl.
  repeat (constructor;
          [simpl; intros H;
           repeat (destruct H as [H | H]; [inversion H; lia |]); exact H |]).
  constructor.
Qed.

(* ================================================================= *)
(** ** An arm that meets a wall *)

Lemma shift_between_valid (t : Terrain) (c : Position) (d : Direction) (j k : Z) :
  is_valid_position t c = true ->
  is_valid_position t (shift c d k) = true ->
  0 <= j <= k ->
  is_valid_position t (shift c d j) = true.
Proof.
  rewrite !is_valid_position_iff. destruct c, d; simpl; lia.
Qed.

Lemma shift_inj (c : Position) (d d' : Direction) (i j : Z) :
  cardinal d -> cardinal d' -> 0 < i -> 0 < j ->
  shift c d i = shift c d' j -> d = d' /\ i = j.
Proof.
  unfold cardinal. intros Hd Hd' Hi Hj H.
  destruct c as [cx cy], d, d'; try congruence; simpl in H; inversion H;
    split; try reflexivity; lia.
Qed.

Lemma ray_positions (t : Terrain) (d : Direction) (q : Position) :
  forall n cur, In q (map fst (ray t cur d n)) ->
                exists i, 0 <= i < Z.of_nat n /\ q = shift cur d i.
Proof.
  induction n as [| n IH]; intros cur H; [destruct H |].
  cbn [ray] in H. destruct (is_wall t cur).
  - destruct H as [<- | []]. exists 0. rewrite shift_0. split; [lia | reflexivity].
  - destruct H as [<- | H].
    + exists 0. rewrite shift_0. split; [lia | reflexivity].
    + destruct (is_valid_position t (shift cur d 1)); [| destruct H].
      destruct (IH _ H) as (i & Hi & ->). exists (1 + i).
      rewrite shift_shift. split; [lia | reflexivity].
Qed.

Lemma arm_positions (t : Terrain) (c : Position) (d : Direction) (q : Position) :
  In q (map fst (arm t c d)) -> exists i, 1 <= i <= 3 /\ q = shift c d i.
Proof.
  unfold arm. destruct (is_valid_position t (shift c d 1)); [| intros []].
  intros H. destruct (ray_positions t d q _ _ H) as (i & Hi & ->).
  exists (1 + i). rewrite shift_shift. unfold BOMB_SIZE in Hi. split; [lia | reflexivity].
Qed.

(** The arm towards a wall [k] steps away, over open cells. *)
Lemma arm_to_wall (t : Terrain) (c : Position) (d : Direction) (k : nat) :
  is_valid_position t c = true ->
  (1 <= k <= 3)%nat ->
  is_wall t (shift c d (Z.of_nat k)) = true ->
  (forall j, (1 <= j < k)%nat -> is_wall t (shift c d (Z.of_nat j)) = false) ->
  arm t c d = arm_until_wall c d k.
Proof.
  intros Hc Hk Hw Hopen.
  assert (Hv : forall j, 0 <= j <= Z.of_nat k -> is_valid_position t (shift c d j) = true).
  { intros j Hj. apply (shift_between_valid t c d j (Z.of_nat k)); auto.
    apply is_wall_valid; exact Hw. }
  unfold arm, arm_until_wall, BOMB_SIZE. rewrite (Hv 1) by lia.
  destruct k as [| [| [| [| k]]]]; try lia; cbn [ray seq map Nat.sub app].
  - change (Z.of_nat 1) with 1 in *. rewrite Hw. reflexivity.
  - change (Z.of_nat 2) with 2 in *. change (Z.of_nat 1) with 1 in *.
    pose proof (Hopen 1%nat) as H1. change (Z.of_nat 1) with 1 in H1.
    rewrite H1 by lia. rewrite shift_shift. simpl Z.add.
    rewrite (Hv 2) by lia. rewrite Hw.
    cbn [marked_directions]. rewrite dirs_mask_line. reflexivity.
  - change (Z.of_nat 3) with 3 in *. change (Z.of_nat 2) with 2 in *.
    change (Z.of_nat 1) with 1 in *.
    pose proof (Hopen 1%nat) as H1. pose proof (Hopen 2%nat) as H2.
    change (Z.of_nat 1) with 1 in H1. change (Z.of_nat 2) with 2 in H2.
    rewrite H1 by lia. rewrite !shift_shift. simpl Z.add.
    rewrite (Hv 2) by lia. rewrite H2 by lia. rewrite (Hv 3) by lia. rewrite Hw.
    cbn [marked_directions]. rewrite dirs_mask_line. reflexivity.
Qed.

Lemma arm_until_wall_positions (c : Position) (d : Direction) (k : nat) (q : Position) :
  (1 <= k)%nat ->
  In q (map fst (arm_until_wall c d k)) ->
  exists i, 1 <= i <= Z.of_nat k /\ q = shift c d i.
Proof.
  intros Hk. unfold arm_until_wall. rewrite map_app, in_app_iff, map_map. simpl.
  intros [H | [<- | []]].
  - apply in_map_iff in H. destruct H as (j & <- & Hj). apply in_seq in Hj.
    exists (Z.of_nat j). split; [lia | reflexivity].
  - exists (Z.of_nat k). split; [lia | reflexivity].
Qed.

Lemma arm_until_wall_last (c : Position) (d : Direction) (k : nat) :
  In (shift c d (Z.of_nat k)) (map fst (arm_until_wall c d k)).
Proof.
  unfold arm_until_wall. rewrite map_app, in_app_iff. right; left; reflexivity.
Qed.

(** The last write of the arm leaves [EMPTY] on the wall. *)
Lemma apply_arm_until_wall (ch : Dict.t) (c : Position) (d : Direction) (k : nat) :
  Dict.get (apply_writes ch (arm_until_wall c d k)) (shift c d (Z.of_nat k)) = Some EMPTY.
Proof.
  unfold arm_until_wall. rewrite apply_writes_app. simpl.
  unfold apply_writes at 1. simpl. unfold apply_write; simpl.
  apply DictFacts.get_set_same.
Qed.

(** The arm of direction [d] within the loop of [_detonate]. *)
Lemma spread_inv (t : Terrain) (rec : Dict.t -> Position -> outcome Dict.t)
  (c : Position) (d : Direction) :
  rec_sound t rec ->
  forall ds ch1 ch,
    Forall cardinal ds -> In d ds ->
    spread t rec ch1 c ds = Ok ch ->
    exists ch2 ch3,
      steps t ch1 ch2
      /\ (if is_valid_position t (shift c d 1)
          then _propagate t rec ch2 (shift c d 1) d BOMB_SIZE else Ok ch2) = Ok ch3
      /\ steps t ch3 ch.
Proof.
  intros Hrec. induction ds as [| d0 ds IH]; intros ch1 ch Hds Hin H; [destruct Hin |].
  inversion Hds as [| ? ? Hd0 Hds']; subst.
  cbn [spread] in H. rewrite (get_new_position_from_shift c d0 Hd0) in H.
  cbn [bind] in H. apply bind_Ok in H. destruct H as (cha & Ha & H).
  assert (Hsa : steps t ch1 cha).
  { destruct (is_valid_position t (shift c d0 1)).
    - exact (_propagate_sound t rec Hrec _ _ _ _ _ Ha).
    - injection Ha as <-; apply steps_refl. }
  destruct Hin as [-> | Hin].
  - exists ch1, cha. split; [apply steps_refl |]. split; [exact Ha |].
    exact (spread_sound t rec Hrec _ _ _ _ H).
  - destruct (IH cha ch Hds' Hin H) as (ch2 & ch3 & H2 & H3 & H4).
    exists ch2, ch3. split; [eapply steps_trans; eassumption |]. auto.
Qed.

(* ================================================================= *)
(** ** Invariants of the change-set, by one induction over the engine *)

Lemma dirs_mask_marked_positive (d : Direction) (n : nat) :
  cardinal d -> 1 <= dirs_mask (marked_directions d n) < 16.
Proof.
  intros Hd. destruct d; [exfalso; apply Hd; reflexivity | | | |];
    destruct n as [| [| n]]; vm_compute; split; congruence.
Qed.

Lemma marked_directions_cardinal_inv (d : Direction) (n : nat) :
  Forall cardinal (marked_directions d n) -> cardinal d.
Proof.
  intros H. assert (Ho : cardinal (opposite d)).
  { destruct n as [| [| n]]; simpl in H; inversion H as [| ? ? H1 H2]; subst; auto.
    inversion H2; subst; auto.  inversion H2; subst; auto. }
  rewrite <- (opposite_involutive d). apply opposite_cardinal; exact Ho.
Qed.

Lemma lor_15 (m : Z) : in_mask_range m -> Z.lor m 15 = 15.
Proof. intros H; each_mask H; reflexivity. Qed.

Lemma lor_15_l (m : Z) : in_mask_range m -> Z.lor 15 m = 15.
Proof. intros H; each_mask H; reflexivity. Qed.

Lemma lor_positive (a m : Z) : in_mask_range a -> 1 <= m < 16 -> 1 <= Z.lor a m < 16.
Proof.
  intros Ha Hm.
  assert (Hr : in_mask_range (Z.lor a m))
    by (apply lor_mask_range; [exact Ha | unfold in_mask_range; lia]).
  unfold in_mask_range in *. split; [| lia].
  destruct (Z.eq_dec (Z.lor a m) 0) as [E | E]; [| lia].
  apply Z.lor_eq_0_iff in E. lia.
Qed.

Section Invariant.

Variable t : Terrain.
Variable Inv : Dict.t -> Prop.

(** What an invariant has to survive: the three writes of the engine. *)
Hypothesis Inv_wall : forall ch cur,
  Inv ch -> is_wall t cur = true -> Inv (Dict.set ch cur EMPTY).
Hypothesis Inv_flame : forall ch cur m,
  Inv ch -> is_valid_position t cur = true -> is_wall t cur = false ->
  (is_bomb t cur = true -> Dict.mem ch cur = true) ->
  1 <= m < 16 ->
  Inv (Dict.set ch cur (glyph (Z.lor (mask_at ch cur) m))).
Hypothesis Inv_center : forall ch c,
  Inv ch -> is_bomb t c = true ->
  Inv (Dict.set ch c (glyph (Z.lor (mask_at ch c) 15))).

Lemma _propagate_keeps (rec : Dict.t -> Position -> outcome Dict.t) :
  rec_keeps t Inv rec ->
  forall n ch cur d ch',
    Inv ch -> _propagate t rec ch cur d n = Ok ch' -> Inv ch'.
Proof.
  intros Hrec. induction n as [| n IH]; intros ch cur d ch' HI H.
  - injection H as <-; exact HI.
  - cbn [_propagate] in H.
    apply bind_Ok in H. destruct H as (tok & Htok & H).
    pose proof (get_token_Ok_valid t cur tok Htok) as Hv.
    destruct (Token_eqb tok WALL) eqn:Ew.
    + injection H as <-. apply Inv_wall; [exact HI |].
      unfold is_wall; rewrite Htok; exact Ew.
    + destruct (Token_eqb tok BOMB && negb (Dict.mem ch cur)) eqn:Eb.
      * apply andb_true_iff in Eb. destruct Eb as [Eb _].
        apply (Hrec ch cur ch'); auto. unfold is_bomb; rewrite Htok; exact Eb.
      * apply bind_Ok in H. destruct H as (ch1 & H1 & H).
        apply bind_Ok in H. destruct H as (nxt & Hn & H).
        destruct (add_flame_Ok t ch ch1 cur _ Hv H1) as [Hds ->].
        assert (Hd : cardinal d).
        { apply (marked_directions_cardinal_inv d (S n)); exact Hds. }
        assert (HI1 : Inv (Dict.set ch cur
                        (glyph (Z.lor (mask_at ch cur)
                                  (dirs_mask (marked_directions d (S n))))))).
        { apply Inv_flame; auto.
          - unfold is_wall; rewrite Htok; exact Ew.
          - unfold is_bomb; rewrite Htok. intros Hb. rewrite Hb in Eb.
            simpl in Eb. apply negb_false_iff in Eb; exact Eb.
          - apply dirs_mask_marked_positive; exact Hd. }
        destruct (is_valid_position t nxt).
        -- eapply IH; eassumption.
        -- injection H as <-. exact HI1.
Qed.

Lemma spread_keeps (rec : Dict.t -> Position -> outcome Dict.t) :
  rec_keeps t Inv rec ->
  forall ds ch c ch', Inv ch -> spread t rec ch c ds = Ok ch' -> Inv ch'.
Proof.
  intros Hrec. induction ds as [| d ds IH]; intros ch c ch' HI H; cbn [spread] in H.
  - injection H as <-; exact HI.
  - apply bind_Ok in H. destruct H as (nxt & Hn & H).
    apply bind_Ok in H. destruct H as (ch1 & H1 & H).
    apply (IH ch1 c ch'); [| exact H].
    destruct (is_valid_position t nxt).
    + exact (_propagate_keeps rec Hrec _ _ _ _ _ HI H1).
    + injection H1 as <-; exact HI.
Qed.

Lemma _detonate_keeps (fuel : nat) : rec_keeps t Inv (_detonate t fuel).
Proof.
  induction fuel as [| fuel IH]; intros ch c ch' Hb HI H; [discriminate |].
  cbn [_detonate] in H. unfold _detonate_body in H.
  rewrite (add_flame_valid t ch c _ (is_bomb_valid t c Hb) four_directions_cardinal) in H.
  cbn [bind] in H.
  apply (spread_keeps _ IH _ _ _ _ (Inv_center ch c HI Hb) H).
Qed.

Lemma detonate_keeps (fuel : nat) (pos : Position) (ch : Dict.t) :
  Inv Dict.empty -> detonate fuel pos t = Ok ch -> Inv ch.
Proof.
  intros HI H. unfold detonate in H.
  apply bind_Ok in H. destruct H as (tok & Htok & H).
  destruct (Token_eqb tok BOMB) eqn:E.
  - apply (_detonate_keeps fuel Dict.empty pos ch); auto.
    unfold is_bomb; rewrite Htok; exact E.
  - injection H as <-. exact HI.
Qed.

End Invariant.

Lemma detonate_bombs_crossed (fuel : nat) (pos : Position) (t : Terrain) (ch : Dict.t) :
  detonate fuel pos t = Ok ch -> bombs_crossed t ch.
Proof.
  apply (detonate_keeps t (bombs_crossed t)).
  - intros c cur HI Hw p Hb Hm. rewrite DictFacts.get_set in *. rewrite DictFacts.mem_set in Hm.
    destruct (Position_eqb p cur) eqn:E.
    + apply Position_eqb_eq in E; subst p.
      rewrite (is_bomb_not_wall t cur Hb) in Hw; discriminate.
    + apply HI; auto.
  - intros c cur m HI Hv Hw Hrec Hm p Hb Hmem.
    rewrite DictFacts.get_set. rewrite DictFacts.mem_set in Hmem.
    destruct (Position_eqb p cur) eqn:E.
    + apply Position_eqb_eq in E; subst p.
      assert (E15 : mask_at c cur = 15).
      { unfold mask_at. rewrite (HI cur Hb (Hrec Hb)). reflexivity. }
      rewrite E15, lor_15_l by (unfold in_mask_range; lia). reflexivity.
    + apply HI; auto.
  - intros c0 c HI Hb p Hbp Hmem.
    rewrite DictFacts.get_set. rewrite DictFacts.mem_set in Hmem.
    destruct (Position_eqb p c) eqn:E.
    + rewrite lor_15 by apply mask_at_range. reflexivity.
    + apply HI; auto.
  - intros p _ Hm; discriminate.
Qed.

Lemma detonate_well_marked (fuel : nat) (pos : Position) (t : Terrain) (ch : Dict.t) :
  detonate fuel pos t = Ok ch -> well_marked t ch.
Proof.
  apply (detonate_keeps t (well_marked t)).
  - intros c cur HI Hw k tok. rewrite DictFacts.get_set.
    destruct (Position_eqb k cur) eqn:E; [| apply HI].
    apply Position_eqb_eq in E; subst k. rewrite Hw. congruence.
  - intros c cur m HI Hv Hw _ Hm k tok. rewrite DictFacts.get_set.
    destruct (Position_eqb k cur) eqn:E; [| apply HI].
    apply Position_eqb_eq in E; subst k. rewrite Hw. intros [= <-].
    exists (Z.lor (mask_at c cur) m). split; [| reflexivity].
    apply lor_positive; [apply mask_at_range | exact Hm].
  - intros c0 c HI Hb k tok. rewrite DictFacts.get_set.
    destruct (Position_eqb k c) eqn:E; [| apply HI].
    apply Position_eqb_eq in E; subst k.
    rewrite (is_bomb_not_wall t c Hb). intros [= <-].
    exists 15. rewrite lor_15 by apply mask_at_range. split; [lia | reflexivity].
  - intros k tok H; discriminate.
Qed.

(* ================================================================= *)
(** ** What an arm reaches *)

Lemma in_FLAMES_glyph (m : Z) : 1 <= m < 16 -> in_FLAMES (glyph m) = true.
Proof.
  intros H. assert (Hr : in_mask_range m) by (unfold in_mask_range; lia).
  each_mask Hr; try lia; reflexivity.
Qed.

Lemma in_direction_list (d : Direction) : cardinal d -> In d [UP; DOWN; LEFT; RIGHT].
Proof. destruct d; simpl; intros H; auto. exfalso; apply H; reflexivity. Qed.

Lemma length_set_succ (ch : Dict.t) (p : Position) (v : Token) :
  (List.length (Dict.set ch p v) <= S (List.length ch))%nat.
Proof.
  induction ch as [| [k' v'] ch IHc]; simpl; [lia |].
  destruct (Position_eqb p k'); simpl; lia.
Qed.

Lemma apply_writes_length (ws : list (Position * write)) (ch : Dict.t) :
  (List.length (apply_writes ch ws) <= List.length ch + List.length ws)%nat.
Proof.
  revert ch; induction ws as [| [p w] ws IH]; intros ch; simpl; [lia |].
  unfold apply_writes in *; simpl. specialize (IH (apply_write ch (p, w))).
  assert (List.length (apply_write ch (p, w)) <= S (List.length ch))%nat.
  { destruct w; unfold apply_write; simpl; apply length_set_succ. }
  lia.
Qed.

Lemma ray_length (t : Terrain) (d : Direction) :
  forall n cur, (List.length (ray t cur d n) <= n)%nat.
Proof.
  induction n as [| n IH]; intros cur; cbn [ray]; [simpl; lia |].
  destruct (is_wall t cur); [simpl; lia |].
  destruct (is_valid_position t (shift cur d 1)); simpl; [specialize (IH (shift cur d 1)) |]; lia.
Qed.

Lemma blast_length (t : Terrain) (c : Position) : (List.length (blast t c) <= 13)%nat.
Proof.
  unfold blast. simpl. rewrite !length_app.
  assert (G : forall d, (List.length (arm t c d) <= 3)%nat).
  { intros d. unfold arm. destruct (is_valid_position t (shift c d 1)); [| simpl; lia].
    apply ray_length. }
  pose proof (G UP). pose proof (G DOWN). pose proof (G LEFT). pose proof (G RIGHT). lia.
Qed.

Lemma blast_positions (t : Terrain) (c q : Position) :
  In q (map fst (blast t c)) ->
  q = c \/ exists d i, cardinal d /\ 1 <= i <= 3 /\ q = shift c d i.
Proof.
  unfold blast. simpl. rewrite !map_app, !in_app_iff.
  intros [H | H]; [left; auto | right].
  assert (G : forall d, cardinal d -> In q (map fst (arm t c d)) ->
                        exists d i, cardinal d /\ 1 <= i <= 3 /\ q = shift c d i).
  { intros d Hd Hin. destruct (arm_positions t c d q Hin) as (i & Hi & E).
    exists d, i; auto. }
  destruct H as [H | [H | [H | H]]];
    [apply (G UP) | apply (G DOWN) | apply (G LEFT) | apply (G RIGHT)];
    auto; unfold cardinal; discriminate.
Qed.

Section Reach.

Variable t : Terrain.
Hypothesis t_wf : Terrain_wf t.

(** An arm over open cells reaches the bomb [j] cells ahead: the bomb is
    recorded when the arm returns. *)
Lemma _propagate_reaches_bomb (rec : Dict.t -> Position -> outcome Dict.t) (d : Direction) :
  rec_sound t rec -> cardinal d ->
  forall j n ch cur ch',
    (j < n)%nat ->
    is_valid_position t cur = true ->
    (forall i, (i < j)%nat ->
       is_wall t (shift cur d (Z.of_nat i)) = false /\
       is_bomb t (shift cur d (Z.of_nat i)) = false) ->
    is_bomb t (shift cur d (Z.of_nat j)) = true ->
    _propagate t rec ch cur d n = Ok ch' ->
    In (shift cur d (Z.of_nat j)) (Dict.keys ch').
Proof.
  intros Hrec Hd. induction j as [| j IH]; intros n ch cur ch' Hn Hv Hopen Hb H;
    (destruct n as [| n]; [lia |]); cbn [_propagate] in H;
    destruct (get_token_valid t cur t_wf Hv) as (tok & Htok);
    rewrite Htok in H; cbn [bind] in H.
  - change (Z.of_nat 0) with 0 in *. rewrite shift_0 in *.
    rewrite (is_bomb_get_token t cur tok Htok) in Hb.
    rewrite (bomb_is_not_wall tok Hb), Hb in H. cbn [andb negb] in H.
    destruct (Dict.mem ch cur) eqn:Em; cbn [andb negb] in H.
    + rewrite (add_flame_valid t ch cur _ Hv (marked_directions_cardinal d (S n) Hd)) in H.
      rewrite (get_new_position_from_shift cur d Hd) in H. cbn [bind] in H.
      apply DictFacts.mem_keys in Em.
      assert (Hin : In cur (Dict.keys (Dict.set ch cur
                      (glyph (Z.lor (mask_at ch cur)
                                (dirs_mask (marked_directions d (S n)))))))).
      { apply DictFacts.keys_set; left; reflexivity. }
      destruct (is_valid_position t (shift cur d 1)).
      * eapply steps_keys_mono; [| exact Hin].
        eapply _propagate_sound; eassumption.
      * injection H as <-. exact Hin.
    + apply (Hrec ch cur ch'); auto.
      rewrite (is_bomb_get_token t cur tok Htok); exact Hb.
  - destruct (Hopen 0%nat) as [Hw0 Hb0]; [lia |].
    change (Z.of_nat 0) with 0 in *. rewrite shift_0 in *.
    rewrite (is_wall_get_token t cur tok Htok) in Hw0.
    rewrite (is_bomb_get_token t cur tok Htok) in Hb0.
    rewrite Hw0, Hb0 in H. cbn [andb negb] in H.
    rewrite (add_flame_valid t ch cur _ Hv (marked_directions_cardinal d (S n) Hd)) in H.
    rewrite (get_new_position_from_shift cur d Hd) in H. cbn [bind] in H.
    assert (Hv1 : is_valid_position t (shift cur d 1) = true).
    { apply (shift_between_valid t cur d 1 (Z.of_nat (S j))); auto; [| lia].
      apply is_bomb_valid; exact Hb. }
    rewrite Hv1 in H.
    replace (shift cur d (Z.of_nat (S j))) with (shift (shift cur d 1) d (Z.of_nat j))
      by (rewrite shift_shift; f_equal; lia).
    refine (IH n _ (shift cur d 1) ch' _ Hv1 _ _ H); [lia | |].
    + intros i Hi. rewrite shift_shift.
      replace (1 + Z.of_nat i) with (Z.of_nat (S i)) by lia. apply Hopen; lia.
    + rewrite shift_shift. replace (1 + Z.of_nat j) with (Z.of_nat (S j)) by lia. exact Hb.
Qed.

(** The body of [detonate] on a bomb, opened up. *)
Lemma detonate_on_bomb (fuel : nat) (pos : Position) (ch : Dict.t) :
  is_bomb t pos = true ->
  detonate fuel pos t = Ok ch ->
  exists f,
    fuel = S f /\
    spread t (_detonate t f)
      (Dict.set Dict.empty pos (glyph (Z.lor (mask_at Dict.empty pos) 15)))
      pos [UP; DOWN; LEFT; RIGHT] = Ok ch.
Proof.
  intros Hb H. unfold detonate in H.
  unfold is_bomb in Hb. destruct (get_token t pos) as [tok | |] eqn:Htok; try discriminate.
  cbn [bind] in H. rewrite Hb in H.
  destruct fuel as [| f]; [discriminate |]. exists f. split; [reflexivity |].
  cbn [_detonate] in H. unfold _detonate_body in H.
  rewrite (add_flame_valid t _ pos _ (get_token_Ok_valid t pos tok Htok)
             four_directions_cardinal) in H.
  exact H.
Qed.

End Reach.

Lemma Direction_eq_dec (a b : Direction) : {a = b} + {a <> b}.
Proof. decide equality. Qed.

(** With a wall [k] steps away in direction [d] behind open cells, no write
    of the blast lies beyond the wall in that direction. *)
Lemma blast_not_beyond_wall (t : Terrain) (c : Position) (d : Direction) (k : nat) (j : Z) :
  cardinal d -> (1 <= k)%nat ->
  arm t c d = arm_until_wall c d k ->
  Z.of_nat k < j ->
  ~ In (shift c d j) (map fst (blast t c)).
Proof.
  intros Hd Hk Harm Hj.
  assert (G : forall d0, cardinal d0 -> ~ In (shift c d j) (map fst (arm t c d0))).
  { intros d0 Hd0 Hin. destruct (Direction_eq_dec d0 d) as [-> | Hne].
    - rewrite Harm in Hin.
      destruct (arm_until_wall_positions c d k _ Hk Hin) as (i & Hi & E).
      destruct (shift_inj c d d j i Hd Hd) as [_ Hij]; auto; lia.
    - destruct (arm_positions t c d0 _ Hin) as (i & Hi & E).
      assert (Hdd : d = d0) by (apply (shift_inj c d d0 j i); auto; lia).
      congruence. }
  unfold blast. simpl. rewrite !map_app, !in_app_iff.
  intros [H | [H | [H | [H | H]]]].
  - apply (shift_neq c d j Hd); [lia | auto].
  - apply (G UP); [unfold cardinal; discriminate | exact H].
  - apply (G DOWN); [unfold cardinal; discriminate | exact H].
  - apply (G LEFT); [unfold cardinal; discriminate | exact H].
  - apply (G RIGHT); [unfold cardinal; discriminate | exact H].
Qed.

(** A bomb that is the only one of its terrain performs the writes of
    [blast]. *)
Lemma single_bomb_writes (fuel : nat) (pos : Position) (t : Terrain) :
  Terrain_wf t ->
  is_bomb t pos = true ->
  (forall q, is_bomb t q = true -> q = pos) ->
  (1 <= fuel)%nat ->
  detonate fuel pos t = Ok (apply_writes Dict.empty (blast t pos)).
Proof.
  intros Hwf Hb Honly Hf. unfold detonate.
  pose proof (is_bomb_valid t pos Hb) as Hv.
  unfold is_bomb in Hb. destruct (get_token t pos) as [tok | |]; try discriminate.
  cbn [bind]. rewrite Hb. destruct fuel as [| f]; [lia |]. cbn [_detonate].
  apply (_detonate_body_blast t Hwf); [exact Hv |].
  intros q _ Hbq. left. apply Honly; exact Hbq.
Qed.

(** The bomb that is detonated is recorded with the full cross. *)
Lemma detonate_start_recorded (fuel : nat) (pos : Position) (t : Terrain) (ch : Dict.t) :
  is_bomb t pos = true -> detonate fuel pos t = Ok ch ->
  Dict.get ch pos = Some (glyph 15).
Proof.
  intros Hb H.
  apply (detonate_bombs_crossed fuel pos t ch H pos Hb).
  apply DictFacts.mem_keys.
  unfold detonate in H. unfold is_bomb in Hb.
  destruct (get_token t pos) as [tok | |] eqn:Htok; try discriminate.
  cbn [bind] in H. rewrite Hb in H.
  apply (_detonate_sound t fuel Dict.empty pos ch); [| exact H].
  unfold is_bomb; rewrite Htok; exact Hb.
Qed.

(** A token of [Token.FLAMES] has a sprite. *)
Lemma sheet_coord_flames (tok : Token) :
  in_FLAMES tok = true -> exists c, sheet_coord tok = Ok c.
Proof.
  unfold in_FLAMES, FLAMES, existsb. intros H.
  repeat (apply orb_true_iff in H; destruct H as [H | H];
          [apply Token_eqb_eq in H; subst; eexists; reflexivity |]).
  discriminate.
Qed.

(** The index of the [n]-th position in row-major order is [n]. *)
Lemma loc_to_index_of_index (t : Terrain) (i : Z) :
  0 <= i < _width t * _height t -> 0 < _width t ->
  _loc_to_index t (mkPosition (i mod _width t) (i / _width t)) = Ok i.
Proof.
  intros Hi Hw. unfold _loc_to_index.
  assert (Hv : is_valid_position t (mkPosition (i mod _width t) (i / _width t)) = true).
  { apply is_valid_position_iff. simpl.
    pose proof (Z.mod_pos_bound i (_width t) Hw).
    split; [lia |]. split; [apply Z.div_pos; lia |].
    apply Z.div_lt_upper_bound; lia. }
  rewrite Hv. simpl. f_equal.
  pose proof (Z.div_mod i (_width t)). lia.
Qed.

(* ================================================================= *)
(** ** One bomb whose arms meet no wall and no bomb *)

Lemma flame_not_wall_not_bomb (tok : Token) :
  in_FLAMES tok = true -> Token_eqb tok WALL = false /\ Token_eqb tok BOMB = false.
Proof.
  intros H. destruct (flame_is_open tok H) as [Hw Hb].
  split; [rewrite <- Hw | rewrite <- Hb]; reflexivity.
Qed.

(** The thirteen entries of an unobstructed blast, in the order of the
    writes. *)
Lemma open_cross_blast (fuel : nat) (pos : Position) (t : Terrain) :
  Terrain_wf t ->
  3 <= _x pos < _width t - 3 ->
  3 <= _y pos < _height t - 3 ->
  is_bomb t pos = true ->
  (forall q, q <> pos -> is_wall t q = false /\ is_bomb t q = false) ->
  (1 <= fuel)%nat ->
  detonate fuel pos t =
    Ok ((pos, glyph (dirs_mask [UP; DOWN; LEFT; RIGHT]))
        :: flame_arm pos UP ++ flame_arm pos DOWN
        ++ flame_arm pos LEFT ++ flame_arm pos RIGHT).
Proof.
  intros Hwf Hx Hy Hb Hopen Hfuel.
  assert (Hv : forall d j, 0 <= j <= 3 -> is_valid_position t (shift pos d j) = true).
  { intros d j Hj. apply shift_valid; lia. }
  assert (Harm : forall d, cardinal d ->
                   arm t pos d = [ (shift pos d 1, Flame (line_mask d));
                                   (shift pos d 2, Flame (line_mask d));
                                   (shift pos d 3, Flame (tip_mask d)) ]).
  { intros d Hd. apply arm_open; try (apply Hv; lia);
      apply Hopen; apply shift_neq; auto; lia. }
  assert (Hblast : blast t pos =
                   (pos, Flame (dirs_mask [UP; DOWN; LEFT; RIGHT]))
                   :: [ (shift pos UP 1, Flame (line_mask UP));
                        (shift pos UP 2, Flame (line_mask UP));
                        (shift pos UP 3, Flame (tip_mask UP)) ]
                   ++ [ (shift pos DOWN 1, Flame (line_mask DOWN));
                        (shift pos DOWN 2, Flame (line_mask DOWN));
                        (shift pos DOWN 3, Flame (tip_mask DOWN)) ]
                   ++ [ (shift pos LEFT 1, Flame (line_mask LEFT));
                        (shift pos LEFT 2, Flame (line_mask LEFT));
                        (shift pos LEFT 3, Flame (tip_mask LEFT)) ]
                   ++ [ (shift pos RIGHT 1, Flame (line_mask RIGHT));
                        (shift pos RIGHT 2, Flame (line_mask RIGHT));
                        (shift pos RIGHT 3, Flame (tip_mask RIGHT)) ]).
  { unfold blast. rewrite !Harm by (unfold cardinal; discriminate). reflexivity. }
  unfold detonate.
  destruct (get_token t pos) as [tok | |] eqn:Htok;
    try (unfold is_bomb in Hb; rewrite Htok in Hb; discriminate).
  cbn [bind]. unfold is_bomb in Hb. rewrite Htok in Hb. rewrite Hb.
  destruct fuel as [| fuel]; [lia |]. cbn [_detonate].
  rewrite (_detonate_body_blast t Hwf).
  - rewrite apply_writes_fresh.
    + rewrite Hblast. reflexivity.
    + rewrite Hblast. exact (cross_NoDup pos).
    + reflexivity.
  - apply is_valid_position_iff; lia.
  - intros q Hq Hbq. left.
    destruct (Position_eq_dec q pos) as [E | E]; [exact E | exfalso].
    destruct (Hopen q E) as [_ Hnb]. congruence.
Qed.

(* ================================================================= *)
(** ** Change-sets as unions of masks *)

Lemma omerge_assoc (a b c : option Z) : omerge a (omerge b c) = omerge (omerge a b) c.
Proof. destruct a, b, c; simpl; try reflexivity. rewrite Z.lor_assoc; reflexivity. Qed.

Lemma omerge_comm (a b : option Z) : omerge a b = omerge b a.
Proof. destruct a, b; simpl; try reflexivity. rewrite Z.lor_comm; reflexivity. Qed.

Lemma omerge_diag (a : option Z) : omerge a a = a.
Proof. destruct a; simpl; [rewrite Z.lor_diag |]; reflexivity. Qed.

Lemma omerge_None_r (a : option Z) : omerge a None = a.
Proof. destruct a; reflexivity. Qed.

Lemma contrib_app (ws ws' : list (Position * write)) (p : Position) :
  contrib (ws ++ ws') p = omerge (contrib ws p) (contrib ws' p).
Proof.
  induction ws as [| [q w] ws IH]; cbn [contrib app]; [reflexivity |].
  destruct (Position_eqb p q); [| exact IH].
  rewrite IH. apply omerge_assoc.
Qed.

Lemma contrib_None (ws : list (Position * write)) (p : Position) :
  contrib ws p = None <-> ~ In p (map fst ws).
Proof.
  induction ws as [| [q w] ws IH]; simpl; [tauto |].
  destruct (Position_eqb p q) eqn:E.
  - apply Position_eqb_eq in E; subst q. split.
    + destruct (contrib ws p); discriminate.
    + intros H; exfalso; apply H; left; reflexivity.
  - apply Position_eqb_neq in E. rewrite IH. split; [intros H [? | ?] | intros H ?]; auto.
Qed.

Lemma tidy_empty (t : Terrain) : tidy t Dict.empty.
Proof. intros k tok H; discriminate. Qed.

Lemma contrib_wall (t : Terrain) (ws : list (Position * write)) (p : Position) :
  Forall (write_fits t) ws -> is_wall t p = true ->
  contrib ws p = None \/ contrib ws p = Some 0.
Proof.
  induction 1 as [| [q w] ws Hw _ IH]; intros Hp; simpl; [left; reflexivity |].
  destruct (Position_eqb p q) eqn:E; [| apply IH; exact Hp].
  apply Position_eqb_eq in E; subst q. right.
  unfold write_fits in Hw; simpl in Hw. destruct w as [| m].
  - destruct (IH Hp) as [-> | ->]; reflexivity.
  - destruct Hw as [Hw _]. congruence.
Qed.

Lemma view_apply_write (t : Terrain) (ch : Dict.t) (w : Position * write) (p : Position) :
  tidy t ch -> write_fits t w ->
  tidy t (apply_write ch w)
  /\ view (apply_write ch w) p =
     if Position_eqb p (fst w) then omerge (view ch p) (Some (write_mask (snd w)))
     else view ch p.
Proof.
  intros Ht Hw. destruct w as [q [| m]]; unfold write_fits in Hw; simpl in Hw.
  - split.
    + intros k tok. unfold apply_write; simpl. rewrite DictFacts.get_set.
      destruct (Position_eqb k q); [| apply Ht].
      intros [= <-]. split; reflexivity.
    + unfold view, apply_write; simpl. rewrite DictFacts.get_set.
      destruct (Position_eqb p q) eqn:E; [| reflexivity].
      apply Position_eqb_eq in E; subst q.
      destruct (Dict.get ch p) as [tok |] eqn:Hg; simpl; [| reflexivity].
      destruct (Ht p tok Hg) as [_ H0]. rewrite (H0 Hw). reflexivity.
  - destruct Hw as [Hw Hm].
    assert (Hr : in_mask_range (Z.lor (mask_at ch q) m))
      by (apply lor_mask_range; [apply mask_at_range | exact Hm]).
    split.
    + intros k tok. unfold apply_write; simpl. rewrite DictFacts.get_set.
      destruct (Position_eqb k q) eqn:E; [| apply Ht].
      apply Position_eqb_eq in E; subst k. intros [= <-].
      rewrite mask_of_token_glyph by exact Hr. split; [reflexivity | congruence].
    + unfold view, apply_write; simpl. rewrite DictFacts.get_set.
      destruct (Position_eqb p q) eqn:E; [| reflexivity].
      apply Position_eqb_eq in E; subst q.
      rewrite mask_of_token_glyph by exact Hr. unfold mask_at.
      destruct (Dict.get ch p); reflexivity.
Qed.

(** The view of a change-set after a list of writes is the union of its
    view before and of the masks written. *)
Lemma view_apply_writes (t : Terrain) (ws : list (Position * write)) :
  Forall (write_fits t) ws ->
  forall ch p, tidy t ch ->
    tidy t (apply_writes ch ws)
    /\ view (apply_writes ch ws) p = omerge (view ch p) (contrib ws p).
Proof.
  induction 1 as [| w ws Hw Hws IH]; intros ch p Ht.
  - split; [exact Ht | cbn [contrib]; rewrite omerge_None_r; reflexivity].
  - destruct (view_apply_write t ch w p Ht Hw) as [Ht1 Hv1].
    destruct (IH (apply_write ch w) p Ht1) as [Ht2 Hv2].
    unfold apply_writes in *; cbn [fold_left]. split; [exact Ht2 |].
    rewrite Hv2, Hv1. destruct w as [q w]; cbn [contrib fst snd].
    destruct (Position_eqb p q); [| reflexivity].
    rewrite omerge_assoc. reflexivity.
Qed.

(* ================================================================= *)
(** ** The writes of rays, as unions *)

Lemma ray_fits (t : Terrain) (d : Direction) :
  forall n cur, Forall (write_fits t) (ray t cur d n).
Proof.
  induction n as [| n IH]; intros cur; cbn [ray]; [constructor |].
  destruct (is_wall t cur) eqn:Ew.
  - constructor; [exact Ew | constructor].
  - constructor.
    + split; [exact Ew | apply dirs_mask_range].
    + destruct (is_valid_position t (shift cur d 1)); [apply IH | constructor].
Qed.

Lemma arm_fits (t : Terrain) (c : Position) (d : Direction) :
  Forall (write_fits t) (arm t c d).
Proof.
  unfold arm. destruct (is_valid_position t (shift c d 1)); [apply ray_fits | constructor].
Qed.

Lemma blast_fits (t : Terrain) (c : Position) :
  is_wall t c = false -> Forall (write_fits t) (blast t c).
Proof.
  intros Hc. unfold blast. constructor.
  - split; [exact Hc | apply dirs_mask_range].
  - repeat (apply Forall_app; split); apply arm_fits.
Qed.

(** [ray] looks at the terrain only for walls and bounds. *)
Lemma ray_same_walls (t t' : Terrain) (d : Direction) :
  (forall q, is_wall t q = is_wall t' q) ->
  (forall q, is_valid_position t q = is_valid_position t' q) ->
  forall n cur, ray t cur d n = ray t' cur d n.
Proof.
  intros Hw Hv. induction n as [| n IH]; intros cur; cbn [ray]; [reflexivity |].
  rewrite <- Hw, <- Hv, IH. reflexivity.
Qed.

Lemma blast_same_walls (t t' : Terrain) (c : Position) :
  (forall q, is_wall t q = is_wall t' q) ->
  (forall q, is_valid_position t q = is_valid_position t' q) ->
  blast t c = blast t' c.
Proof.
  intros Hw Hv. unfold blast, arm.
  rewrite <- !Hv, !(ray_same_walls t t' _ Hw Hv). reflexivity.
Qed.

Lemma omerge_swap (x y u v : option Z) :
  omerge (omerge x y) (omerge u v) = omerge (omerge x u) (omerge y v).
Proof.
  rewrite <- !omerge_assoc. f_equal.
  rewrite !omerge_assoc. f_equal. apply omerge_comm.
Qed.

Lemma marked_mask_le (d : Direction) (m' m : nat) :
  (m' <= m)%nat ->
  Z.lor (dirs_mask (marked_directions d (S m'))) (dirs_mask (marked_directions d (S m)))
  = dirs_mask (marked_directions d (S m)).
Proof.
  intros H. destruct d, m' as [| m'], m as [| m]; try lia; reflexivity.
Qed.

(** A ray with fewer steps writes nothing that the ray with more steps
    from the same cell does not write. *)
Lemma ray_shorter (t : Terrain) (d : Direction) (p : Position) :
  forall n' n cur, (n' <= n)%nat ->
    omerge (contrib (ray t cur d n') p) (contrib (ray t cur d n) p)
    = contrib (ray t cur d n) p.
Proof.
  induction n' as [| n' IH]; intros n cur Hle; [reflexivity |].
  destruct n as [| n]; [lia |]. cbn [ray].
  destruct (is_wall t cur); [apply omerge_diag |].
  cbn [contrib].
  assert (Hrest : omerge
            (contrib (if is_valid_position t (shift cur d 1)
                      then ray t (shift cur d 1) d n' else []) p)
            (contrib (if is_valid_position t (shift cur d 1)
                      then ray t (shift cur d 1) d n else []) p)
          = contrib (if is_valid_position t (shift cur d 1)
                     then ray t (shift cur d 1) d n else []) p).
  { destruct (is_valid_position t (shift cur d 1)); [apply IH; lia | reflexivity]. }
  destruct (Position_eqb p cur); [| exact Hrest].
  rewrite omerge_swap, Hrest. cbn [omerge write_mask].
  rewrite marked_mask_le by lia. reflexivity.
Qed.

(* ================================================================= *)
(** ** A propagation over open cells, step by step *)

Section OpenRun.

Variable t : Terrain.
Hypothesis t_wf : Terrain_wf t.
Variable d : Direction.
Hypothesis d_cardinal : cardinal d.

Lemma _propagate_open_step (rec : Dict.t -> Position -> outcome Dict.t)
  (ch : Dict.t) (cur : Position) (n : nat) :
  is_valid_position t cur = true ->
  is_wall t cur = false -> is_bomb t cur = false ->
  is_valid_position t (shift cur d 1) = true ->
  _propagate t rec ch cur d (S n) =
  _propagate t rec
    (apply_write ch (cur, Flame (dirs_mask (marked_directions d (S n)))))
    (shift cur d 1) d n.
Proof.
  intros Hv Hw Hb Hn. cbn [_propagate].
  destruct (get_token_valid t cur t_wf Hv) as (tok & Htok).
  rewrite Htok; cbn [bind].
  rewrite (is_wall_get_token t cur tok Htok) in Hw.
  rewrite (is_bomb_get_token t cur tok Htok) in Hb.
  rewrite Hw, Hb. cbn [andb].
  rewrite (add_flame_valid t ch cur _ Hv (marked_directions_cardinal d (S n) d_cardinal)).
  rewrite (get_new_position_from_shift cur d d_cardinal). cbn [bind].
  rewrite Hn. reflexivity.
Qed.

Lemma _propagate_bomb_step (rec : Dict.t -> Position -> outcome Dict.t)
  (ch : Dict.t) (cur : Position) (n : nat) :
  is_bomb t cur = true -> Dict.mem ch cur = false ->
  _propagate t rec ch cur d (S n) = rec ch cur.
Proof.
  intros Hb Hm. cbn [_propagate].
  unfold is_bomb in Hb. destruct (get_token t cur) as [tok | |]; try discriminate.
  cbn [bind]. rewrite (bomb_is_not_wall tok Hb), Hb, Hm. reflexivity.
Qed.

Lemma _propagate_open_run (rec : Dict.t -> Position -> outcome Dict.t) :
  forall j n ch cur,
    (j <= n)%nat ->
    (forall i, (i < j)%nat ->
       is_valid_position t (shift cur d (Z.of_nat i)) = true /\
       is_wall t (shift cur d (Z.of_nat i)) = false /\
       is_bomb t (shift cur d (Z.of_nat i)) = false /\
       is_valid_position t (shift cur d (Z.of_nat (S i))) = true) ->
    _propagate t rec ch cur d n =
    _propagate t rec (apply_writes ch (open_run cur d n j))
      (shift cur d (Z.of_nat j)) d (n - j).
Proof.
  induction j as [| j IH]; intros n ch cur Hle Hopen.
  - cbn [open_run]. change (Z.of_nat 0) with 0. rewrite shift_0, Nat.sub_0_r. reflexivity.
  - destruct n as [| n]; [lia |].
    destruct (Hopen 0%nat) as (Hv0 & Hw0 & Hb0 & Hn0); [lia |].
    change (Z.of_nat 0) with 0 in *. change (Z.of_nat 1) with 1 in Hn0.
    rewrite shift_0 in *.
    rewrite (_propagate_open_step rec ch cur n Hv0 Hw0 Hb0 Hn0).
    rewrite (IH n _ (shift cur d 1)); [| lia |].
    + cbn [open_run Nat.pred Nat.sub]. rewrite shift_shift.
      replace (1 + Z.of_nat j) with (Z.of_nat (S j)) by lia. reflexivity.
    + intros i Hi. rewrite !shift_shift.
      replace (1 + Z.of_nat i) with (Z.of_nat (S i)) by lia.
      replace (1 + Z.of_nat (S i)) with (Z.of_nat (S (S i))) by lia.
      apply Hopen; lia.
Qed.

Lemma ray_open_run :
  forall j n cur,
    (j <= n)%nat ->
    (forall i, (i < j)%nat ->
       is_wall t (shift cur d (Z.of_nat i)) = false /\
       is_valid_position t (shift cur d (Z.of_nat (S i))) = true) ->
    ray t cur d n = open_run cur d n j ++ ray t (shift cur d (Z.of_nat j)) d (n - j).
Proof.
  induction j as [| j IH]; intros n cur Hle Hopen.
  - cbn [open_run app]. change (Z.of_nat 0) with 0. rewrite shift_0, Nat.sub_0_r. reflexivity.
  - destruct n as [| n]; [lia |].
    destruct (Hopen 0%nat) as (Hw0 & Hn0); [lia |].
    change (Z.of_nat 0) with 0 in *. change (Z.of_nat 1) with 1 in Hn0.
    rewrite shift_0 in *.
    cbn [ray open_run Nat.pred Nat.sub app]. rewrite Hw0, Hn0.
    rewrite (IH n (shift cur d 1)); [| lia |].
    + rewrite shift_shift. replace (1 + Z.of_nat j) with (Z.of_nat (S j)) by lia. reflexivity.
    + intros i Hi. rewrite !shift_shift.
      replace (1 + Z.of_nat i) with (Z.of_nat (S i)) by lia.
      replace (1 + Z.of_nat (S i)) with (Z.of_nat (S (S i))) by lia.
      apply Hopen; lia.
Qed.

Lemma open_run_positions (q : Position) :
  forall j n cur, In q (map fst (open_run cur d n j)) ->
                  exists i, 0 <= i < Z.of_nat j /\ q = shift cur d i.
Proof.
  induction j as [| j IH]; intros n cur H; [destruct H |].
  cbn [open_run map fst] in H. destruct H as [<- | H].
  - exists 0. rewrite shift_0. split; [lia | reflexivity].
  - destruct (IH _ _ H) as (i & Hi & ->). exists (1 + i).
    rewrite shift_shift. split; [lia | reflexivity].
Qed.

End OpenRun.

(* ================================================================= *)
(** ** Two bombs, one within reach of the other *)

Lemma Direction_eqb_eq (a b : Direction) : Direction_eqb a b = true <-> a = b.
Proof. destruct a, b; simpl; split; congruence. Qed.

Section TwoBombs.

Variable t : Terrain.
Hypothesis t_wf : Terrain_wf t.
Variables A : Position.
Variable d : Direction.
Variable k : nat.
Hypothesis d_cardinal : cardinal d.
Hypothesis k_range : (1 <= k <= 3)%nat.
Hypothesis A_bomb : is_bomb t A = true.
Hypothesis B_bomb : is_bomb t (shift A d (Z.of_nat k)) = true.
Hypothesis only_two : forall q, is_bomb t q = true -> q = A \/ q = shift A d (Z.of_nat k).
Hypothesis between_open :
  forall j, (1 <= j < k)%nat -> is_wall t (shift A d (Z.of_nat j)) = false.

Lemma on_line_valid (j : Z) :
  0 <= j <= Z.of_nat k -> is_valid_position t (shift A d j) = true.
Proof.
  intros Hj. apply (shift_between_valid t A d j (Z.of_nat k)); auto.
  - apply is_bomb_valid; exact A_bomb.
  - apply is_bomb_valid; exact B_bomb.
Qed.

Lemma between_no_bomb (j : nat) :
  (1 <= j < k)%nat -> is_bomb t (shift A d (Z.of_nat j)) = false.
Proof.
  intros Hj. destruct (is_bomb t (shift A d (Z.of_nat j))) eqn:E; [| reflexivity].
  exfalso. destruct (only_two _ E) as [H | H].
  - apply (shift_neq A d (Z.of_nat j) d_cardinal); [lia | exact H].
  - destruct (shift_inj A d d (Z.of_nat j) (Z.of_nat k) d_cardinal d_cardinal) as [_ Hjk];
      auto; lia.
Qed.

Lemma A_not_B : shift A d (Z.of_nat k) <> A.
Proof. apply shift_neq; [exact d_cardinal | lia]. Qed.

Lemma arm_no_bomb (d0 : Direction) (q : Position) :
  cardinal d0 -> d0 <> d -> In q (map fst (arm t A d0)) -> is_bomb t q = false.
Proof.
  intros Hd0 Hne Hin. destruct (arm_positions t A d0 q Hin) as (i & Hi & ->).
  destruct (is_bomb t (shift A d0 i)) eqn:E; [| reflexivity].
  exfalso. destruct (only_two _ E) as [H | H].
  - apply (shift_neq A d0 i Hd0); [lia | exact H].
  - destruct (shift_inj A d0 d i (Z.of_nat k) Hd0 d_cardinal) as [Hdd _]; auto; lia.
Qed.

Lemma B_not_on_arm (d0 : Direction) :
  cardinal d0 -> d0 <> d -> ~ In (shift A d (Z.of_nat k)) (map fst (arm t A d0)).
Proof.
  intros Hd0 Hne Hin. pose proof (arm_no_bomb d0 _ Hd0 Hne Hin) as H.
  rewrite B_bomb in H. discriminate.
Qed.

Lemma open_run_not_B :
  ~ In (shift A d (Z.of_nat k))
       (map fst (open_run (shift A d 1) d BOMB_SIZE (k - 1))).
Proof.
  intros Hin. destruct (open_run_positions d _ _ _ _ Hin) as (i & Hi & E).
  rewrite shift_shift in E.
  destruct (shift_inj A d d (Z.of_nat k) (1 + i) d_cardinal d_cardinal) as [_ H]; auto; lia.
Qed.

Lemma open_run_not_A :
  ~ In A (map fst (open_run (shift A d 1) d BOMB_SIZE (k - 1))).
Proof.
  intros Hin. destruct (open_run_positions d _ _ _ _ Hin) as (i & Hi & E).
  rewrite shift_shift in E. symmetry in E.
  apply (shift_neq A d (1 + i) d_cardinal); [lia | exact E].
Qed.

(** The arm towards the second bomb, in the run. *)
Lemma arm_chain (f : nat) (ch : Dict.t) :
  Dict.mem ch A = true ->
  Dict.mem ch (shift A d (Z.of_nat k)) = false ->
  (if is_valid_position t (shift A d 1)
   then _propagate t (_detonate t (S f)) ch (shift A d 1) d BOMB_SIZE else Ok ch) =
  Ok (apply_writes ch (chain_arm t A d k d)).
Proof.
  intros HA HB. rewrite (on_line_valid 1) by lia.
  unfold chain_arm. replace (Direction_eqb d d) with true
    by (symmetry; apply Direction_eqb_eq; reflexivity).
  rewrite (_propagate_open_run t t_wf d d_cardinal _ (k - 1)).
  - rewrite shift_shift.
    replace (1 + Z.of_nat (k - 1)) with (Z.of_nat k) by lia.
    unfold BOMB_SIZE. replace (3 - (k - 1))%nat with (S (3 - k)) by lia.
    rewrite _propagate_bomb_step; [| exact B_bomb |].
    + cbn [_detonate]. rewrite (_detonate_body_blast t t_wf).
      * rewrite apply_writes_app. reflexivity.
      * apply is_bomb_valid; exact B_bomb.
      * intros q _ Hq. destruct (only_two q Hq) as [-> | ->]; [right | left; reflexivity].
        apply apply_writes_mem_mono; exact HA.
    + rewrite apply_writes_mem, HB, orb_false_r.
      apply not_true_is_false. intros H. apply existsb_exists in H.
      destruct H as ([q w] & Hin & E). apply Position_eqb_eq in E. simpl in E. subst q.
      apply open_run_not_B. apply in_map_iff. exists (shift A d (Z.of_nat k), w); auto.
  - unfold BOMB_SIZE; lia.
  - intros i Hi. rewrite !shift_shift.
    replace (1 + Z.of_nat i) with (Z.of_nat (S i)) by lia.
    replace (1 + Z.of_nat (S i)) with (Z.of_nat (S (S i))) by lia.
    split; [apply on_line_valid; lia |].
    split; [apply between_open; lia |].
    split; [apply between_no_bomb; lia | apply on_line_valid; lia].
Qed.

Lemma arm_other (rec : Dict.t -> Position -> outcome Dict.t) (d0 : Direction) (ch : Dict.t) :
  cardinal d0 -> d0 <> d ->
  (if is_valid_position t (shift A d0 1)
   then _propagate t rec ch (shift A d0 1) d0 BOMB_SIZE else Ok ch) =
  Ok (apply_writes ch (chain_arm t A d k d0)).
Proof.
  intros Hd0 Hne. unfold chain_arm.
  replace (Direction_eqb d0 d) with false.
  - apply (arm_spec t t_wf); [exact Hd0 |].
    intros q Hq Hb. rewrite (arm_no_bomb d0 q Hd0 Hne Hq) in Hb. discriminate.
  - symmetry. apply not_true_is_false. intros E. apply Direction_eqb_eq in E. auto.
Qed.

(** The loop of [_detonate] at [A] in the run. *)
Lemma spread_chain (f : nat) :
  forall ds ch,
    Forall cardinal ds -> NoDup ds ->
    Dict.mem ch A = true ->
    (In d ds -> Dict.mem ch (shift A d (Z.of_nat k)) = false) ->
    spread t (_detonate t (S f)) ch A ds =
    Ok (apply_writes ch (flat_map (chain_arm t A d k) ds)).
Proof.
  induction ds as [| d0 ds IH]; intros ch Hds Hnd HA HB; [reflexivity |].
  inversion Hds as [| ? ? Hd0 Hds']; subst.
  inversion Hnd as [| ? ? Hnin Hnd']; subst.
  cbn [spread flat_map].
  rewrite (get_new_position_from_shift A d0 Hd0). cbn [bind].
  rewrite apply_writes_app.
  destruct (Direction_eq_dec d0 d) as [-> | Hne].
  - rewrite (arm_chain f ch HA) by (apply HB; left; reflexivity).
    cbn [bind]. apply IH; auto.
    + apply apply_writes_mem_mono; exact HA.
    + intros Hin. contradiction.
  - rewrite (arm_other _ d0 ch Hd0 Hne). cbn [bind]. apply IH; auto.
    + apply apply_writes_mem_mono; exact HA.
    + intros Hin. rewrite apply_writes_mem.
      rewrite HB by (right; exact Hin). rewrite orb_false_r.
      apply not_true_is_false. intros H. apply existsb_exists in H.
      destruct H as ([q w] & Hq & E). apply Position_eqb_eq in E. simpl in E. subst q.
      unfold chain_arm in Hq.
      replace (Direction_eqb d0 d) with false in Hq
        by (symmetry; apply not_true_is_false; intros E; apply Direction_eqb_eq in E; auto).
      apply (B_not_on_arm d0 Hd0 Hne). apply in_map_iff.
      exists (shift A d (Z.of_nat k), w); auto.
Qed.

Lemma four_directions_NoDup : NoDup [UP; DOWN; LEFT; RIGHT].
Proof.
  repeat (constructor; [simpl; intros H; repeat (destruct H as [H | H]; try discriminate); exact H |]).
  constructor.
Qed.

(** The run: detonating [A] performs the writes of [chain_writes]. *)
Lemma detonate_chain (fuel : nat) :
  (2 <= fuel)%nat ->
  detonate fuel A t = Ok (apply_writes Dict.empty (chain_writes t A d k)).
Proof.
  intros Hf. unfold detonate.
  pose proof (is_bomb_valid t A A_bomb) as Hv.
  pose proof A_bomb as Hb. unfold is_bomb in Hb.
  destruct (get_token t A) as [tok | |]; try discriminate.
  cbn [bind]. rewrite Hb.
  destruct fuel as [| [| f]]; try lia.
  cbn [_detonate]. unfold _detonate_body at 1.
  rewrite (add_flame_valid t _ A _ Hv four_directions_cardinal). cbn [bind].
  change (_detonate_body t (_detonate t f)) with (_detonate t (S f)).
  rewrite (spread_chain f).
  - reflexivity.
  - exact four_directions_cardinal.
  - exact four_directions_NoDup.
  - rewrite DictFacts.mem_set, Position_eqb_refl. reflexivity.
  - intros _. rewrite DictFacts.mem_set. simpl.
    rewrite orb_false_r. apply Position_eqb_neq. exact A_not_B.
Qed.

End TwoBombs.

(* ================================================================= *)
(** ** What the blast of the chained bomb absorbs *)

Lemma omerge_rot (a b c : option Z) : omerge a (omerge b c) = omerge b (omerge a c).
Proof. rewrite !omerge_assoc, (omerge_comm a b). reflexivity. Qed.

Lemma within_refl (a : option Z) : within a a.
Proof. apply omerge_diag. Qed.

Lemma within_None (b : option Z) : within None b.
Proof. reflexivity. Qed.

Lemma within_trans (a b c : option Z) : within a b -> within b c -> within a c.
Proof.
  unfold within. intros Hab Hbc. rewrite <- Hbc, omerge_assoc, Hab. reflexivity.
Qed.

Lemma within_omerge (a a' b b' : option Z) :
  within a b -> within a' b' -> within (omerge a a') (omerge b b').
Proof.
  unfold within. intros H H'. rewrite omerge_swap, H, H'. reflexivity.
Qed.

Lemma within_l (a b : option Z) : within a (omerge a b).
Proof. unfold within. rewrite omerge_assoc, omerge_diag. reflexivity. Qed.

Lemma within_r (a b : option Z) : within b (omerge a b).
Proof. unfold within. rewrite omerge_rot, omerge_diag. reflexivity. Qed.

Lemma within_flat_map {X : Type} (f : X -> list (Position * write))
  (l : list X) (x : X) (p : Position) :
  In x l -> within (contrib (f x) p) (contrib (flat_map f l) p).
Proof.
  induction l as [| y l IH]; intros Hin; [destruct Hin |].
  cbn [flat_map]. rewrite contrib_app. destruct Hin as [-> | Hin].
  - apply within_l.
  - eapply within_trans; [apply IH; exact Hin | apply within_r].
Qed.

Lemma contrib_flat_map_ext {X : Type} (f g : X -> list (Position * write))
  (l : list X) (p : Position) (b : option Z) :
  (forall x, In x l -> omerge (contrib (f x) p) b = omerge (contrib (g x) p) b) ->
  omerge (contrib (flat_map f l) p) b = omerge (contrib (flat_map g l) p) b.
Proof.
  induction l as [| y l IH]; intros H; [reflexivity |].
  cbn [flat_map]. rewrite !contrib_app, <- !omerge_assoc.
  rewrite IH by (intros x Hx; apply H; right; exact Hx).
  rewrite omerge_rot, (H y (or_introl eq_refl)), omerge_rot. reflexivity.
Qed.

(** A ray from a bomb, of at most three steps, writes nothing that the
    blast of that bomb does not write. *)
Lemma ray_within_blast (t : Terrain) (B : Position) (d : Direction) (n : nat) (p : Position) :
  cardinal d -> is_wall t B = false -> (n <= 3)%nat ->
  within (contrib (ray t B d n) p) (contrib (blast t B) p).
Proof.
  intros Hd Hw Hn. destruct n as [| n]; [apply within_None |].
  cbn [ray]. rewrite Hw.
  rewrite blast_arms.
  change ((B, Flame (dirs_mask (marked_directions d (S n))))
          :: (if is_valid_position t (shift B d 1) then ray t (shift B d 1) d n else []))
    with ([(B, Flame (dirs_mask (marked_directions d (S n))))]
          ++ (if is_valid_position t (shift B d 1) then ray t (shift B d 1) d n else [])).
  change ((B, Flame (dirs_mask [UP; DOWN; LEFT; RIGHT]))
          :: flat_map (arm t B) [UP; DOWN; LEFT; RIGHT])
    with ([(B, Flame (dirs_mask [UP; DOWN; LEFT; RIGHT]))]
          ++ flat_map (arm t B) [UP; DOWN; LEFT; RIGHT]).
  rewrite !contrib_app. apply within_omerge.
  - cbn [contrib]. destruct (Position_eqb p B); [| apply within_None].
    unfold within. cbn [omerge write_mask]. f_equal.
    apply lor_15. apply dirs_mask_range.
  - eapply within_trans;
      [| apply (within_flat_map (arm t B) _ d p); apply in_direction_list; exact Hd].
    unfold arm. destruct (is_valid_position t (shift B d 1)); [| apply within_None].
    unfold within, BOMB_SIZE. apply ray_shorter. lia.
Qed.

(* ================================================================= *)
(** ** The chained detonation as the union of two blasts *)

Lemma open_run_fits (t : Terrain) (d : Direction) :
  forall j n cur,
    (forall i, (i < j)%nat -> is_wall t (shift cur d (Z.of_nat i)) = false) ->
    Forall (write_fits t) (open_run cur d n j).
Proof.
  induction j as [| j IH]; intros n cur H; cbn [open_run]; constructor.
  - split; [| apply dirs_mask_range]. simpl.
    specialize (H 0%nat). change (Z.of_nat 0) with 0 in H. rewrite shift_0 in H.
    apply H; lia.
  - apply IH. intros i Hi. rewrite shift_shift.
    replace (1 + Z.of_nat i) with (Z.of_nat (S i)) by lia. apply H; lia.
Qed.

Lemma tidy_get (t : Terrain) (ch : Dict.t) (p : Position) :
  tidy t ch ->
  Dict.get ch p = match view ch p with Some m => Some (glyph m) | None => None end.
Proof.
  intros Ht. unfold view. destruct (Dict.get ch p) as [tok |] eqn:E; [| reflexivity].
  destruct (Ht p tok E) as [Hg _]. rewrite <- Hg. reflexivity.
Qed.

(** Writes that fit the terrain, from the empty change-set. *)
Lemma get_apply_writes (t : Terrain) (ws : list (Position * write)) (p : Position) :
  Forall (write_fits t) ws ->
  tidy t (apply_writes Dict.empty ws)
  /\ view (apply_writes Dict.empty ws) p = contrib ws p.
Proof.
  intros Hws.
  destruct (view_apply_writes t ws Hws Dict.empty p (tidy_empty t)) as [Ht Hv].
  split; [exact Ht | exact Hv].
Qed.

(** Replacing one cell by [EMPTY] through [update]. *)
Lemma update_clear_cell (t : Terrain) (B : Position) :
  Terrain_wf t -> is_valid_position t B = true -> is_wall t B = false ->
  exists t',
    update t [(B, EMPTY)] = Ok t' /\ Terrain_wf t'
    /\ (forall q, is_valid_position t' q = is_valid_position t q)
    /\ (forall q, is_wall t' q = is_wall t q)
    /\ (forall q, is_bomb t' q = if Position_eqb q B then false else is_bomb t q).
Proof.
  intros Hwf Hv Hw.
  destruct (update_spec t [(B, EMPTY)] Hwf) as (t' & Hup & Hwf' & Hwd & Hh & Hget).
  - simpl. constructor; [simpl; tauto | constructor].
  - simpl. intros q [<- | []]. exact Hv.
  - exists t'. split; [exact Hup |]. split; [exact Hwf' |].
    assert (Hsame : forall q, is_valid_position t' q = is_valid_position t q).
    { intros q. unfold is_valid_position. rewrite Hwd, Hh. reflexivity. }
    assert (Hcell : forall q, get_token t' q =
                      if Position_eqb q B then
                        (if is_valid_position t q then Ok EMPTY else Raise TerrainError)
                      else get_token t q).
    { intros q. destruct (is_valid_position t q) eqn:Hq.
      - rewrite (Hget q Hq). simpl. destruct (Position_eqb q B); reflexivity.
      - rewrite (get_token_invalid t' q) by (rewrite Hsame; exact Hq).
        rewrite (get_token_invalid t q Hq). destruct (Position_eqb q B); reflexivity. }
    split; [exact Hsame |]. split.
    + intros q. unfold is_wall at 1. rewrite Hcell.
      destruct (Position_eqb q B) eqn:E; [| reflexivity].
      apply Position_eqb_eq in E; subst q. rewrite Hv, Hw. reflexivity.
    + intros q. unfold is_bomb at 1. rewrite Hcell.
      destruct (Position_eqb q B) eqn:E; [| reflexivity].
      destruct (is_valid_position t q); reflexivity.
Qed.

Section Union.

Variable t : Terrain.
Hypothesis t_wf : Terrain_wf t.
Variables A : Position.
Variable d : Direction.
Variable k : nat.
Hypothesis d_cardinal : cardinal d.
Hypothesis k_range : (1 <= k <= 3)%nat.
Hypothesis A_bomb : is_bomb t A = true.
Hypothesis B_bomb : is_bomb t (shift A d (Z.of_nat k)) = true.
Hypothesis between_open :
  forall j, (1 <= j < k)%nat -> is_wall t (shift A d (Z.of_nat j)) = false.

Lemma arm_towards_bomb :
  arm t A d =
  open_run (shift A d 1) d BOMB_SIZE (k - 1)
  ++ ray t (shift A d (Z.of_nat k)) d (BOMB_SIZE - (k - 1)).
Proof.
  assert (Hv : forall j, 0 <= j <= Z.of_nat k -> is_valid_position t (shift A d j) = true).
  { intros j Hj. apply (shift_between_valid t A d j (Z.of_nat k)); auto;
      apply is_bomb_valid; assumption. }
  unfold arm. rewrite (Hv 1) by lia.
  rewrite (ray_open_run t d (k - 1)).
  - rewrite shift_shift. replace (1 + Z.of_nat (k - 1)) with (Z.of_nat k) by lia.
    reflexivity.
  - unfold BOMB_SIZE; lia.
  - intros i Hi. rewrite !shift_shift.
    replace (1 + Z.of_nat i) with (Z.of_nat (S i)) by lia.
    replace (1 + Z.of_nat (S i)) with (Z.of_nat (S (S i))) by lia.
    split; [apply between_open; lia | apply Hv; lia].
Qed.

Lemma chain_arm_contrib (d0 : Direction) (p : Position) :
  omerge (contrib (chain_arm t A d k d0) p)
         (contrib (blast t (shift A d (Z.of_nat k))) p)
  = omerge (contrib (arm t A d0) p)
           (contrib (blast t (shift A d (Z.of_nat k))) p).
Proof.
  unfold chain_arm. destruct (Direction_eqb d0 d) eqn:E; [| reflexivity].
  apply Direction_eqb_eq in E; subst d0.
  rewrite arm_towards_bomb, !contrib_app, <- !omerge_assoc.
  rewrite omerge_diag. f_equal. symmetry.
  apply ray_within_blast; [exact d_cardinal | | unfold BOMB_SIZE; lia].
  apply is_bomb_not_wall; exact B_bomb.
Qed.

(** Cell by cell, the writes of the run are the union of the two blasts. *)
Lemma chain_writes_contrib (p : Position) :
  contrib (chain_writes t A d k) p =
  omerge (contrib (blast t A) p) (contrib (blast t (shift A d (Z.of_nat k))) p).
Proof.
  rewrite blast_arms. unfold chain_writes.
  change ((A, Flame (dirs_mask [UP; DOWN; LEFT; RIGHT]))
          :: flat_map (chain_arm t A d k) [UP; DOWN; LEFT; RIGHT])
    with ([(A, Flame (dirs_mask [UP; DOWN; LEFT; RIGHT]))]
          ++ flat_map (chain_arm t A d k) [UP; DOWN; LEFT; RIGHT]).
  change ((A, Flame (dirs_mask [UP; DOWN; LEFT; RIGHT]))
          :: flat_map (arm t A) [UP; DOWN; LEFT; RIGHT])
    with ([(A, Flame (dirs_mask [UP; DOWN; LEFT; RIGHT]))]
          ++ flat_map (arm t A) [UP; DOWN; LEFT; RIGHT]).
  rewrite !contrib_app, <- omerge_assoc. f_equal.
  rewrite <- (contrib_flat_map_ext (chain_arm t A d k) (arm t A))
    by (intros x _; apply chain_arm_contrib).
  symmetry. rewrite omerge_comm.
  eapply within_trans;
    [| apply (within_flat_map (chain_arm t A d k) _ d p);
       apply in_direction_list; exact d_cardinal].
  unfold chain_arm. replace (Direction_eqb d d) with true
    by (symmetry; apply Direction_eqb_eq; reflexivity).
  rewrite contrib_app. apply within_r.
Qed.

Lemma chain_writes_fit : Forall (write_fits t) (chain_writes t A d k).
Proof.
  unfold chain_writes. constructor.
  - split; [apply is_bomb_not_wall; exact A_bomb | apply dirs_mask_range].
  - apply Forall_flat_map. apply Forall_forall. intros d0 _.
    unfold chain_arm. destruct (Direction_eqb d0 d); [| apply arm_fits].
    apply Forall_app. split.
    + apply open_run_fits. intros i Hi. rewrite shift_shift.
      replace (1 + Z.of_nat i) with (Z.of_nat (S i)) by lia.
      apply between_open; lia.
    + apply blast_fits. apply is_bomb_not_wall; exact B_bomb.
Qed.

End Union.

(* ================================================================= *)
(** * The claims *)

(** ** C4: merging flame masks *)

(** C4.  Merging direction sets into a cell of the change-set with
    [add_flame]: merging [d1] twice is merging it once; merging [d1] and
    then [d2] is merging their union, in either order; and merging the
    narrower [d1] after the wider union of [d1] and [d2] changes nothing.
    This holds for every terrain, change-set, cell and direction lists, the
    cases where [add_flame] ignores the cell or raises included. *)
Theorem C4_add_flame_merge
  (t : Terrain) (ch : Dict.t) (p : Position) (d1 d2 : list Direction) :
  (ch' <- add_flame t ch p d1 ;; add_flame t ch' p d1) = add_flame t ch p d1
  /\ (ch' <- add_flame t ch p d1 ;; add_flame t ch' p d2) = add_flame t ch p (d1 ++ d2)
  /\ (ch' <- add_flame t ch p d1 ;; add_flame t ch' p d2) =
     (ch' <- add_flame t ch p d2 ;; add_flame t ch' p d1)
  /\ (ch' <- add_flame t ch p (d1 ++ d2) ;; add_flame t ch' p d1) =
     add_flame t ch p (d1 ++ d2)
  /\ add_flame t ch p (d1 ++ d2) =
     (if negb (is_valid_position t p) then Ok ch
      else if all_cardinal d1 && all_cardinal d2
           then Ok (Dict.set ch p
                      (glyph (Z.lor (mask_at ch p)
                                    (Z.lor (dirs_mask d1) (dirs_mask d2)))))
           else Raise KeyError).
Proof.
  repeat split.
  - rewrite add_flame_twice. apply add_flame_same_mask.
    + rewrite all_cardinal_app. destruct (all_cardinal d1); reflexivity.
    + rewrite dirs_mask_app. apply Z.lor_diag.
  - apply add_flame_twice.
  - rewrite !add_flame_twice. apply add_flame_same_mask.
    + rewrite !all_cardinal_app. apply andb_comm.
    + rewrite !dirs_mask_app. apply Z.lor_comm.
  - rewrite add_flame_twice. apply add_flame_same_mask.
    + rewrite !all_cardinal_app.
      destruct (all_cardinal d1), (all_cardinal d2); reflexivity.
    + rewrite !dirs_mask_app.
      rewrite (Z.lor_comm (dirs_mask d1) (dirs_mask d2)), <- Z.lor_assoc, Z.lor_diag.
      reflexivity.
  - rewrite add_flame_cases, all_cardinal_app, dirs_mask_app. reflexivity.
Qed.

(** ** C7: a cell without a bomb *)

(** C7.  On a well-formed terrain, [detonate] at a valid position whose
    cell is not the bomb returns the empty change-set (and raises nothing),
    whatever the fuel. *)
Theorem C7_detonate_without_bomb
  (fuel : nat) (pos : Position) (t : Terrain) :
  Terrain_wf t ->
  is_valid_position t pos = true ->
  is_bomb t pos = false ->
  detonate fuel pos t = Ok Dict.empty.
Proof.
  intros Hwf Hv Hb. unfold detonate.
  destruct (get_token_valid t pos Hwf Hv) as (tok & Htok).
  unfold is_bomb in Hb. rewrite Htok in *; cbn [bind]. rewrite Hb; reflexivity.
Qed.

Lemma C7_detonate_without_bomb_witness :
  detonate 0 (xy 1 1) (terrain_with 3 3 [(xy 0 0, BOMB); (xy 2 1, WALL)]) = Ok Dict.empty.
Proof.
  apply C7_detonate_without_bomb; reflexivity.
Defined.

(** ** C8: applying the change-set *)

(** C8.  On a well-formed terrain and at a valid position, [detonate]
    (with fuel for the bombs of the terrain) returns a change-set whose keys
    are valid and distinct; [update] applies it without raising; and reading
    the updated terrain at the keys, in the order of the change-set, gives
    the tokens of the change-set in that order. *)
Theorem C8_update_then_read_back
  (fuel : nat) (pos : Position) (t : Terrain) :
  Terrain_wf t ->
  is_valid_position t pos = true ->
  (List.length (bombs t) <= fuel)%nat ->
  exists ch t',
    detonate fuel pos t = Ok ch
    /\ NoDup (Dict.keys ch)
    /\ (forall k, In k (Dict.keys ch) -> is_valid_position t k = true)
    /\ update t ch = Ok t'
    /\ map (fun kv => get_token t' (fst kv)) ch = map (fun kv => Ok (snd kv)) ch
    /\ (forall p tok, Dict.get ch p = Some tok -> get_token t' p = Ok tok).
Proof.
  intros Hwf Hv Hf.
  destruct (detonate_returns fuel pos t Hwf Hv Hf) as (ch & Hch).
  destruct (detonate_keys fuel pos t ch Hch) as [Hnd Hval].
  destruct (update_spec t ch Hwf Hnd Hval) as (t' & Hup & _ & _ & _ & Hget).
  assert (Hread : forall p tok, Dict.get ch p = Some tok -> get_token t' p = Ok tok).
  { intros p tok Hp. rewrite Hget.
    - rewrite Hp; reflexivity.
    - apply Hval, DictFacts.mem_keys. unfold Dict.mem; rewrite Hp; reflexivity. }
  exists ch, t'. repeat split; auto.
  apply map_ext_in. intros [k v] Hin; simpl.
  apply Hread, get_of_In; assumption.
Qed.

Lemma C8_update_then_read_back_witness :
  exists ch t',
    detonate 2 (xy 1 1) (terrain_with 4 3 [(xy 1 1, BOMB); (xy 3 1, BOMB); (xy 1 0, WALL)])
      = Ok ch
    /\ NoDup (Dict.keys ch)
    /\ (forall k, In k (Dict.keys ch) ->
          is_valid_position
            (terrain_with 4 3 [(xy 1 1, BOMB); (xy 3 1, BOMB); (xy 1 0, WALL)]) k = true)
    /\ update (terrain_with 4 3 [(xy 1 1, BOMB); (xy 3 1, BOMB); (xy 1 0, WALL)]) ch = Ok t'
    /\ map (fun kv => get_token t' (fst kv)) ch = map (fun kv => Ok (snd kv)) ch
    /\ (forall p tok, Dict.get ch p = Some tok -> get_token t' p = Ok tok).
Proof.
  apply C8_update_then_read_back; [reflexivity | reflexivity | vm_compute; lia].
Defined.

(** ** C9: termination *)

(** C9.  [detonate] ends on every terrain and at every position once the
    fuel, which bounds how deeply detonations nest, reaches the number of
    bombs of the terrain: the result is then the same for any larger fuel.
    The number of bombs is at most the number of cells.  (Each propagation
    takes at most [BOMB_SIZE] steps by the structure of [_propagate].) *)
Theorem C9_detonate_terminates
  (fuel : nat) (pos : Position) (t : Terrain) :
  (List.length (bombs t) <= fuel)%nat ->
  detonate fuel pos t <> OutOfFuel
  /\ detonate fuel pos t = detonate (List.length (bombs t)) pos t
  /\ (List.length (bombs t) <= Z.to_nat (_width t) * Z.to_nat (_height t))%nat.
Proof.
  intros Hf. repeat split.
  - apply detonate_halts; exact Hf.
  - apply detonate_fuel_le; [exact Hf | apply detonate_halts; lia].
  - apply bombs_le_cells.
Qed.

Lemma C9_detonate_terminates_witness :
  detonate 3 (xy 0 0) (terrain_with 3 1 [(xy 0 0, BOMB); (xy 1 0, BOMB); (xy 2 0, BOMB)])
    <> OutOfFuel
  /\ detonate 3 (xy 0 0) (terrain_with 3 1 [(xy 0 0, BOMB); (xy 1 0, BOMB); (xy 2 0, BOMB)])
     = detonate
         (List.length
            (bombs (terrain_with 3 1 [(xy 0 0, BOMB); (xy 1 0, BOMB); (xy 2 0, BOMB)])))
         (xy 0 0) (terrain_with 3 1 [(xy 0 0, BOMB); (xy 1 0, BOMB); (xy 2 0, BOMB)])
  /\ (List.length
        (bombs (terrain_with 3 1 [(xy 0 0, BOMB); (xy 1 0, BOMB); (xy 2 0, BOMB)]))
      <= Z.to_nat 3 * Z.to_nat 1)%nat.
Proof.
  apply C9_detonate_terminates. vm_compute. lia.
Defined.

(** ** C10: a cell that already shows a flame *)

(** C10.  A cell of the terrain that holds one of the fifteen flame glyphs
    is an open cell for the engine, and its entry is computed from the
    change-set alone.
    - For a bomb at least three cells from every edge of a well-formed
      terrain whose other cells are empty or hold old flame glyphs,
      [detonate] returns the same thirteen entries as on empty ground: each
      cell of the arms, whatever glyph it held, gets the glyph of the new bits
      only; [update] then replaces the old glyphs by these.
    - In every terrain, [_propagate] on a cell that holds a flame glyph
      writes the glyph of the mask the change-set holds for the cell OR-ed
      with the new bits, and goes on; the terrain's glyph plays no part.
    - In every terrain, [detonate] returns what it returns on the terrain
      with every flame glyph replaced by [EMPTY]. *)
Theorem C10_old_flames_are_ignored
  (fuel : nat) (pos : Position) (t : Terrain) :
  Terrain_wf t ->
  3 <= _x pos < _width t - 3 ->
  3 <= _y pos < _height t - 3 ->
  is_bomb t pos = true ->
  (forall q tok, q <> pos -> get_token t q = Ok tok ->
                 tok = EMPTY \/ in_FLAMES tok = true) ->
  (1 <= fuel)%nat ->
  (exists t',
     detonate fuel pos t =
       Ok ((pos, glyph (dirs_mask [UP; DOWN; LEFT; RIGHT]))
           :: flame_arm pos UP ++ flame_arm pos DOWN
           ++ flame_arm pos LEFT ++ flame_arm pos RIGHT)
     /\ update t ((pos, glyph (dirs_mask [UP; DOWN; LEFT; RIGHT]))
                  :: flame_arm pos UP ++ flame_arm pos DOWN
                  ++ flame_arm pos LEFT ++ flame_arm pos RIGHT) = Ok t'
     /\ map (fun kv => get_token t' (fst kv))
            ((pos, glyph (dirs_mask [UP; DOWN; LEFT; RIGHT]))
             :: flame_arm pos UP ++ flame_arm pos DOWN
             ++ flame_arm pos LEFT ++ flame_arm pos RIGHT)
        = map (fun kv => Ok (snd kv))
            ((pos, glyph (dirs_mask [UP; DOWN; LEFT; RIGHT]))
             :: flame_arm pos UP ++ flame_arm pos DOWN
             ++ flame_arm pos LEFT ++ flame_arm pos RIGHT))
  /\ (forall t0 rec ch cur d n tok,
        get_token t0 cur = Ok tok -> in_FLAMES tok = true -> cardinal d ->
        _propagate t0 rec ch cur d (S n) =
        (let ch1 := Dict.set ch cur
                      (glyph (Z.lor (mask_at ch cur)
                                    (dirs_mask (marked_directions d (S n))))) in
         if is_valid_position t0 (shift cur d 1)
         then _propagate t0 rec ch1 (shift cur d 1) d n
         else Ok ch1))
  /\ (forall f p t0, detonate f p t0 = detonate f p (extinguish t0)).
Proof.
  intros Hwf Hx Hy Hb Hold Hfuel. split; [| split].
  - assert (Hopen : forall q, q <> pos -> is_wall t q = false /\ is_bomb t q = false).
    { intros q Hq. unfold is_wall, is_bomb.
      destruct (get_token t q) as [tok | |] eqn:Htok; auto.
      destruct (Hold q tok Hq Htok) as [-> | Hf]; [split; reflexivity |].
      apply flame_not_wall_not_bomb; exact Hf. }
    pose proof (open_cross_blast fuel pos t Hwf Hx Hy Hb Hopen Hfuel) as Hres.
    destruct (detonate_keys fuel pos t _ Hres) as [Hnd Hval].
    destruct (update_spec t _ Hwf Hnd Hval) as (t' & Hup & _ & _ & _ & Hget).
    exists t'. split; [exact Hres |]. split; [exact Hup |].
    apply map_ext_in. intros [k v] Hin. cbn [fst snd].
    rewrite Hget.
    + rewrite (get_of_In _ k v Hnd Hin). reflexivity.
    + apply Hval. apply in_map_iff. exists (k, v); auto.
  - intros t0 rec ch cur d n tok Htok Hf Hd.
    destruct (flame_not_wall_not_bomb tok Hf) as [Hw Hnb].
    cbn [_propagate]. rewrite Htok; cbn [bind]. rewrite Hw, Hnb. cbn [andb].
    rewrite (add_flame_valid t0 ch cur _ (get_token_Ok_valid t0 cur tok Htok)
               (marked_directions_cardinal d (S n) Hd)).
    rewrite (get_new_position_from_shift cur d Hd). reflexivity.
  - intros f p t0. symmetry. apply alike_detonate, extinguish_alike.
Qed.

Lemma C10_old_flames_are_ignored_witness :
  (exists t',
     detonate 1%nat (xy 3 3) scorched_7x7 =
       Ok (((xy 3 3), glyph (dirs_mask [UP; DOWN; LEFT; RIGHT]))
           :: flame_arm (xy 3 3) UP ++ flame_arm (xy 3 3) DOWN
           ++ flame_arm (xy 3 3) LEFT ++ flame_arm (xy 3 3) RIGHT)
     /\ update scorched_7x7 (((xy 3 3), glyph (dirs_mask [UP; DOWN; LEFT; RIGHT]))
                  :: flame_arm (xy 3 3) UP ++ flame_arm (xy 3 3) DOWN
                  ++ flame_arm (xy 3 3) LEFT ++ flame_arm (xy 3 3) RIGHT) = Ok t'
     /\ map (fun kv => get_token t' (fst kv))
            (((xy 3 3), glyph (dirs_mask [UP; DOWN; LEFT; RIGHT]))
             :: flame_arm (xy 3 3) UP ++ flame_arm (xy 3 3) DOWN
             ++ flame_arm (xy 3 3) LEFT ++ flame_arm (xy 3 3) RIGHT)
        = map (fun kv => Ok (snd kv))
            (((xy 3 3), glyph (dirs_mask [UP; DOWN; LEFT; RIGHT]))
             :: flame_arm (xy 3 3) UP ++ flame_arm (xy 3 3) DOWN
             ++ flame_arm (xy 3 3) LEFT ++ flame_arm (xy 3 3) RIGHT))
  /\ (forall t0 rec ch cur d n tok,
        get_token t0 cur = Ok tok -> in_FLAMES tok = true -> cardinal d ->
        _propagate t0 rec ch cur d (S n) =
        (let ch1 := Dict.set ch cur
                      (glyph (Z.lor (mask_at ch cur)
                                    (dirs_mask (marked_directions d (S n))))) in
         if is_valid_position t0 (shift cur d 1)
         then _propagate t0 rec ch1 (shift cur d 1) d n
         else Ok ch1))
  /\ (forall f p t0, detonate f p t0 = detonate f p (extinguish t0)).
Proof.
  apply C10_old_flames_are_ignored; try reflexivity; try (simpl; lia).
  intros [qx qy] tok Hne Htok.
  pose proof (get_token_Ok_valid _ _ _ Htok) as Hv.
  apply is_valid_position_iff in Hv. simpl in Hv.
  assert (Hc : In (qx, qy)
                 (list_prod [0; 1; 2; 3; 4; 5; 6] [0; 1; 2; 3; 4; 5; 6])).
  { apply in_prod; simpl; lia. }
  simpl in Hc.
  repeat (destruct Hc as [Hc | Hc];
          [injection Hc as <- <-;
           first [ exfalso; apply Hne; reflexivity
                 | injection Htok as <-; first [left; reflexivity | right; reflexivity] ] |]).
  destruct Hc.
Defined.

(** ** C5: positions outside the terrain *)

(** C5, as stated, fails: the entry read of [detonate] is not guarded.  At
    a position outside a well-formed 3 by 3 terrain, [get_token] raises
    [TerrainError] and [detonate] with it. *)
Lemma C5_counterexample :
  Terrain_wf (blank 3 3)
  /\ is_valid_position (blank 3 3) (xy 5 5) = false
  /\ detonate 1 (xy 5 5) (blank 3 3) = Raise TerrainError.
Proof. repeat split. Qed.

(** C5, amended.  On a well-formed terrain and from a valid starting
    position, [detonate] raises no exception, whatever the fuel, and returns
    a change-set once the fuel covers the bombs of the terrain: every read
    past the entry is preceded by a validity check, and an invalid next
    position only ends the propagation. *)
Theorem C5_detonate_valid_start_never_raises
  (fuel : nat) (pos : Position) (t : Terrain) :
  Terrain_wf t ->
  is_valid_position t pos = true ->
  (List.length (bombs t) <= fuel)%nat ->
  (forall f e, detonate f pos t <> Raise e)
  /\ exists ch, detonate fuel pos t = Ok ch.
Proof.
  intros Hwf Hv Hf. split.
  - intros f e. apply detonate_safe; assumption.
  - apply detonate_returns; assumption.
Qed.

Lemma C5_detonate_valid_start_never_raises_witness :
  (forall f e, detonate f (xy 0 0) (terrain_with 2 2 [(xy 0 0, BOMB)]) <> Raise e)
  /\ exists ch, detonate 1 (xy 0 0) (terrain_with 2 2 [(xy 0 0, BOMB)]) = Ok ch.
Proof.
  apply C5_detonate_valid_start_never_raises; [reflexivity | reflexivity | vm_compute; lia].
Defined.

(** ** C6: the last cell before the edge *)

(** C6, as stated, fails: the cell before the edge is marked.  In a 3 by 1
    terrain the propagation to the right stands on the cell (2, 0) with the
    next position (3, 0) outside; the cell (2, 0) gets an entry, and
    [detonate] from the bomb at (0, 0) returns it. *)
Lemma C6_counterexample :
  is_valid_position (terrain_with 3 1 [(xy 0 0, BOMB)]) (xy 3 0) = false
  /\ get_new_position_from (xy 2 0) RIGHT = Ok (xy 3 0)
  /\ _propagate (terrain_with 3 1 [(xy 0 0, BOMB)])
       (_detonate (terrain_with 3 1 [(xy 0 0, BOMB)]) 0)
       Dict.empty (xy 2 0) RIGHT 2
     = Ok [(xy 2 0, glyph 3)]
  /\ detonate 1 (xy 0 0) (terrain_with 3 1 [(xy 0 0, BOMB)])
     = Ok [(xy 0 0, glyph 15); (xy 1 0, glyph 3); (xy 2 0, glyph 3)].
Proof. repeat split. Qed.

(** C6, amended.  When [_propagate] stands on a cell that is neither a wall
    nor a bomb still to be detonated, and the next position in the direction
    of travel is outside the terrain, it first merges the flame into the
    current cell and then stops: the result is the change-set with the
    current cell written, and no other cell is touched. *)
Theorem C6_edge_cell_is_marked
  (t : Terrain) (rec : Dict.t -> Position -> outcome Dict.t)
  (ch : Dict.t) (cur : Position) (d : Direction) (n : nat) (tok : Token) :
  get_token t cur = Ok tok ->
  Token_eqb tok WALL = false ->
  Token_eqb tok BOMB && negb (Dict.mem ch cur) = false ->
  cardinal d ->
  is_valid_position t (shift cur d 1) = false ->
  get_new_position_from cur d = Ok (shift cur d 1)
  /\ _propagate t rec ch cur d (S n) =
     Ok (Dict.set ch cur
           (glyph (Z.lor (mask_at ch cur) (dirs_mask (marked_directions d (S n))))))
  /\ forall ch', _propagate t rec ch cur d (S n) = Ok ch' ->
       Dict.mem ch' cur = true
       /\ forall q, q <> cur -> Dict.get ch' q = Dict.get ch q.
Proof.
  intros Htok Hw Hb Hd Hn.
  assert (E : _propagate t rec ch cur d (S n) =
              Ok (Dict.set ch cur
                    (glyph (Z.lor (mask_at ch cur)
                                  (dirs_mask (marked_directions d (S n))))))).
  { cbn [_propagate]. rewrite Htok; cbn [bind]. rewrite Hw, Hb.
    rewrite (add_flame_valid t ch cur _ (get_token_Ok_valid t cur tok Htok)
               (marked_directions_cardinal d (S n) Hd)).
    rewrite (get_new_position_from_shift cur d Hd). cbn [bind].
    rewrite Hn. reflexivity. }
  split; [apply get_new_position_from_shift; exact Hd |].
  split; [exact E |].
  intros ch' H. rewrite E in H. injection H as <-. split.
  - rewrite DictFacts.mem_set, Position_eqb_refl; reflexivity.
  - intros q Hq. apply DictFacts.get_set_other; exact Hq.
Qed.

Lemma C6_edge_cell_is_marked_witness :
  get_new_position_from (xy 2 0) RIGHT = Ok (shift (xy 2 0) RIGHT 1)
  /\ _propagate (blank 3 1) (_detonate (blank 3 1) 0) Dict.empty (xy 2 0) RIGHT 2 =
     Ok (Dict.set Dict.empty (xy 2 0)
           (glyph (Z.lor (mask_at Dict.empty (xy 2 0))
                         (dirs_mask (marked_directions RIGHT 2)))))
  /\ forall ch',
       _propagate (blank 3 1) (_detonate (blank 3 1) 0) Dict.empty (xy 2 0) RIGHT 2 = Ok ch' ->
       Dict.mem ch' (xy 2 0) = true
       /\ forall q, q <> xy 2 0 -> Dict.get ch' q = Dict.get Dict.empty q.
Proof.
  apply (C6_edge_cell_is_marked (blank 3 1) (_detonate (blank 3 1) 0)
           Dict.empty (xy 2 0) RIGHT 1 EMPTY);
    try reflexivity.
  unfold cardinal; discriminate.
Defined.

(** ** C1: one bomb on open ground *)

(** C1, as stated, fails at the tips.  In a 7 by 7 terrain that is empty
    but for the bomb at (3, 3), the change-set has 13 cells, and the tip three
    steps up from the bomb, at (3, 0), holds the glyph of the single bit of
    [DOWN], the direction back to the bomb, not the glyph of the bit of [UP],
    the outward direction. *)
Lemma C1_counterexample :
  exists ch,
    detonate 1 (xy 3 3) (terrain_with 7 7 [(xy 3 3, BOMB)]) = Ok ch
    /\ List.length ch = 13%nat
    /\ shift (xy 3 3) UP 3 = xy 3 0
    /\ Dict.get ch (xy 3 0) = Some (glyph (bit_of DOWN))
    /\ Dict.get ch (xy 3 0) <> Some (glyph (bit_of UP)).
Proof.
  eexists. split; [vm_compute; reflexivity |].
  repeat split. vm_compute. discriminate.
Qed.

(** C1, amended.  For a bomb at least three cells away from every edge of
    a well-formed terrain whose other cells are all empty, [detonate] returns
    exactly 13 entries, in this order: the bomb's cell with the mask of all
    four directions; then, for the directions up, down, left and right, two
    cells with the bits of the direction of travel and of its opposite, and
    the tip, three steps away, with the single bit of the opposite of the
    direction of travel (the bit that points back to the bomb). *)
Theorem C1_blast_on_open_ground
  (fuel : nat) (pos : Position) (t : Terrain) :
  Terrain_wf t ->
  3 <= _x pos < _width t - 3 ->
  3 <= _y pos < _height t - 3 ->
  is_bomb t pos = true ->
  (forall q, is_valid_position t q = true -> q <> pos -> get_token t q = Ok EMPTY) ->
  (1 <= fuel)%nat ->
  detonate fuel pos t =
    Ok ((pos, glyph (dirs_mask [UP; DOWN; LEFT; RIGHT]))
        :: flame_arm pos UP ++ flame_arm pos DOWN
        ++ flame_arm pos LEFT ++ flame_arm pos RIGHT)
  /\ List.length ((pos, glyph (dirs_mask [UP; DOWN; LEFT; RIGHT]))
                  :: flame_arm pos UP ++ flame_arm pos DOWN
                  ++ flame_arm pos LEFT ++ flame_arm pos RIGHT) = 13%nat.
Proof.
  intros Hwf Hx Hy Hb Hempty Hfuel. split; [| reflexivity].
  assert (Hv : forall d j, 0 <= j <= 3 -> is_valid_position t (shift pos d j) = true).
  { intros d j Hj. apply shift_valid; lia. }
  assert (Hopen : forall d j, cardinal d -> 1 <= j <= 3 ->
                    is_wall t (shift pos d j) = false /\ is_bomb t (shift pos d j) = false).
  { intros d j Hd Hj. unfold is_wall, is_bomb.
    rewrite (Hempty (shift pos d j)); [split; reflexivity | apply Hv; lia |].
    apply shift_neq; [exact Hd | lia]. }
  assert (Harm : forall d, cardinal d ->
                   arm t pos d = [ (shift pos d 1, Flame (line_mask d));
                                   (shift pos d 2, Flame (line_mask d));
                                   (shift pos d 3, Flame (tip_mask d)) ]).
  { intros d Hd. apply arm_open; try (apply Hv; lia); apply Hopen; auto; lia. }
  assert (Hblast : map render (blast t pos) =
                   (pos, glyph (dirs_mask [UP; DOWN; LEFT; RIGHT]))
                   :: flame_arm pos UP ++ flame_arm pos DOWN
                   ++ flame_arm pos LEFT ++ flame_arm pos RIGHT).
  { unfold blast. rewrite !Harm by (unfold cardinal; discriminate). reflexivity. }
  assert (Hkeys : map fst (blast t pos) =
                  pos :: map fst (flame_arm pos UP ++ flame_arm pos DOWN
                                  ++ flame_arm pos LEFT ++ flame_arm pos RIGHT)).
  { unfold blast. rewrite !Harm by (unfold cardinal; discriminate). reflexivity. }
  unfold detonate.
  destruct (get_token t pos) as [tok | |] eqn:Htok;
    try (unfold is_bomb in Hb; rewrite Htok in Hb; discriminate).
  cbn [bind]. unfold is_bomb in Hb. rewrite Htok in Hb. rewrite Hb.
  destruct fuel as [| fuel]; [lia |]. cbn [_detonate].
  rewrite (_detonate_body_blast t Hwf).
  - rewrite apply_writes_fresh.
    + rewrite Hblast. reflexivity.
    + rewrite Hkeys. apply cross_NoDup.
    + reflexivity.
  - apply is_valid_position_iff; lia.
  - intros q Hq Hbq. left.
    destruct (Position_eq_dec q pos) as [E | E]; [exact E | exfalso].
    assert (Hvq : is_valid_position t q = true) by (apply is_bomb_valid; exact Hbq).
    unfold is_bomb in Hbq. rewrite (Hempty q Hvq E) in Hbq. discriminate.
Qed.

Lemma C1_blast_on_open_ground_witness :
  detonate 1 (xy 3 3) (terrain_with 7 7 [(xy 3 3, BOMB)]) =
    Ok ((xy 3 3, glyph (dirs_mask [UP; DOWN; LEFT; RIGHT]))
        :: flame_arm (xy 3 3) UP ++ flame_arm (xy 3 3) DOWN
        ++ flame_arm (xy 3 3) LEFT ++ flame_arm (xy 3 3) RIGHT)
  /\ List.length ((xy 3 3, glyph (dirs_mask [UP; DOWN; LEFT; RIGHT]))
                  :: flame_arm (xy 3 3) UP ++ flame_arm (xy 3 3) DOWN
                  ++ flame_arm (xy 3 3) LEFT ++ flame_arm (xy 3 3) RIGHT) = 13%nat.
Proof.
  apply C1_blast_on_open_ground; try reflexivity; try (simpl; lia).
  intros [qx qy] Hv Hne.
  apply is_valid_position_iff in Hv. simpl in Hv.
  assert (Hc : In (qx, qy)
                 (list_prod [0; 1; 2; 3; 4; 5; 6] [0; 1; 2; 3; 4; 5; 6])).
  { apply in_prod; simpl; lia. }
  simpl in Hc.
  repeat (destruct Hc as [Hc | Hc];
          [injection Hc as <- <-; first [reflexivity | exfalso; apply Hne; reflexivity] |]).
  destruct Hc.
Defined.

(** ** C2: a second bomb within reach *)

(** C2.  Take a well-formed terrain whose only bombs are [A] and the bomb
    [k] steps away from it in direction [d] (at most three), with no wall
    in between.  Detonating [A] returns one change-set; cell by cell it is
    the union of what [detonate] returns for each bomb when the other one is
    replaced by [EMPTY]: a cell that both blasts reach holds the glyph of the
    bitwise OR of its two masks.  The change-set is made of the writes of
    [chain_writes], where the arm towards the second bomb writes its open
    cells and then hands over to the detonation of the second bomb; and a
    propagation that stands on a bomb not yet recorded stops there and is the
    detonation of that bomb. *)
Theorem C2_chain_reaction_is_union
  (fuel : nat) (A : Position) (d : Direction) (k : nat) (t : Terrain) :
  Terrain_wf t ->
  cardinal d ->
  (1 <= k <= 3)%nat ->
  is_bomb t A = true ->
  is_bomb t (shift A d (Z.of_nat k)) = true ->
  (forall q, is_bomb t q = true -> q = A \/ q = shift A d (Z.of_nat k)) ->
  (forall j, (1 <= j < k)%nat -> is_wall t (shift A d (Z.of_nat j)) = false) ->
  (2 <= fuel)%nat ->
  exists ch chA chB tA tB,
    update t [(shift A d (Z.of_nat k), EMPTY)] = Ok tA
    /\ update t [(A, EMPTY)] = Ok tB
    /\ detonate fuel A t = Ok ch
    /\ detonate fuel A tA = Ok chA
    /\ detonate fuel (shift A d (Z.of_nat k)) tB = Ok chB
    /\ (forall p, Dict.get ch p = merge_entries (Dict.get chA p) (Dict.get chB p))
    /\ ch = apply_writes Dict.empty (chain_writes t A d k)
    /\ (forall rec ch0 n,
          Dict.mem ch0 (shift A d (Z.of_nat k)) = false ->
          _propagate t rec ch0 (shift A d (Z.of_nat k)) d (S n) =
          rec ch0 (shift A d (Z.of_nat k))).
Proof.
  intros Hwf Hd Hk HA HB Honly Hopen Hf.
  set (B := shift A d (Z.of_nat k)) in *.
  assert (HAB : B <> A) by (apply shift_neq; [exact Hd | lia]).
  destruct (update_clear_cell t B Hwf (is_bomb_valid t B HB) (is_bomb_not_wall t B HB))
    as (tA & HupA & HwfA & HvA & HwA & HbA).
  destruct (update_clear_cell t A Hwf (is_bomb_valid t A HA) (is_bomb_not_wall t A HA))
    as (tB & HupB & HwfB & HvB & HwB & HbB).
  assert (HrunA : detonate fuel A tA = Ok (apply_writes Dict.empty (blast t A))).
  { rewrite (blast_same_walls t tA A) by (intros q; symmetry; auto).
    apply single_bomb_writes; auto; [| | lia].
    - rewrite HbA. replace (Position_eqb A B) with false; [exact HA |].
      symmetry. apply Position_eqb_neq. congruence.
    - intros q Hq. rewrite HbA in Hq.
      destruct (Position_eqb q B) eqn:E; [discriminate |].
      apply Position_eqb_neq in E. destruct (Honly q Hq); congruence. }
  assert (HrunB : detonate fuel B tB = Ok (apply_writes Dict.empty (blast t B))).
  { rewrite (blast_same_walls t tB B) by (intros q; symmetry; auto).
    apply single_bomb_writes; auto; [| | lia].
    - rewrite HbB. replace (Position_eqb B A) with false; [exact HB |].
      symmetry. apply Position_eqb_neq. exact HAB.
    - intros q Hq. rewrite HbB in Hq.
      destruct (Position_eqb q A) eqn:E; [discriminate |].
      apply Position_eqb_neq in E. destruct (Honly q Hq); congruence. }
  assert (Hrun : detonate fuel A t = Ok (apply_writes Dict.empty (chain_writes t A d k))).
  { apply detonate_chain; assumption. }
  assert (Hfit : Forall (write_fits t) (chain_writes t A d k)).
  { apply chain_writes_fit; assumption. }
  assert (Hunion : forall p, contrib (chain_writes t A d k) p =
                     omerge (contrib (blast t A) p) (contrib (blast t B) p)).
  { intros p. apply chain_writes_contrib; assumption. }
  assert (HfitA : Forall (write_fits t) (blast t A))
    by (apply blast_fits, is_bomb_not_wall; exact HA).
  assert (HfitB : Forall (write_fits t) (blast t B))
    by (apply blast_fits, is_bomb_not_wall; exact HB).
  exists (apply_writes Dict.empty (chain_writes t A d k)),
         (apply_writes Dict.empty (blast t A)),
         (apply_writes Dict.empty (blast t B)), tA, tB.
  repeat (split; [assumption |]).
  split; [| split; [reflexivity |]].
  - intros p.
    destruct (get_apply_writes t _ p Hfit) as [Ht Hv].
    destruct (get_apply_writes t _ p HfitA) as [HtA HvA'].
    destruct (get_apply_writes t _ p HfitB) as [HtB HvB'].
    rewrite (tidy_get t _ p Ht), (tidy_get t _ p HtA), (tidy_get t _ p HtB).
    rewrite Hv, HvA', HvB', Hunion.
    assert (Hr : forall ws q m, Forall (write_fits t) ws -> contrib ws q = Some m ->
                                in_mask_range m).
    { intros ws q m Hws Hc.
      destruct (get_apply_writes t ws q Hws) as [_ Hvw].
      rewrite Hc in Hvw. unfold view in Hvw.
      destruct (Dict.get (apply_writes Dict.empty ws) q); [| discriminate].
      injection Hvw as <-. apply mask_of_token_range. }
    destruct (contrib (blast t A) p) as [a |] eqn:Ea,
             (contrib (blast t B) p) as [b |] eqn:Eb; cbn [omerge merge_entries];
      try reflexivity.
    rewrite !mask_of_token_glyph; [reflexivity | |].
    + exact (Hr _ _ _ HfitB Eb).
    + exact (Hr _ _ _ HfitA Ea).
  - intros rec ch0 n Hm. apply _propagate_bomb_step; assumption.
Qed.

Lemma C2_chain_reaction_is_union_witness :
  exists ch chA chB tA tB,
    update two_bombs_4x1 [(shift (xy 0 0) RIGHT (Z.of_nat 2%nat), EMPTY)] = Ok tA
    /\ update two_bombs_4x1 [((xy 0 0), EMPTY)] = Ok tB
    /\ detonate 2%nat (xy 0 0) two_bombs_4x1 = Ok ch
    /\ detonate 2%nat (xy 0 0) tA = Ok chA
    /\ detonate 2%nat (shift (xy 0 0) RIGHT (Z.of_nat 2%nat)) tB = Ok chB
    /\ (forall p, Dict.get ch p = merge_entries (Dict.get chA p) (Dict.get chB p))
    /\ ch = apply_writes Dict.empty (chain_writes two_bombs_4x1 (xy 0 0) RIGHT 2%nat)
    /\ (forall rec ch0 n,
          Dict.mem ch0 (shift (xy 0 0) RIGHT (Z.of_nat 2%nat)) = false ->
          _propagate two_bombs_4x1 rec ch0 (shift (xy 0 0) RIGHT (Z.of_nat 2%nat)) RIGHT (S n) =
          rec ch0 (shift (xy 0 0) RIGHT (Z.of_nat 2%nat))).
Proof.
  apply C2_chain_reaction_is_union;
    [ reflexivity | unfold cardinal; discriminate | lia | reflexivity | reflexivity
    | | intros j Hj; assert (j = 1%nat) as -> by lia; reflexivity | lia ].
  intros [qx qy] Hq.
  pose proof (is_bomb_valid _ _ Hq) as Hv.
  apply is_valid_position_iff in Hv. simpl in Hv.
  assert (qy = 0) as -> by lia.
  assert (Hc : qx = 0 \/ qx = 1 \/ qx = 2 \/ qx = 3) by lia.
  destruct Hc as [-> | [-> | [-> | ->]]];
    first [left; reflexivity | right; reflexivity | discriminate Hq].
Defined.

(** ** C3: a wall within reach *)

(** C3, as stated, fails when another bomb is chained.  In this 7 by 7
    terrain the bomb at (3, 3) has a wall next to it on the right, at (4, 3);
    the bomb above it, at (3, 2), is chained and chains the bomb at (5, 2),
    whose downward arm puts a flame on (5, 3): a changed cell beyond the wall
    in the direction of the wall.  The wall itself holds [EMPTY]. *)
Lemma C3_counterexample :
  exists ch,
    detonate 3 (xy 3 3)
      (terrain_with 7 7 [(xy 3 3, BOMB); (xy 4 3, WALL); (xy 3 2, BOMB); (xy 5 2, BOMB)])
    = Ok ch
    /\ is_wall
         (terrain_with 7 7 [(xy 3 3, BOMB); (xy 4 3, WALL); (xy 3 2, BOMB); (xy 5 2, BOMB)])
         (shift (xy 3 3) RIGHT 1) = true
    /\ Dict.get ch (shift (xy 3 3) RIGHT 1) = Some EMPTY
    /\ Dict.get ch (shift (xy 3 3) RIGHT 2) = Some (glyph 12).
Proof. eexists. split; [vm_compute; reflexivity |]. repeat split. Qed.

(** C3, amended.  A bomb at [c] with a wall [k] steps away in direction
    [d] (at most three), the cells between being neither walls nor bombs:
    - the propagation in that direction writes the open cells and then the
      wall as [EMPTY], and stops: it changes no cell beyond the wall, whatever
      the change-set it starts from;
    - in every such terrain, chain reactions included, the change-set
      [detonate] returns holds [EMPTY] for the wall, not a flame;
    - when the terrain holds no other bomb, the change-set is made of the
      writes of the four arms, each propagating as [ray] describes, and it
      holds no cell beyond the wall in that direction. *)
Theorem C3_wall_absorbs_blast
  (fuel : nat) (c : Position) (d : Direction) (k : nat) (t : Terrain) :
  Terrain_wf t ->
  is_bomb t c = true ->
  cardinal d ->
  (1 <= k <= 3)%nat ->
  is_wall t (shift c d (Z.of_nat k)) = true ->
  (forall j, (1 <= j < k)%nat ->
     is_wall t (shift c d (Z.of_nat j)) = false /\
     is_bomb t (shift c d (Z.of_nat j)) = false) ->
  (List.length (bombs t) <= fuel)%nat ->
  (forall rec ch0,
     _propagate t rec ch0 (shift c d 1) d BOMB_SIZE =
     Ok (apply_writes ch0 (arm_until_wall c d k)))
  /\ (forall ch0 j, Z.of_nat k < j ->
        Dict.get (apply_writes ch0 (arm_until_wall c d k)) (shift c d j) =
        Dict.get ch0 (shift c d j))
  /\ exists ch,
       detonate fuel c t = Ok ch
       /\ Dict.get ch (shift c d (Z.of_nat k)) = Some EMPTY
       /\ ((forall q, is_bomb t q = true -> q = c) ->
           ch = apply_writes Dict.empty (blast t c)
           /\ arm t c d = arm_until_wall c d k
           /\ forall j, Z.of_nat k < j -> Dict.get ch (shift c d j) = None).
Proof.
  intros Hwf Hb Hd Hk Hw Hopen Hf.
  pose proof (is_bomb_valid t c Hb) as Hv.
  assert (Harm : arm t c d = arm_until_wall c d k).
  { apply arm_to_wall; auto. intros j Hj; apply Hopen; exact Hj. }
  assert (Hv1 : is_valid_position t (shift c d 1) = true).
  { apply (shift_between_valid t c d 1 (Z.of_nat k)); auto; [| lia].
    apply is_wall_valid; exact Hw. }
  assert (Hnobomb : forall q, In q (map fst (arm_until_wall c d k)) ->
                              is_bomb t q = true -> False).
  { intros q Hq Hbq.
    destruct (arm_until_wall_positions c d k q) as (i & Hi & ->); [lia | exact Hq |].
    destruct (Z.eq_dec i (Z.of_nat k)) as [-> | Hne].
    - rewrite (is_bomb_not_wall t _ Hbq) in Hw; discriminate.
    - destruct (Hopen (Z.to_nat i)) as [_ Hnb]; [lia |].
      rewrite Z2Nat.id in Hnb by lia. congruence. }
  assert (Hprop : forall rec ch0,
            _propagate t rec ch0 (shift c d 1) d BOMB_SIZE =
            Ok (apply_writes ch0 (arm_until_wall c d k))).
  { intros rec ch0. rewrite <- Harm. unfold arm. rewrite Hv1.
    apply _propagate_ray; auto.
    intros q Hq Hbq. exfalso. apply (Hnobomb q); auto.
    rewrite <- Harm. unfold arm. rewrite Hv1. exact Hq. }
  split; [exact Hprop |]. split.
  - intros ch0 j Hj. apply apply_writes_get_other. intros Hin.
    destruct (arm_until_wall_positions c d k _ (proj1 Hk) Hin) as (i & Hi & E).
    destruct (shift_inj c d d j i Hd Hd) as [_ Hij]; auto; lia.
  - destruct (detonate_returns fuel c t Hwf Hv Hf) as (ch & H).
    exists ch. split; [exact H |]. split.
    + destruct (detonate_on_bomb t fuel c ch Hb H) as (f & -> & Hs).
      destruct (spread_inv t _ c d (_detonate_sound t f) _ _ _
                  four_directions_cardinal (in_direction_list d Hd) Hs)
        as (ch2 & ch3 & _ & H3 & Hs3).
      rewrite Hv1, Hprop in H3. injection H3 as <-.
      pose proof (detonate_well_marked (S f) c t ch H (shift c d (Z.of_nat k))) as Hm.
      assert (Hin : In (shift c d (Z.of_nat k)) (Dict.keys ch)).
      { apply (steps_keys_mono t _ _ _ Hs3).
        apply apply_writes_keys. left. apply arm_until_wall_last. }
      apply DictFacts.mem_keys in Hin. unfold Dict.mem in Hin.
      destruct (Dict.get ch (shift c d (Z.of_nat k))) as [tok |]; [| discriminate].
      specialize (Hm tok eq_refl). rewrite Hw in Hm. rewrite Hm. reflexivity.
    + intros Honly.
      assert (E : ch = apply_writes Dict.empty (blast t c)).
      { destruct (detonate_on_bomb t fuel c ch Hb H) as (f & Ef & _).
        rewrite (single_bomb_writes fuel c t Hwf Hb Honly) in H by lia.
        congruence. }
      split; [exact E |]. split; [exact Harm |].
      intros j Hj. rewrite E. rewrite apply_writes_get_other; [reflexivity |].
      apply (blast_not_beyond_wall t c d k j); auto; lia.
Qed.

Lemma C3_wall_absorbs_blast_witness :
  (forall rec ch0,
     _propagate (terrain_with 5 1 [(xy 0 0, BOMB); (xy 2 0, WALL)]) rec ch0
       (shift (xy 0 0) RIGHT 1) RIGHT BOMB_SIZE =
     Ok (apply_writes ch0 (arm_until_wall (xy 0 0) RIGHT 2)))
  /\ (forall ch0 j, Z.of_nat 2 < j ->
        Dict.get (apply_writes ch0 (arm_until_wall (xy 0 0) RIGHT 2)) (shift (xy 0 0) RIGHT j) =
        Dict.get ch0 (shift (xy 0 0) RIGHT j))
  /\ exists ch,
       detonate 1 (xy 0 0) (terrain_with 5 1 [(xy 0 0, BOMB); (xy 2 0, WALL)]) = Ok ch
       /\ Dict.get ch (shift (xy 0 0) RIGHT (Z.of_nat 2)) = Some EMPTY
       /\ ((forall q, is_bomb (terrain_with 5 1 [(xy 0 0, BOMB); (xy 2 0, WALL)]) q = true ->
                      q = xy 0 0) ->
           ch = apply_writes Dict.empty
                  (blast (terrain_with 5 1 [(xy 0 0, BOMB); (xy 2 0, WALL)]) (xy 0 0))
           /\ arm (terrain_with 5 1 [(xy 0 0, BOMB); (xy 2 0, WALL)]) (xy 0 0) RIGHT =
              arm_until_wall (xy 0 0) RIGHT 2
           /\ forall j, Z.of_nat 2 < j -> Dict.get ch (shift (xy 0 0) RIGHT j) = None).
Proof.
  apply C3_wall_absorbs_blast;
    [ reflexivity | reflexivity | unfold cardinal; discriminate | lia | reflexivity
    | intros j Hj; assert (j = 1%nat) as -> by lia; split; reflexivity
    | vm_compute; lia ].
Defined.

(* ================================================================= *)
(** * Further properties of the detonation engine *)

(** Every entry of a change-set returned by [detonate] has a valid key; a
    wall holds [EMPTY], any other cell holds one of the fifteen tokens of
    [Token.FLAMES], found in [flame_tokens] under a mask from 1 to 15; and a
    bomb holds the full cross. *)
Theorem detonate_entries
  (fuel : nat) (pos : Position) (t : Terrain) (ch : Dict.t)
  (k : Position) (tok : Token) :
  detonate fuel pos t = Ok ch ->
  Dict.get ch k = Some tok ->
  is_valid_position t k = true
  /\ (is_wall t k = true -> tok = EMPTY)
  /\ (is_wall t k = false ->
      in_FLAMES tok = true /\ exists m, 1 <= m < 16 /\ flame_token m = Ok tok)
  /\ (is_bomb t k = true -> tok = mkToken "┼").
Proof.
  intros H Hk.
  assert (Hin : In k (Dict.keys ch)).
  { apply DictFacts.mem_keys. unfold Dict.mem; rewrite Hk; reflexivity. }
  pose proof (detonate_well_marked fuel pos t ch H k tok Hk) as Hm.
  split; [apply (detonate_keys fuel pos t ch H); exact Hin |].
  split; [intros Hw; rewrite Hw in Hm; exact Hm |].
  split.
  - intros Hw. rewrite Hw in Hm. destruct Hm as (m & Hr & ->).
    split; [apply in_FLAMES_glyph; exact Hr |].
    exists m. split; [exact Hr |]. apply flame_token_glyph; unfold in_mask_range; lia.
  - intros Hb.
    pose proof (detonate_bombs_crossed fuel pos t ch H k Hb) as Hc.
    rewrite Hk in Hc. apply DictFacts.mem_keys in Hin.
    specialize (Hc Hin). injection Hc as ->. reflexivity.
Qed.

Lemma detonate_entries_witness :
  is_valid_position (terrain_with 3 1 [(xy 0 0, BOMB); (xy 2 0, WALL)]) (xy 1 0) = true
  /\ (is_wall (terrain_with 3 1 [(xy 0 0, BOMB); (xy 2 0, WALL)]) (xy 1 0) = true ->
      glyph 3 = EMPTY)
  /\ (is_wall (terrain_with 3 1 [(xy 0 0, BOMB); (xy 2 0, WALL)]) (xy 1 0) = false ->
      in_FLAMES (glyph 3) = true /\ exists m, 1 <= m < 16 /\ flame_token m = Ok (glyph 3))
  /\ (is_bomb (terrain_with 3 1 [(xy 0 0, BOMB); (xy 2 0, WALL)]) (xy 1 0) = true ->
      glyph 3 = mkToken "┼").
Proof.
  apply (detonate_entries 1 (xy 0 0)
           (terrain_with 3 1 [(xy 0 0, BOMB); (xy 2 0, WALL)])
           [(xy 0 0, glyph 15); (xy 1 0, glyph 3); (xy 2 0, EMPTY)]);
    reflexivity.
Defined.

(** Detonating a bomb records the bomb's own cell, as the first entry of
    the change-set, with the full cross. *)
Theorem detonate_records_start
  (fuel : nat) (pos : Position) (t : Terrain) :
  Terrain_wf t ->
  is_bomb t pos = true ->
  (List.length (bombs t) <= fuel)%nat ->
  exists rest, detonate fuel pos t = Ok ((pos, mkToken "┼") :: rest).
Proof.
  intros Hwf Hb Hf.
  destruct (detonate_returns fuel pos t Hwf (is_bomb_valid t pos Hb) Hf) as (ch & H).
  destruct (detonate_on_bomb t fuel pos ch Hb H) as (f & -> & Hs).
  assert (Hsteps : steps t [(pos, glyph 15)] ch).
  { exact (spread_sound t _ (_detonate_sound t f) _ _ _ _ Hs). }
  assert (G : forall a b, steps t a b ->
                forall k v tl, a = (k, v) :: tl -> exists v' tl', b = (k, v') :: tl').
  { induction 1 as [a | a b c _ IH Hst]; intros k v tl E; [eauto |].
    destruct (IH k v tl E) as (v' & tl' & ->).
    inversion Hst; subst; simpl; destruct (Position_eqb _ k); eauto. }
  destruct (G _ _ Hsteps pos (glyph 15) [] eq_refl) as (v' & tl' & E).
  subst ch. exists tl'. rewrite H. do 2 f_equal. f_equal.
  pose proof (detonate_bombs_crossed (S f) pos t _ H pos Hb) as Hc.
  simpl in Hc. rewrite Position_eqb_refl in Hc.
  unfold Dict.mem in Hc; simpl in Hc. rewrite Position_eqb_refl in Hc.
  specialize (Hc eq_refl). injection Hc as ->. reflexivity.
Qed.

Lemma detonate_records_start_witness :
  exists rest,
    detonate 2 (xy 1 0) (terrain_with 3 1 [(xy 1 0, BOMB); (xy 2 0, BOMB)]) =
    Ok ((xy 1 0, mkToken "┼") :: rest).
Proof.
  apply detonate_records_start; [reflexivity | reflexivity | vm_compute; lia].
Defined.

(** Applying the change-set of a detonation: the bomb is gone, so a second
    [detonate] at the same position returns the empty change-set; and the
    update creates no bomb and no wall. *)
Theorem detonate_update_detonate
  (fuel fuel' : nat) (pos : Position) (t : Terrain) :
  Terrain_wf t ->
  is_bomb t pos = true ->
  (List.length (bombs t) <= fuel)%nat ->
  exists ch t',
    detonate fuel pos t = Ok ch
    /\ update t ch = Ok t'
    /\ detonate fuel' pos t' = Ok Dict.empty
    /\ (forall p, is_bomb t' p = true -> is_bomb t p = true /\ Dict.mem ch p = false)
    /\ (forall p, is_wall t' p = true -> is_wall t p = true /\ Dict.mem ch p = false).
Proof.
  intros Hwf Hb Hf.
  pose proof (is_bomb_valid t pos Hb) as Hv.
  destruct (detonate_returns fuel pos t Hwf Hv Hf) as (ch & H).
  destruct (detonate_keys fuel pos t ch H) as [Hnd Hval].
  destruct (update_spec t ch Hwf Hnd Hval) as (t' & Hup & Hwf' & Hw & Hh & Hget).
  assert (Hsame : forall p, is_valid_position t' p = is_valid_position t p).
  { intros p. unfold is_valid_position. rewrite Hw, Hh. reflexivity. }
  assert (Hkind : forall p tok, Dict.get ch p = Some tok ->
                    Token_eqb tok BOMB = false /\ Token_eqb tok WALL = false).
  { intros p tok Hp.
    pose proof (detonate_well_marked fuel pos t ch H p tok Hp) as Hm.
    destruct (is_wall t p).
    - subst tok. split; reflexivity.
    - destruct Hm as (m & Hr & ->).
      assert (Hr' : in_mask_range m) by (unfold in_mask_range; lia).
      each_mask Hr'; split; reflexivity. }
  assert (Hcell : forall p, is_valid_position t p = true ->
                    (Dict.mem ch p = false /\ get_token t' p = get_token t p)
                    \/ (exists tok, Dict.get ch p = Some tok /\ get_token t' p = Ok tok)).
  { intros p Hp. rewrite (Hget p Hp). unfold Dict.mem.
    destruct (Dict.get ch p) as [tok |]; [right; eauto | left; auto]. }
  exists ch, t'. repeat split; auto.
  - unfold detonate. rewrite (Hget pos Hv).
    rewrite (detonate_start_recorded fuel pos t ch Hb H). reflexivity.
  - destruct (Hcell p) as [[_ E] | (tok & Hp & E)];
      [rewrite <- Hsame; apply is_bomb_valid; exact H0 | |].
    + unfold is_bomb in *. rewrite <- E. exact H0.
    + unfold is_bomb in H0. rewrite E in H0.
      destruct (Hkind p tok Hp) as [Hk _]. congruence.
  - destruct (Hcell p) as [[Em _] | (tok & Hp & E)];
      [rewrite <- Hsame; apply is_bomb_valid; exact H0 | exact Em |].
    unfold is_bomb in H0. rewrite E in H0.
    destruct (Hkind p tok Hp) as [Hk _]. congruence.
  - destruct (Hcell p) as [[_ E] | (tok & Hp & E)];
      [rewrite <- Hsame; apply is_wall_valid; exact H0 | |].
    + unfold is_wall in *. rewrite <- E. exact H0.
    + unfold is_wall in H0. rewrite E in H0.
      destruct (Hkind p tok Hp) as [_ Hk]. congruence.
  - destruct (Hcell p) as [[Em _] | (tok & Hp & E)];
      [rewrite <- Hsame; apply is_wall_valid; exact H0 | exact Em |].
    unfold is_wall in H0. rewrite E in H0.
    destruct (Hkind p tok Hp) as [_ Hk]. congruence.
Qed.

Lemma detonate_update_detonate_witness :
  exists ch t',
    detonate 1 (xy 0 0) (terrain_with 3 1 [(xy 0 0, BOMB); (xy 2 0, WALL)]) = Ok ch
    /\ update (terrain_with 3 1 [(xy 0 0, BOMB); (xy 2 0, WALL)]) ch = Ok t'
    /\ detonate 5 (xy 0 0) t' = Ok Dict.empty
    /\ (forall p, is_bomb t' p = true ->
          is_bomb (terrain_with 3 1 [(xy 0 0, BOMB); (xy 2 0, WALL)]) p = true
          /\ Dict.mem ch p = false)
    /\ (forall p, is_wall t' p = true ->
          is_wall (terrain_with 3 1 [(xy 0 0, BOMB); (xy 2 0, WALL)]) p = true
          /\ Dict.mem ch p = false).
Proof.
  apply detonate_update_detonate; [reflexivity | reflexivity | vm_compute; lia].
Defined.

(* ================================================================= *)
(** * terrain.py *)

(** [Terrain.update] with a change-set whose keys are valid positions
    succeeds; the terrain keeps its size and stays well formed; a cell of the
    change-set reads as the change-set says and any other cell reads as
    before. *)
Theorem update_read_back (t : Terrain) (d : Dict.t) :
  Terrain_wf t ->
  NoDup (Dict.keys d) ->
  (forall k, In k (Dict.keys d) -> is_valid_position t k = true) ->
  exists t',
    update t d = Ok t'
    /\ Terrain_wf t'
    /\ _width t' = _width t /\ _height t' = _height t
    /\ (forall p tok, Dict.get d p = Some tok -> get_token t' p = Ok tok)
    /\ (forall p, Dict.get d p = None -> get_token t' p = get_token t p).
Proof.
  intros Hwf Hnd Hval.
  destruct (update_spec t d Hwf Hnd Hval) as (t' & Hup & Hwf' & Hw & Hh & Hget).
  exists t'. repeat split; auto.
  - intros p tok Hp. rewrite Hget.
    + rewrite Hp; reflexivity.
    + apply Hval, DictFacts.mem_keys. unfold Dict.mem; rewrite Hp; reflexivity.
  - intros p Hp. destruct (is_valid_position t p) eqn:Hv.
    + rewrite (Hget p Hv), Hp. reflexivity.
    + rewrite (get_token_invalid t p Hv). apply get_token_invalid.
      unfold is_valid_position in *. rewrite Hw, Hh. exact Hv.
Qed.

Lemma update_read_back_witness :
  exists t',
    update (blank 2 2) [(xy 1 0, WALL); (xy 0 1, BOMB)] = Ok t'
    /\ Terrain_wf t'
    /\ _width t' = _width (blank 2 2) /\ _height t' = _height (blank 2 2)
    /\ (forall p tok, Dict.get [(xy 1 0, WALL); (xy 0 1, BOMB)] p = Some tok ->
                      get_token t' p = Ok tok)
    /\ (forall p, Dict.get [(xy 1 0, WALL); (xy 0 1, BOMB)] p = None ->
                  get_token t' p = get_token (blank 2 2) p).
Proof.
  apply update_read_back.
  - reflexivity.
  - repeat constructor; simpl; intros H; repeat (destruct H as [H | H]; try discriminate); exact H.
  - intros k [<- | [<- | []]]; reflexivity.
Defined.

Lemma update_cells_invalid (w h : Z) (d : Dict.t) :
  (exists k, In k (Dict.keys d) /\ is_valid_position (mkTerrain w h []) k = false) ->
  forall cells, List.length cells = Z.to_nat (w * h) ->
  update_cells w h cells d = Raise TerrainError.
Proof.
  induction d as [| [k v] d IH]; intros (k0 & Hin & Hk0) cells Hlen;
    [destruct Hin |].
  cbn [update_cells]. unfold _loc_to_index.
  rewrite (is_valid_position_cells w h cells []).
  destruct (is_valid_position (mkTerrain w h []) k) eqn:Hk; [| reflexivity].
  simpl. unfold list_setitem.
  pose proof (index_in_range _ k Hk) as Hr; simpl in Hr.
  destruct (list_set_nat_Some cells (Z.to_nat (_y k * w + _x k)) v)
    as (cells1 & -> & Hlen1 & _ & _); [lia |].
  cbn [bind]. apply IH; [| congruence].
  exists k0. split; [| exact Hk0].
  destruct Hin as [E | Hin]; [| exact Hin]. simpl in E. subst k0. congruence.
Qed.

(** [Terrain.update] raises [TerrainError] as soon as one key of the
    change-set is not a valid position, wherever the key stands. *)
Theorem update_invalid_key (t : Terrain) (d : Dict.t) (k : Position) :
  Terrain_wf t ->
  In k (Dict.keys d) ->
  is_valid_position t k = false ->
  update t d = Raise TerrainError.
Proof.
  intros Hwf Hin Hk. destruct t as [w h cells]. unfold update; simpl.
  rewrite (update_cells_invalid w h d); [reflexivity | | exact Hwf].
  exists k. split; [exact Hin | exact Hk].
Qed.

Lemma update_invalid_key_witness :
  update (blank 2 2) [(xy 1 0, WALL); (xy 0 2, BOMB); (xy 0 0, WALL)] = Raise TerrainError.
Proof.
  apply (update_invalid_key _ _ (xy 0 2)); [reflexivity | simpl; tauto | reflexivity].
Defined.

(** [Terrain._loc_to_index] maps the valid positions one to one onto the
    indices of the cells, and raises [TerrainError] on any other position. *)
Theorem loc_to_index_bijection (t : Terrain) :
  (forall p, is_valid_position t p = true ->
     exists i, _loc_to_index t p = Ok i /\ 0 <= i < _width t * _height t)
  /\ (forall p, is_valid_position t p = false -> _loc_to_index t p = Raise TerrainError)
  /\ (forall p q i, _loc_to_index t p = Ok i -> _loc_to_index t q = Ok i -> p = q)
  /\ (forall i, 0 <= i < _width t * _height t -> 0 < _width t ->
        _loc_to_index t (mkPosition (i mod _width t) (i / _width t)) = Ok i).
Proof.
  unfold _loc_to_index. repeat split.
  - intros p Hp. rewrite Hp. simpl. eexists. split; [reflexivity |].
    apply index_in_range; exact Hp.
  - intros p Hp. rewrite Hp. reflexivity.
  - intros p q i Hp Hq.
    destruct (is_valid_position t p) eqn:Vp; simpl in Hp; [| discriminate].
    destruct (is_valid_position t q) eqn:Vq; simpl in Hq; [| discriminate].
    injection Hp as Hp. injection Hq as Hq. apply (index_inj t p q Vp Vq). lia.
  - intros i Hi Hw.
    assert (Hv : is_valid_position t (mkPosition (i mod _width t) (i / _width t)) = true).
    { apply is_valid_position_iff. simpl.
      pose proof (Z.mod_pos_bound i (_width t) Hw).
      split; [lia |]. split; [apply Z.div_pos; lia |].
      apply Z.div_lt_upper_bound; lia. }
    rewrite Hv. simpl. f_equal.
    pose proof (Z.div_mod i (_width t)). lia.
Qed.

Lemma nth_error_repeat_Some {X : Type} (x : X) (n i : nat) :
  (i < n)%nat -> nth_error (repeat x n) i = Some x.
Proof.
  revert i; induction n as [| n IH]; intros i Hi; [lia |].
  destruct i; simpl; [reflexivity | apply IH; lia].
Qed.

Lemma filter_nil {X : Type} (f : X -> bool) (l : list X) :
  (forall x, In x l -> f x = false) -> filter f l = [].
Proof.
  induction l as [| a l IH]; intros H; simpl; [reflexivity |].
  rewrite (H a (or_introl eq_refl)). apply IH. intros x Hx; apply H; right; exact Hx.
Qed.

(** A terrain made by [Terrain(width=w, height=h)] is well formed, every
    valid cell is [EMPTY], it has no bomb, and [detonate] on it returns the
    empty change-set at a valid position and raises [TerrainError] at any
    other. *)
Theorem blank_terrain (width height : Z) (fuel : nat) (p : Position) :
  Terrain_wf (blank width height)
  /\ get_token (blank width height) p =
     (if is_valid_position (blank width height) p then Ok EMPTY else Raise TerrainError)
  /\ bombs (blank width height) = []
  /\ detonate fuel p (blank width height) =
     (if is_valid_position (blank width height) p then Ok Dict.empty
      else Raise TerrainError).
Proof.
  assert (Hget : forall q, get_token (blank width height) q =
            (if is_valid_position (blank width height) q then Ok EMPTY
             else Raise TerrainError)).
  { intros q. destruct (is_valid_position (blank width height) q) eqn:Hv.
    - unfold get_token, _loc_to_index. rewrite Hv. simpl.
      unfold list_getitem. pose proof (index_in_range _ q Hv) as Hr. simpl in Hr.
      rewrite nth_error_repeat_Some by lia. reflexivity.
    - apply get_token_invalid; exact Hv. }
  split; [apply blank_wf |]. split; [apply Hget |]. split.
  - unfold bombs. apply filter_nil. intros q _. unfold is_bomb. rewrite Hget.
    destruct (is_valid_position _ q); reflexivity.
  - unfold detonate. rewrite Hget.
    destruct (is_valid_position _ p); reflexivity.
Qed.

Lemma succ_div_mod (w i : Z) :
  0 < w -> 0 <= i ->
  (i mod w <? w - 1) = true /\ (i + 1) mod w = i mod w + 1 /\ (i + 1) / w = i / w
  \/ (i mod w <? w - 1) = false /\ (i + 1) mod w = 0 /\ (i + 1) / w = i / w + 1.
Proof.
  intros Hw Hi.
  pose proof (Z.div_mod i w ltac:(lia)) as Hdm.
  pose proof (Z.mod_pos_bound i w Hw) as Hb.
  destruct (Z.ltb_spec (i mod w) (w - 1)) as [Hlt | Hge]; [left | right];
    (split; [reflexivity |]).
  - assert (Hq : i / w = (i + 1) / w)
      by (apply (Z.div_unique (i + 1) w (i / w) (i mod w + 1)); lia).
    split; [| congruence].
    symmetry. apply (Z.mod_unique (i + 1) w (i / w) (i mod w + 1)); lia.
  - assert (Hq : i / w + 1 = (i + 1) / w)
      by (apply (Z.div_unique (i + 1) w (i / w + 1) 0); lia).
    split; [| congruence].
    symmetry. apply (Z.mod_unique (i + 1) w (i / w + 1) 0); lia.
Qed.

Lemma skipn_cons_nth {X : Type} (l : list X) (i : nat) (x : X) :
  nth_error l i = Some x -> skipn i l = x :: skipn (S i) l.
Proof.
  revert i; induction l as [| a l IH]; intros [| i] H; simpl in *; try discriminate.
  - injection H as ->. reflexivity.
  - apply IH; exact H.
Qed.

Lemma iterate_from (t : Terrain) :
  Terrain_wf t -> 0 < _width t ->
  forall n fuel i,
    (n < fuel)%nat ->
    (i + n)%nat = Z.to_nat (_width t * _height t) ->
    iterate fuel t (mkCursor (Z.of_nat i mod _width t) (Z.of_nat i / _width t)) =
    Ok (combine (map (position_of_index t) (seq i n)) (skipn i (_terrain t))).
Proof.
  intros Hwf Hw. induction n as [| n IH]; intros fuel i Hfuel Hi;
    (destruct fuel as [| fuel]; [lia |]); cbn [iterate]; unfold __next__;
    cbn [_cursor_x _cursor_y].
  - assert (Hend : (Z.of_nat i / _width t >=? _height t) = true).
    { rewrite Z.geb_leb. apply Z.leb_le.
      destruct (Z_le_gt_dec (_height t) 0) as [Hh | Hh].
      - assert (0 <= Z.of_nat i / _width t) by (apply Z.div_pos; lia). lia.
      - assert (E : Z.of_nat i = _height t * _width t) by nia.
        rewrite E, Z.div_mul by lia. lia. }
    rewrite Hend. reflexivity.
  - assert (Hlt : Z.of_nat i < _width t * _height t) by lia.
    assert (Hh : Z.of_nat i / _width t < _height t).
    { apply Z.div_lt_upper_bound; lia. }
    replace (Z.of_nat i / _width t >=? _height t) with false
      by (symmetry; rewrite Z.geb_leb; apply Z.leb_gt; lia).
    pose proof (Z.div_mod (Z.of_nat i) (_width t) ltac:(lia)) as Hdm.
    replace (Z.of_nat i / _width t * _width t + Z.of_nat i mod _width t)
      with (Z.of_nat i) by lia.
    unfold py_getitem. replace (Z.of_nat i <? 0) with false
      by (symmetry; apply Z.ltb_ge; lia).
    unfold list_getitem. rewrite Nat2Z.id.
    destruct (nth_error (_terrain t) i) as [tok |] eqn:Hnth.
    2:{ apply nth_error_None in Hnth. unfold Terrain_wf in Hwf. lia. }
    cbn [bind].
    assert (Hnext : (if Z.of_nat i mod _width t <? _width t - 1
                     then mkCursor (Z.of_nat i mod _width t + 1) (Z.of_nat i / _width t)
                     else mkCursor 0 (Z.of_nat i / _width t + 1)) =
                    mkCursor (Z.of_nat (S i) mod _width t) (Z.of_nat (S i) / _width t)).
    { replace (Z.of_nat (S i)) with (Z.of_nat i + 1) by lia.
      destruct (succ_div_mod (_width t) (Z.of_nat i) Hw ltac:(lia))
        as [(-> & -> & ->) | (-> & -> & ->)]; reflexivity. }
    rewrite Hnext, (IH fuel (S i)) by lia. cbn [bind].
    rewrite (skipn_cons_nth _ _ _ Hnth). reflexivity.
Qed.

(** A [for] loop over a well-formed terrain of positive width yields every
    cell once, row by row from the top left: the [n]-th item is the position
    [(n mod width, n div width)] with the token of that cell, as [get_token]
    reads it. *)
Theorem iterate_row_major (fuel : nat) (t : Terrain) :
  Terrain_wf t ->
  0 < _width t ->
  (Z.to_nat (_width t * _height t) < fuel)%nat ->
  iterate fuel t __iter__ =
    Ok (combine (map (position_of_index t) (seq 0 (Z.to_nat (_width t * _height t))))
                (_terrain t))
  /\ forall n tok, nth_error (_terrain t) n = Some tok ->
       get_token t (position_of_index t n) = Ok tok.
Proof.
  intros Hwf Hw Hf. split.
  - pose proof (iterate_from t Hwf Hw (Z.to_nat (_width t * _height t)) fuel 0%nat Hf
                  eq_refl) as H.
    change (Z.of_nat 0) with 0 in H. rewrite Z.mod_0_l, Z.div_0_l in H by lia.
    exact H.
  - intros n tok Hn.
    assert (Hlen : (n < List.length (_terrain t))%nat)
      by (apply nth_error_Some; congruence).
    unfold Terrain_wf in Hwf.
    assert (Hlt : 0 <= Z.of_nat n < _width t * _height t) by lia.
    unfold get_token, position_of_index.
    rewrite (loc_to_index_of_index t _ Hlt Hw). cbn [bind].
    unfold list_getitem. rewrite Nat2Z.id, Hn. reflexivity.
Qed.

Lemma iterate_row_major_witness :
  iterate 7 (terrain_with 3 2 [(xy 1 0, WALL); (xy 2 1, BOMB)]) __iter__ =
    Ok (combine
          (map (position_of_index (terrain_with 3 2 [(xy 1 0, WALL); (xy 2 1, BOMB)]))
               (seq 0 (Z.to_nat (_width (terrain_with 3 2 [(xy 1 0, WALL); (xy 2 1, BOMB)])
                                 * _height (terrain_with 3 2 [(xy 1 0, WALL); (xy 2 1, BOMB)])))))
          (_terrain (terrain_with 3 2 [(xy 1 0, WALL); (xy 2 1, BOMB)])))
  /\ forall n tok,
       nth_error (_terrain (terrain_with 3 2 [(xy 1 0, WALL); (xy 2 1, BOMB)])) n = Some tok ->
       get_token (terrain_with 3 2 [(xy 1 0, WALL); (xy 2 1, BOMB)])
         (position_of_index (terrain_with 3 2 [(xy 1 0, WALL); (xy 2 1, BOMB)]) n) = Ok tok.
Proof.
  apply iterate_row_major; [reflexivity | reflexivity | vm_compute; lia].
Defined.

(** On a well-formed terrain with rows but no columns (a height above 0
    and a width of 0 or less), the first [__next__] raises [IndexError]: the
    loop reads [_terrain[0]] of an empty list. *)
Theorem iterate_no_columns (fuel : nat) (t : Terrain) :
  Terrain_wf t ->
  _width t <= 0 ->
  0 < _height t ->
  __next__ t __iter__ = Raise IndexError
  /\ iterate (S fuel) t __iter__ = Raise IndexError.
Proof.
  intros Hwf Hw Hh.
  assert (Hnil : _terrain t = []).
  { unfold Terrain_wf in Hwf. apply length_zero_iff_nil. rewrite Hwf. nia. }
  assert (E : __next__ t __iter__ = Raise IndexError).
  { unfold __next__, __iter__; cbn [_cursor_x _cursor_y].
    replace (0 >=? _height t) with false by (symmetry; rewrite Z.geb_leb; apply Z.leb_gt; lia).
    rewrite Hnil. reflexivity. }
  split; [exact E |]. cbn [iterate]. rewrite E. reflexivity.
Qed.

Lemma iterate_no_columns_witness :
  __next__ (blank 0 2) __iter__ = Raise IndexError
  /\ iterate (S 0) (blank 0 2) __iter__ = Raise IndexError.
Proof. apply iterate_no_columns; [reflexivity | simpl; lia | simpl; lia]. Defined.

Lemma wall_is_not_empty (tok : Token) :
  Token_eqb tok WALL = true -> Token_eqb tok EMPTY = false.
Proof. intros H; apply Token_eqb_eq in H; subst; reflexivity. Qed.

Lemma existsb_snoc (p q : Position) (l : list Position) :
  existsb (Position_eqb p) (l ++ [q]) = existsb (Position_eqb p) l || Position_eqb p q.
Proof. rewrite existsb_app. simpl. rewrite orb_false_r. reflexivity. Qed.

Lemma out_of_bounds_test (t : Terrain) (q : Position) :
  (_x q <? 0) || (_x q >=? _width t) || (_y q <? 0) || (_y q >=? _height t)
  = negb (is_valid_position t q).
Proof.
  unfold is_valid_position.
  destruct ((_x q <? 0) || (_x q >=? _width t) || (_y q <? 0) || (_y q >=? _height t));
    reflexivity.
Qed.

Section Visited.

Variable self : Terrain.
Hypothesis self_wf : Terrain_wf self.
Variable token : Token.

Let idx (p : Position) : nat := Z.to_nat (_y p * _width self + _x p).

Lemma apply_visited_cells_spec :
  forall ps done copy,
    List.length copy = List.length (_terrain self) ->
    (forall p, is_valid_position self p = true ->
       nth_error copy (idx p) =
       option_map (visited_token token done p) (nth_error (_terrain self) (idx p))) ->
    exists copy',
      apply_visited_cells self copy ps token = Ok copy'
      /\ List.length copy' = List.length (_terrain self)
      /\ forall p, is_valid_position self p = true ->
           nth_error copy' (idx p) =
           option_map (visited_token token (done ++ ps) p)
                      (nth_error (_terrain self) (idx p)).
Proof.
  induction ps as [| q ps IH]; intros done copy Hlen Hinv.
  - exists copy. rewrite app_nil_r. auto.
  - replace (done ++ q :: ps) with ((done ++ [q]) ++ ps)
      by (rewrite <- app_assoc; reflexivity).
    cbn [apply_visited_cells].
    rewrite (out_of_bounds_test self q).
    assert (Hskip : (forall p, is_valid_position self p = true ->
                       visited_token token (done ++ [q]) p = visited_token token done p
                       \/ p = q) ).
    { intros p _. destruct (Position_eq_dec p q) as [E | E]; [right; exact E | left].
      unfold visited_token. rewrite existsb_snoc.
      apply Position_eqb_neq in E. rewrite E, orb_false_r. reflexivity. }
    destruct (is_valid_position self q) eqn:Hq; cbn [negb].
    + destruct (get_token_valid self q self_wf Hq) as (tok & Htok).
      assert (Hcell : nth_error (_terrain self) (idx q) = Some tok).
      { unfold get_token, _loc_to_index in Htok. rewrite Hq in Htok. simpl in Htok.
        unfold list_getitem in Htok. fold (idx q) in Htok.
        destruct (nth_error (_terrain self) (idx q)); [congruence | discriminate]. }
      rewrite Htok. cbn [bind].
      destruct (Token_eqb tok WALL) eqn:Ew.
      * apply IH; [exact Hlen |].
        intros p Hp. rewrite (Hinv p Hp).
        destruct (Hskip p Hp) as [-> | ->]; [reflexivity |].
        rewrite Hcell. simpl. unfold visited_token.
        rewrite (wall_is_not_empty tok Ew). reflexivity.
      * unfold _loc_to_index. rewrite Hq. cbn [negb bind].
        unfold list_getitem. fold (idx q).
        rewrite (Hinv q Hq), Hcell. cbn [option_map bind].
        destruct (Token_eqb (visited_token token done q tok) EMPTY) eqn:Ec.
        -- unfold list_setitem. fold (idx q).
           destruct (list_set_nat_Some copy (idx q) token)
             as (copy1 & -> & Hlen1 & Hnth1 & Hother1).
           { rewrite Hlen. apply nth_error_Some. congruence. }
           cbn [bind]. apply IH; [congruence |].
           intros p Hp. destruct (Position_eq_dec p q) as [-> | Hne].
           ++ rewrite Hnth1, Hcell. simpl. f_equal.
              unfold visited_token in *. rewrite existsb_snoc, Position_eqb_refl, orb_true_r.
              destruct (Token_eqb tok EMPTY) eqn:Et; simpl in *; [reflexivity |].
              congruence.
           ++ rewrite Hother1.
              ** rewrite (Hinv p Hp).
                 destruct (Hskip p Hp) as [-> | ->]; [reflexivity | congruence].
              ** intros E. apply Hne. apply (index_inj self p q Hp Hq).
                 pose proof (index_in_range self p Hp).
                 pose proof (index_in_range self q Hq).
                 unfold idx in E. lia.
        -- apply IH; [exact Hlen |].
           intros p Hp. rewrite (Hinv p Hp).
           destruct (Hskip p Hp) as [-> | ->]; [reflexivity |].
           rewrite Hcell. simpl. f_equal.
           unfold visited_token in *. rewrite existsb_snoc, Position_eqb_refl, orb_true_r.
           destruct (Token_eqb tok EMPTY) eqn:Et; simpl in *; [| reflexivity].
           destruct (existsb (Position_eqb q) done); [reflexivity | congruence].
    + apply IH; [exact Hlen |].
      intros p Hp. rewrite (Hinv p Hp).
      destruct (Hskip p Hp) as [-> | ->]; [reflexivity | congruence].
Qed.

End Visited.

(** [Terrain.apply_visited] on a well-formed terrain raises nothing and
    returns a terrain of the same size in which exactly the visited cells that
    were [EMPTY] hold the marking token; walls, bombs and every other cell
    are as before, and positions outside the terrain are skipped. *)
Theorem apply_visited_marks (t : Terrain) (ps : list Position) (token : Token) :
  Terrain_wf t ->
  exists t',
    apply_visited t ps token = Ok t'
    /\ Terrain_wf t'
    /\ _width t' = _width t /\ _height t' = _height t
    /\ forall p tok, get_token t p = Ok tok ->
         get_token t' p = Ok (visited_token token ps p tok).
Proof.
  intros Hwf.
  destruct (apply_visited_cells_spec t Hwf token ps [] (_terrain t) eq_refl)
    as (cells' & Hrun & Hlen & Hcells).
  - intros p _. destruct (nth_error (_terrain t) _) as [tok |]; [| reflexivity].
    simpl. unfold visited_token. simpl. rewrite andb_false_r. reflexivity.
  - unfold apply_visited. rewrite Hrun. cbn [bind].
    eexists. split; [reflexivity |].
    split; [unfold Terrain_wf in *; simpl; congruence |].
    split; [reflexivity |]. split; [reflexivity |].
    intros p tok Htok.
    pose proof (get_token_Ok_valid t p tok Htok) as Hv.
    unfold get_token, _loc_to_index in *.
    change (is_valid_position (mkTerrain (_width t) (_height t) cells') p)
      with (is_valid_position t p).
    rewrite Hv in *. simpl in *. unfold list_getitem in *.
    rewrite (Hcells p Hv). simpl in Hcells.
    destruct (nth_error (_terrain t) (Z.to_nat (_y p * _width t + _x p))) as [tok0 |];
      [| discriminate].
    injection Htok as ->. reflexivity.
Qed.

Lemma apply_visited_marks_witness :
  exists t',
    apply_visited (terrain_with 3 1 [(xy 1 0, WALL)]) [xy 0 0; xy 1 0; xy 7 7] VISITED_TOKEN
      = Ok t'
    /\ Terrain_wf t'
    /\ _width t' = _width (terrain_with 3 1 [(xy 1 0, WALL)])
    /\ _height t' = _height (terrain_with 3 1 [(xy 1 0, WALL)])
    /\ forall p tok, get_token (terrain_with 3 1 [(xy 1 0, WALL)]) p = Ok tok ->
         get_token t' p = Ok (visited_token VISITED_TOKEN [xy 0 0; xy 1 0; xy 7 7] p tok).
Proof. apply apply_visited_marks. reflexivity. Defined.

Lemma In_combine_map_seq {X Y : Type} (f : nat -> X) (a : X) (b : Y) :
  forall n s (l : list Y),
    In (a, b) (combine (map f (seq s n)) l) <->
    exists i, (i < n)%nat /\ a = f (s + i)%nat /\ nth_error l i = Some b.
Proof.
  induction n as [| n IH]; intros s l; simpl.
  - split; [tauto | intros (i & Hi & _); lia].
  - destruct l as [| y l]; simpl.
    + split; [tauto | intros (i & _ & _ & H); destruct i; discriminate].
    + rewrite IH. split.
      * intros [E | (i & Hi & Ha & Hn)].
        -- injection E as <- <-. exists 0%nat. rewrite Nat.add_0_r. repeat split; auto; lia.
        -- exists (S i). rewrite <- plus_n_Sm. repeat split; auto; lia.
      * intros ([| i] & Hi & Ha & Hn).
        -- left. rewrite Nat.add_0_r in Ha. simpl in Hn. congruence.
        -- right. exists i. rewrite <- plus_n_Sm in Ha. repeat split; auto; lia.
Qed.

Lemma fold_set_empty_get (l : list (Position * Token)) :
  forall d p,
    Dict.get (fold_left (fun d item => Dict.set d (fst item) EMPTY) l d) p =
    if existsb (fun item => Position_eqb p (fst item)) l then Some EMPTY
    else Dict.get d p.
Proof.
  induction l as [| it l IH]; intros d p; simpl; [reflexivity |].
  rewrite IH, DictFacts.get_set.
  destruct (existsb _ l); [rewrite orb_true_r; reflexivity |].
  rewrite orb_false_r. reflexivity.
Qed.

Lemma fold_set_empty_NoDup (l : list (Position * Token)) :
  forall d, NoDup (Dict.keys d) ->
    NoDup (Dict.keys (fold_left (fun d item => Dict.set d (fst item) EMPTY) l d)).
Proof.
  induction l as [| it l IH]; intros d Hd; simpl; [exact Hd |].
  apply IH, DictFacts.NoDup_keys_set, Hd.
Qed.

(** The items of an iteration are the cells as [get_token] reads them. *)
Lemma In_items (t : Terrain) (p : Position) (tok : Token) :
  Terrain_wf t -> 0 < _width t ->
  (In (p, tok)
      (combine (map (position_of_index t) (seq 0 (Z.to_nat (_width t * _height t))))
               (_terrain t))
   <-> get_token t p = Ok tok).
Proof.
  intros Hwf Hw. rewrite In_combine_map_seq. simpl. split.
  - intros (i & Hi & -> & Hn).
    unfold get_token, position_of_index.
    rewrite (loc_to_index_of_index t (Z.of_nat i)) by lia. cbn [bind].
    unfold list_getitem. rewrite Nat2Z.id, Hn. reflexivity.
  - intros H. pose proof (get_token_Ok_valid t p tok H) as Hv.
    pose proof (index_in_range t p Hv) as Hr.
    exists (Z.to_nat (_y p * _width t + _x p)). split; [lia |].
    unfold get_token, _loc_to_index in H. rewrite Hv in H. simpl in H.
    unfold list_getitem in H.
    destruct (nth_error (_terrain t) _) as [tok0 |] eqn:E; [| discriminate].
    split; [| congruence].
    unfold position_of_index. rewrite Z2Nat.id by lia.
    apply is_valid_position_iff in Hv. destruct p as [px py]; simpl in *.
    f_equal.
    + rewrite Z.add_comm, Z.mod_add by lia. symmetry. apply Z.mod_small; lia.
    + rewrite Z.add_comm, Z.div_add by lia. rewrite Z.div_small by lia. lia.
Qed.

(** The click handler's removal of flames: on a well-formed terrain of
    positive width it raises nothing, keeps the size, turns every cell of
    [Token.FLAMES] into [EMPTY] and leaves every other cell as it was. *)
Theorem remove_flames_clears (fuel : nat) (t : Terrain) :
  Terrain_wf t ->
  0 < _width t ->
  (Z.to_nat (_width t * _height t) < fuel)%nat ->
  exists t',
    remove_flames fuel t = Ok t'
    /\ Terrain_wf t'
    /\ _width t' = _width t /\ _height t' = _height t
    /\ (forall p tok, get_token t p = Ok tok ->
          get_token t' p = Ok (if in_FLAMES tok then EMPTY else tok))
    /\ (forall p tok, get_token t' p = Ok tok -> in_FLAMES tok = false).
Proof.
  intros Hwf Hw Hf. unfold remove_flames.
  pose proof (iterate_from t Hwf Hw (Z.to_nat (_width t * _height t)) fuel 0%nat Hf
                eq_refl) as Hit.
  change (Z.of_nat 0) with 0 in Hit. rewrite Z.mod_0_l, Z.div_0_l in Hit by lia.
  change (mkCursor 0 0) with __iter__ in Hit. simpl skipn in Hit.
  rewrite Hit. cbn [bind].
  set (items := combine (map (position_of_index t)
                           (seq 0 (Z.to_nat (_width t * _height t)))) (_terrain t)) in *.
  assert (Hget : forall p tok, get_token t p = Ok tok ->
            Dict.get (flames_to_empty items) p =
            if in_FLAMES tok then Some EMPTY else None).
  { intros p tok Hp. unfold flames_to_empty. rewrite fold_set_empty_get. simpl.
    destruct (existsb _ (filter _ items)) eqn:E.
    - apply existsb_exists in E. destruct E as ([q tk] & Hin & Hq).
      apply filter_In in Hin. destruct Hin as [Hin Hfl]. simpl in *.
      apply Position_eqb_eq in Hq. subst q.
      apply (In_items t p tk Hwf Hw) in Hin. assert (tk = tok) by congruence. subst.
      rewrite Hfl. reflexivity.
    - destruct (in_FLAMES tok) eqn:Hfl; [| reflexivity].
      exfalso. apply not_true_iff_false in E. apply E. apply existsb_exists.
      exists (p, tok). split; [| apply Position_eqb_refl].
      apply filter_In. split; [apply (In_items t p tok Hwf Hw); exact Hp | exact Hfl]. }
  assert (Hkeys : forall k, In k (Dict.keys (flames_to_empty items)) ->
                            is_valid_position t k = true).
  { intros k Hk. apply DictFacts.mem_keys in Hk. unfold Dict.mem in Hk.
    unfold flames_to_empty in Hk. rewrite fold_set_empty_get in Hk. simpl in Hk.
    destruct (existsb _ (filter _ items)) eqn:E; [| discriminate].
    apply existsb_exists in E. destruct E as ([q tk] & Hin & Hq).
    apply filter_In in Hin. destruct Hin as [Hin _]. simpl in *.
    apply Position_eqb_eq in Hq. subst q.
    apply (In_items t k tk Hwf Hw) in Hin. eapply get_token_Ok_valid; eassumption. }
  destruct (update_spec t (flames_to_empty items) Hwf) as (t' & Hup & Hwf' & Hwd & Hh & Hrd).
  - unfold flames_to_empty. apply fold_set_empty_NoDup. constructor.
  - exact Hkeys.
  - exists t'. split; [exact Hup |]. split; [exact Hwf' |].
    split; [exact Hwd |]. split; [exact Hh |].
    assert (Hcell : forall p tok, get_token t p = Ok tok ->
              get_token t' p = Ok (if in_FLAMES tok then EMPTY else tok)).
    { intros p tok Hp. rewrite (Hrd p (get_token_Ok_valid t p tok Hp)).
      rewrite (Hget p tok Hp). destruct (in_FLAMES tok); [reflexivity | exact Hp]. }
    split; [exact Hcell |].
    intros p tok Hp.
    assert (Hv : is_valid_position t p = true).
    { pose proof (get_token_Ok_valid t' p tok Hp) as Hv'.
      unfold is_valid_position in *. rewrite <- Hwd, <- Hh. exact Hv'. }
    destruct (get_token_valid t p Hwf Hv) as (tok0 & Htok0).
    rewrite (Hcell p tok0 Htok0) in Hp. injection Hp as <-.
    destruct (in_FLAMES tok0) eqn:E; [reflexivity | exact E].
Qed.

Lemma remove_flames_clears_witness :
  exists t',
    remove_flames 50 scorched_7x7 = Ok t'
    /\ Terrain_wf t'
    /\ _width t' = _width scorched_7x7 /\ _height t' = _height scorched_7x7
    /\ (forall p tok, get_token scorched_7x7 p = Ok tok ->
          get_token t' p = Ok (if in_FLAMES tok then EMPTY else tok))
    /\ (forall p tok, get_token t' p = Ok tok -> in_FLAMES tok = false).
Proof.
  apply remove_flames_clears; [reflexivity | reflexivity | vm_compute; lia].
Defined.

(* ================================================================= *)
(** * position.py *)

Ltac zcmp :=
  repeat match goal with
         | |- context [?a >? ?b] => destruct (Z.gtb_spec a b)
         | |- context [?a <? ?b] => destruct (Z.ltb_spec a b)
         | |- context [?a >=? ?b] => destruct (Z.geb_spec a b)
         | |- context [?a <=? ?b] => destruct (Z.leb_spec a b)
         end.

(** [Direction.opposite] is an involution whose only fixed point is
    [NONE]. *)
Theorem opposite_involution (d : Direction) :
  opposite (opposite d) = d
  /\ (opposite d = d <-> d = NONE)
  /\ (opposite d = NONE <-> d = NONE).
Proof. destruct d; simpl; repeat split; congruence. Qed.

(** [get_new_position_from] raises [InvalidDirectionError] for [NONE] and
    for nothing else. *)
Theorem get_new_position_from_raises (p : Position) (d : Direction) :
  (get_new_position_from p d = Raise InvalidDirectionError <-> d = NONE)
  /\ (d <> NONE -> exists q, get_new_position_from p d = Ok q).
Proof.
  destruct d; simpl; split; try (split; [discriminate | discriminate]);
    try (intros _; eexists; reflexivity).
  - split; reflexivity.
  - intros H; exfalso; apply H; reflexivity.
Qed.

(** One step: stepping back in the opposite direction returns to the
    start; [get_direction_to] recovers the direction of the step, and its
    opposite from the other end; the two cells differ and are at city-block
    distance 1. *)
Theorem step_and_back (p q : Position) (d : Direction) :
  get_new_position_from p d = Ok q ->
  get_new_position_from q (opposite d) = Ok p
  /\ get_direction_to p q = d
  /\ get_direction_to q p = opposite d
  /\ q <> p
  /\ distance_city_block p q = 1.
Proof.
  destruct p as [px py], d; simpl; try discriminate; intros [= <-];
    unfold get_direction_to, distance_city_block; simpl; zcmp; try lia;
    repeat split; try reflexivity; try lia;
    try (f_equal; f_equal; lia); try (intros Hneq; inversion Hneq; lia).
Qed.

Lemma step_and_back_witness :
  get_new_position_from (xy 2 4) (opposite UP) = Ok (xy 2 5)
  /\ get_direction_to (xy 2 5) (xy 2 4) = UP
  /\ get_direction_to (xy 2 4) (xy 2 5) = opposite UP
  /\ xy 2 4 <> xy 2 5
  /\ distance_city_block (xy 2 5) (xy 2 4) = 1.
Proof. apply (step_and_back (xy 2 5) (xy 2 4) UP). reflexivity. Defined.

(** [get_direction_to] seen from the other end gives the opposite
    direction, and it is [NONE] exactly between equal positions. *)
Theorem get_direction_to_opposite (p q : Position) :
  get_direction_to q p = opposite (get_direction_to p q)
  /\ (get_direction_to p q = NONE <-> p = q).
Proof.
  destruct p as [px py], q as [qx qy]. unfold get_direction_to; simpl.
  zcmp; try lia; simpl; (split; [reflexivity |]); split; try discriminate;
    try (intros Hneq; inversion Hneq; lia); try (intros _; f_equal; lia);
    try (intros _; reflexivity).
Qed.


Lemma NoDup_map_inj {X Y : Type} (f : X -> Y) (l : list X) :
  (forall a b, f a = f b -> a = b) -> NoDup l -> NoDup (map f l).
Proof.
  intros Hinj. induction 1 as [| a l Hnin _ IH]; simpl; constructor; [| exact IH].
  intros Hin. apply in_map_iff in Hin. destruct Hin as (b & E & Hb).
  apply Hinj in E. subst. exact (Hnin Hb).
Qed.

Lemma NoDup_app_intro {X : Type} (l l' : list X) :
  NoDup l -> NoDup l' -> (forall a, In a l -> In a l' -> False) -> NoDup (l ++ l').
Proof.
  induction 1 as [| a l Hnin _ IH]; intros Hl' Hdis; simpl; [exact Hl' |].
  constructor.
  - rewrite in_app_iff. intros [H | H]; [exact (Hnin H) |].
    exact (Hdis a (or_introl eq_refl) H).
  - apply IH; [exact Hl' |]. intros b Hb. apply Hdis. right; exact Hb.
Qed.

Lemma py_range_In (lo hi v : Z) : In v (py_range lo hi) <-> lo <= v < hi.
Proof.
  unfold py_range. rewrite in_map_iff. split.
  - intros (i & <- & Hi). apply in_seq in Hi. lia.
  - intros H. exists (Z.to_nat (v - lo)). split; [lia |]. apply in_seq. lia.
Qed.

Lemma py_range_NoDup (lo hi : Z) : NoDup (py_range lo hi).
Proof.
  unfold py_range. apply NoDup_map_inj; [| apply seq_NoDup].
  intros a b H. lia.
Qed.

Lemma py_range_length (lo hi : Z) : List.length (py_range lo hi) = Z.to_nat (hi - lo).
Proof. unfold py_range. rewrite length_map, length_seq. reflexivity. Qed.

(** [Position.positions] yields exactly the positions of the box, each
    once, column by column: [(max_x - min_x + 1) * (max_y - min_y + 1)] of
    them, and none when a bound is below its minimum. *)
Theorem positions_box (min_x max_x min_y max_y : Z) :
  (forall p, In p (positions min_x max_x min_y max_y) <->
             min_x <= _x p <= max_x /\ min_y <= _y p <= max_y)
  /\ NoDup (positions min_x max_x min_y max_y)
  /\ List.length (positions min_x max_x min_y max_y) =
     (Z.to_nat (max_x + 1 - min_x) * Z.to_nat (max_y + 1 - min_y))%nat.
Proof.
  unfold positions. split; [| split].
  - intros [px py]. rewrite in_flat_map. simpl. split.
    + intros (x & Hx & Hin). apply in_map_iff in Hin. destruct Hin as (y & E & Hy).
      inversion E; subst. apply py_range_In in Hx, Hy. lia.
    + intros [Hx Hy]. exists px. split; [apply py_range_In; lia |].
      apply in_map_iff. exists py. split; [reflexivity | apply py_range_In; lia].
  - generalize (py_range_NoDup min_x (max_x + 1)).
    induction (py_range min_x (max_x + 1)) as [| x xs IH]; intros Hnd; simpl; [constructor |].
    inversion Hnd as [| ? ? Hnin Hnd']; subst.
    apply NoDup_app_intro; [| apply IH; exact Hnd' |].
    + apply NoDup_map_inj; [| apply py_range_NoDup].
      intros a b H; inversion H; reflexivity.
    + intros p Hp Hq. apply in_map_iff in Hp. destruct Hp as (y & <- & _).
      apply in_flat_map in Hq. destruct Hq as (x' & Hx' & Hq).
      apply in_map_iff in Hq. destruct Hq as (y' & E & _). inversion E; subst.
      exact (Hnin Hx').
  - rewrite <- (py_range_length min_x (max_x + 1)).
    induction (py_range min_x (max_x + 1)) as [| x xs IH]; simpl; [reflexivity |].
    rewrite length_app, length_map, py_range_length, IH. reflexivity.
Qed.

(* ================================================================= *)
(** * graphics.py and the tables *)

(** [distance_city_block] is a metric on positions. *)
Theorem distance_city_block_metric (p q r : Position) :
  0 <= distance_city_block p q
  /\ distance_city_block p q = distance_city_block q p
  /\ (distance_city_block p q = 0 <-> p = q)
  /\ distance_city_block p r <= distance_city_block p q + distance_city_block q r.
Proof.
  destruct p as [px py], q as [qx qy], r as [rx ry].
  unfold distance_city_block; simpl. repeat split; try lia.
  - intros H. f_equal; lia.
  - intros H. inversion H; subst. lia.
Qed.

Lemma in_FLAMES_cases (tok : Token) :
  in_FLAMES tok = true -> In tok FLAMES.
Proof.
  unfold in_FLAMES. rewrite existsb_exists. intros (x & Hin & E).
  apply Token_eqb_eq in E. subst. exact Hin.
Qed.

Lemma sheet_coord_Ok (tok : Token) (c : Z * Z) :
  sheet_coord tok = Ok c -> In tok FLAMES.
Proof.
  unfold sheet_coord. destruct (find _ _token_to_sprite) as [[tk c'] |] eqn:E;
    [| discriminate].
  intros _. apply find_some in E. destruct E as [Hin E].
  apply Token_eqb_eq in E. simpl in E. subst tk.
  simpl in Hin. unfold FLAMES. simpl.
  repeat (destruct Hin as [Hin | Hin]; [injection Hin as <- _; tauto |]).
  destruct Hin.
Qed.

(** [Flame._token_to_sprite] has a sprite for every token of
    [Token.FLAMES] and for no other token; the sprites lie in the 4 by 4
    sheet, and different tokens have different sprites. *)
Theorem flame_sprites (tok tok' : Token) (c : Z * Z) :
  (in_FLAMES tok = true ->
   exists x y, sheet_coord tok = Ok (x, y) /\ 0 <= x < 4 /\ 0 <= y < 4)
  /\ (in_FLAMES tok = false -> sheet_coord tok = Raise KeyError)
  /\ (sheet_coord tok = Ok c -> sheet_coord tok' = Ok c -> tok = tok').
Proof.
  split; [| split].
  - intros H. apply in_FLAMES_cases in H. unfold FLAMES in H. simpl in H.
    repeat (destruct H as [H | H];
            [subst tok; eexists; eexists; split; [reflexivity | lia] |]).
    destruct H.
  - unfold in_FLAMES, FLAMES, existsb, sheet_coord, _token_to_sprite, find. simpl fst.
    intros H.
    repeat match goal with
           | |- context [if Token_eqb tok ?g then _ else _] =>
               destruct (Token_eqb tok g); [simpl in H; discriminate H |]
           end.
    reflexivity.
  - intros H H'.
    pose proof (sheet_coord_Ok tok c H) as Hin.
    pose proof (sheet_coord_Ok tok' c H') as Hin'.
    unfold FLAMES in Hin, Hin'. simpl in Hin, Hin'.
    repeat (destruct Hin as [Hin | Hin]; [subst tok |]); try destruct Hin;
      vm_compute in H; injection H as <-;
      repeat (destruct Hin' as [Hin' | Hin']; [subst tok' |]); try destruct Hin';
      first [reflexivity | vm_compute in H'; discriminate H'].
Qed.

(** [flame_tokens] and the scan of [add_flame] are inverse to each other
    on the masks 0 to 15, and the table has no other mask. *)
Theorem flame_table_round_trip (m : Z) :
  (0 <= m < 16 ->
   exists tok, flame_token m = Ok tok /\ mask_of_token tok = m
               /\ (in_FLAMES tok = true <-> m <> 0)
               /\ (tok = EMPTY <-> m = 0))
  /\ (~ 0 <= m < 16 -> flame_token m = Raise KeyError).
Proof.
  split.
  - intros H. assert (Hr : in_mask_range m) by exact H.
    each_mask Hr; eexists; (split; [reflexivity |]); (split; [reflexivity |]);
      split; split; intros E; try reflexivity; try lia; try discriminate.
  - intros H. unfold flame_token, flame_tokens, find. simpl fst.
    repeat match goal with
           | |- context [?a =? m] =>
               destruct (Z.eqb_spec a m); [exfalso; lia |]
           end.
    reflexivity.
Qed.

(** Every token of a change-set returned by [detonate] can be drawn: it is
    [EMPTY], which [draw] shows as ground, or it has a flame sprite. *)
Theorem change_set_is_drawable
  (fuel : nat) (pos : Position) (t : Terrain) (ch : Dict.t)
  (k : Position) (tok : Token) :
  detonate fuel pos t = Ok ch ->
  Dict.get ch k = Some tok ->
  tok = EMPTY \/ (in_FLAMES tok = true /\ exists c, sheet_coord tok = Ok c).
Proof.
  intros H Hk.
  pose proof (detonate_well_marked fuel pos t ch H k tok Hk) as Hm.
  destruct (is_wall t k); [left; exact Hm | right].
  destruct Hm as (m & Hr & ->).
  pose proof (in_FLAMES_glyph m Hr) as Hfl.
  split; [exact Hfl | apply sheet_coord_flames; exact Hfl].
Qed.

Lemma change_set_is_drawable_witness :
  glyph 3 = EMPTY \/ (in_FLAMES (glyph 3) = true /\ exists c, sheet_coord (glyph 3) = Ok c).
Proof.
  apply (change_set_is_drawable 1 (xy 0 0)
           (terrain_with 3 1 [(xy 0 0, BOMB); (xy 2 0, WALL)])
           [(xy 0 0, glyph 15); (xy 1 0, glyph 3); (xy 2 0, EMPTY)] (xy 1 0));
    reflexivity.
Defined.

(** [Token.from_str] finds every registered token by its value, over
    whatever registry, and returns [None] exactly for a value that no
    registered token has. *)
Theorem from_str_round_trip (registry : list Token) (tok : Token) (c : string) :
  (In tok registry -> from_str_in registry (value tok) = Some tok)
  /\ (from_str_in registry c = None <-> forall t, In t registry -> value t <> c)
  /\ (forall t, from_str_in registry c = Some t -> In t registry /\ value t = c).
Proof.
  unfold from_str_in. split; [| split].
  - induction registry as [| t0 l IH]; intros Hin; [destruct Hin |]. simpl.
    destruct (String.eqb (value t0) (value tok)) eqn:E.
    + apply String.eqb_eq in E. destruct t0, tok; simpl in E; subst; reflexivity.
    + destruct Hin as [-> | Hin]; [rewrite String.eqb_refl in E; discriminate |].
      apply IH; exact Hin.
  - split.
    + intros H t Hin Ht.
      pose proof (find_none _ _ H t Hin) as Hn. simpl in Hn.
      rewrite Ht, String.eqb_refl in Hn. discriminate.
    + intros H. induction registry as [| t0 l IH]; [reflexivity |]. simpl.
      destruct (String.eqb (value t0) c) eqn:E.
      * apply String.eqb_eq in E. exfalso. apply (H t0); [left; reflexivity | exact E].
      * apply IH. intros t Hin. apply H. right; exact Hin.
  - intros t H. apply find_some in H. destruct H as [Hin E].
    apply String.eqb_eq in E. auto.
Qed.

(* ================================================================= *)
(** ** The model on small terrains *)

Example detonate_center_7x7 :
  detonate 1 (xy 3 3) (terrain_with 7 7 [(xy 3 3, BOMB)]) =
  Ok [ (xy 3 3, glyph 15);
       (xy 3 2, glyph 12); (xy 3 1, glyph 12); (xy 3 0, glyph 8);
       (xy 3 4, glyph 12); (xy 3 5, glyph 12); (xy 3 6, glyph 4);
       (xy 2 3, glyph 3); (xy 1 3, glyph 3); (xy 0 3, glyph 2);
       (xy 4 3, glyph 3); (xy 5 3, glyph 3); (xy 6 3, glyph 1) ].
Proof. vm_compute. reflexivity. Qed.

(** Two bombs two cells apart: the second is chained, and the blasts merge. *)
Example detonate_chain_9x7 :
  detonate 2 (xy 3 3) (terrain_with 9 7 [(xy 3 3, BOMB); (xy 5 3, BOMB)]) =
  Ok [ (xy 3 3, glyph 15);
       (xy 3 2, glyph 12); (xy 3 1, glyph 12); (xy 3 0, glyph 8);
       (xy 3 4, glyph 12); (xy 3 5, glyph 12); (xy 3 6, glyph 4);
       (xy 2 3, glyph 3); (xy 1 3, glyph 3); (xy 0 3, glyph 2);
       (xy 4 3, glyph 3);
       (xy 5 3, glyph 15);
       (xy 5 2, glyph 12); (xy 5 1, glyph 12); (xy 5 0, glyph 8);
       (xy 5 4, glyph 12); (xy 5 5, glyph 12); (xy 5 6, glyph 4);
       (xy 6 3, glyph 3); (xy 7 3, glyph 3); (xy 8 3, glyph 1) ].
Proof. vm_compute. reflexivity. Qed.

